(** * tgbot dispatch core: shallow embedding and verified properties

    The development follows the C sources component by component:
    - [CStr]      NUL-terminated strings and the libc helpers the code calls
    - [Queue]     src/queue.c     (per-user rings, hash chains, round-robin pop)
    - [Whitelist] src/whitelist.c (sorted identifier list and its file)
    - [Commands]  src/commands.c  (slash-command parsing and dispatch)
    - [Llm]       src/llm.c       (stripping of reasoning blocks)
    - [Webhook]   webhook.c       (request handler of the HTTP endpoint)
    - [Logger]    src/logger.c    (circular log file)

    Machine integers are [Z] with the wrap-around written out, bytes are
    [ascii], C strings are [list ascii] read up to the first NUL, arrays
    are lists indexed with stdpp's lookup and insert. *)

From Stdlib Require Import ZArith List Lia Ascii String Bool.
From Corelib Require Import PrimFloat.
From stdpp Require Import base numbers list sorting.

Open Scope Z_scope.

(** ** C strings *)

Module CStr.

Definition NUL : ascii := Ascii.zero.

(** A string literal of the source, as the bytes before its terminator. *)
Definition lit (s : string) : list ascii := list_ascii_of_string s.

(** [*p] for a pointer into a NUL-terminated buffer: reading at the end of
    the list reads the terminator. *)
Definition peek (p : list ascii) : ascii :=
  match p with
  | [] => NUL
  | c :: _ => c
  end.

Definition is_nul (c : ascii) : bool := Ascii.eqb c NUL.

(** [strlen]: number of bytes before the first NUL. *)
Fixpoint strlen (p : list ascii) : nat :=
  match p with
  | [] => O
  | c :: p' => if is_nul c then O else S (strlen p')
  end.

(** The string a [const char *] denotes: the bytes before the first NUL. *)
Definition c_str (p : list ascii) : list ascii := take (strlen p) p.

(** The value of a byte as [unsigned char]. *)
Definition byte_val (c : ascii) : Z := Z.of_N (N_of_ascii c).

Definition of_byte_val (z : Z) : ascii := ascii_of_N (Z.to_N z).

(** [p + n] for a pointer into a buffer. *)
Definition advance (n : nat) (p : list ascii) : list ascii := drop n p.

(** [tolower] in the C locale. *)
Definition tolower (c : ascii) : ascii :=
  if (65 <=? byte_val c) && (byte_val c <=? 90) then of_byte_val (byte_val c + 32)
  else c.

(** [isspace] in the C locale: space, \t, \n, \v, \f, \r. *)
Definition isspace (c : ascii) : bool :=
  (byte_val c =? 32) || ((9 <=? byte_val c) && (byte_val c <=? 13)).

Definition isdigit (c : ascii) : bool :=
  (48 <=? byte_val c) && (byte_val c <=? 57).

(** [strcmp]: the difference of the first bytes that differ, 0 when the
    strings are equal. *)
Fixpoint strcmp (a b : list ascii) : Z :=
  match a, b with
  | [], _ => byte_val NUL - byte_val (peek b)
  | ca :: a', _ =>
      if negb (Ascii.eqb ca (peek b)) then byte_val ca - byte_val (peek b)
      else if is_nul ca then 0
      else strcmp a' (advance 1 b)
  end.

(** [strncasecmp a b n]: as [strcmp] on the lower-cased bytes, over at most
    [n] bytes. *)
Fixpoint strncasecmp (a b : list ascii) (n : nat) : Z :=
  match n with
  | O => 0
  | S n' =>
      let ca := tolower (peek a) in
      let cb := tolower (peek b) in
      if negb (Ascii.eqb ca cb) then byte_val ca - byte_val cb
      else if is_nul ca then 0
      else strncasecmp (advance 1 a) (advance 1 b) n'
  end.

(** *** Facts about the string helpers *)

Lemma byte_val_inj c d : byte_val c = byte_val d -> c = d.
Proof.
  unfold byte_val. intros H. apply N2Z.inj in H.
  rewrite <- (ascii_N_embedding c), <- (ascii_N_embedding d). now rewrite H.
Qed.

Lemma byte_val_range c : 0 <= byte_val c < 256.
Proof.
  unfold byte_val. pose proof (N_ascii_bounded c). lia.
Qed.

Lemma byte_val_of_byte_val z : 0 <= z < 256 -> byte_val (of_byte_val z) = z.
Proof.
  intros H. unfold byte_val, of_byte_val.
  rewrite N_ascii_embedding by (change 256%N with (Z.to_N 256); lia). lia.
Qed.

Lemma is_nul_spec c : is_nul c = true <-> c = NUL.
Proof. unfold is_nul. apply Ascii.eqb_eq. Qed.

Lemma c_str_nil : c_str [] = [].
Proof. reflexivity. Qed.

Lemma c_str_cons c p :
  c_str (c :: p) = if is_nul c then [] else c :: c_str p.
Proof. unfold c_str. simpl. now destruct (is_nul c). Qed.

Lemma c_str_empty p : c_str p = [] <-> peek p = NUL.
Proof.
  destruct p as [|c p]; [now split|]. rewrite c_str_cons. simpl.
  destruct (is_nul c) eqn:E.
  - apply is_nul_spec in E. now split.
  - split; [discriminate|]. intros ->. discriminate.
Qed.

Lemma peek_c_str p : peek (c_str p) = peek p.
Proof.
  destruct p as [|c p]; [reflexivity|]. rewrite c_str_cons.
  destruct (is_nul c) eqn:E; [|reflexivity].
  apply is_nul_spec in E. now subst.
Qed.

Lemma c_str_tail c p :
  is_nul c = false -> peek p = c -> c_str p = c :: c_str (advance 1 p).
Proof.
  intros Hc Hp. destruct p as [|d p]; simpl in Hp.
  - subst. discriminate.
  - subst d. rewrite c_str_cons, Hc. reflexivity.
Qed.

Lemma strcmp_eq a b : strcmp a b = 0 <-> c_str a = c_str b.
Proof.
  revert b. induction a as [|ca a IH]; intros b.
  - simpl strcmp. rewrite c_str_nil. split.
    + intros H. symmetry. apply c_str_empty. apply byte_val_inj.
      change (byte_val NUL) with 0 in *. lia.
    + intros H. symmetry in H. apply c_str_empty in H. rewrite H. reflexivity.
  - cbn [strcmp]. rewrite c_str_cons.
    destruct (Ascii.eqb ca (peek b)) eqn:E; simpl negb; cbv iota.
    + apply Ascii.eqb_eq in E. destruct (is_nul ca) eqn:N.
      * apply is_nul_spec in N. rewrite N in E. symmetry in E.
        apply c_str_empty in E. rewrite E. now split.
      * rewrite (c_str_tail ca b N (eq_sym E)). rewrite IH. split.
        -- now intros ->.
        -- now intros [= ->].
    + apply Ascii.eqb_neq in E. split.
      * intros H. exfalso. apply E. apply byte_val_inj. lia.
      * intros H. exfalso. apply E. destruct (is_nul ca) eqn:N.
        -- apply is_nul_spec in N. rewrite N. symmetry in H.
           apply c_str_empty in H. now rewrite H.
        -- rewrite <- peek_c_str, <- H. reflexivity.
Qed.

Lemma tolower_nul c : tolower c = NUL <-> c = NUL.
Proof.
  unfold tolower. destruct ((65 <=? byte_val c) && (byte_val c <=? 90)) eqn:E.
  - apply andb_true_iff in E. destruct E as [E1 E2].
    apply Z.leb_le in E1. apply Z.leb_le in E2. split.
    + intros H. exfalso. apply (f_equal byte_val) in H. revert H.
      rewrite byte_val_of_byte_val by lia. change (byte_val NUL) with 0. lia.
    + intros ->. change (byte_val NUL) with 0 in E1. lia.
  - tauto.
Qed.

(** [strncasecmp] is 0 exactly when the first [n] bytes of the two strings
    agree after lower-casing. *)
Lemma strncasecmp_eq n : forall a b,
  strncasecmp a b n = 0 <->
  map tolower (take n (c_str a)) = map tolower (take n (c_str b)).
Proof.
  induction n as [|n IH]; intros a b.
  - simpl. now split.
  - cbn [strncasecmp].
    destruct (Ascii.eqb (tolower (peek a)) (tolower (peek b))) eqn:E;
      simpl negb; cbv iota.
    + apply Ascii.eqb_eq in E.
      destruct (is_nul (tolower (peek a))) eqn:N.
      * apply is_nul_spec in N. assert (Nb : tolower (peek b) = NUL) by congruence.
        apply -> tolower_nul in N. apply -> tolower_nul in Nb.
        apply c_str_empty in N. apply c_str_empty in Nb. rewrite N, Nb. now split.
      * assert (Na : is_nul (peek a) = false).
        { destruct (is_nul (peek a)) eqn:Z; [|reflexivity].
          apply is_nul_spec in Z. apply tolower_nul in Z.
          apply is_nul_spec in Z. congruence. }
        assert (Nb : is_nul (peek b) = false).
        { destruct (is_nul (peek b)) eqn:Z; [|reflexivity].
          apply is_nul_spec in Z. apply tolower_nul in Z.
          rewrite <- E in Z. apply is_nul_spec in Z. congruence. }
        rewrite (c_str_tail _ a Na eq_refl), (c_str_tail _ b Nb eq_refl).
        simpl. rewrite IH. split.
        -- intros ->. now rewrite E.
        -- now intros [= _ ->].
    + apply Ascii.eqb_neq in E. split.
      * intros H. exfalso. apply E. apply byte_val_inj. lia.
      * intros H. exfalso. apply E.
        rewrite <- (peek_c_str a), <- (peek_c_str b).
        destruct (c_str a) as [|x xs] eqn:Ea, (c_str b) as [|y ys] eqn:Eb;
          simpl in *; try discriminate; try reflexivity.
        now injection H.
Qed.


Lemma strlen_c_str p : length (c_str p) = strlen p.
Proof.
  induction p as [|c p IH]; [reflexivity|]. rewrite c_str_cons. simpl.
  destruct (is_nul c); simpl; congruence.
Qed.

Lemma c_str_no_nul p : Forall (fun c => is_nul c = false) (c_str p).
Proof.
  induction p as [|c p IH]; [constructor|]. rewrite c_str_cons.
  destruct (is_nul c) eqn:E; [constructor|]. now constructor.
Qed.

Lemma c_str_idem p : c_str (c_str p) = c_str p.
Proof.
  induction p as [|c p IH]; [reflexivity|]. rewrite c_str_cons.
  destruct (is_nul c) eqn:E; [reflexivity|]. rewrite c_str_cons, E. congruence.
Qed.

End CStr.

(** ** Message queue (src/queue.c) *)

Module Queue.
Import CStr.

Definition QUEUE_BUCKETS : Z := 64.
Definition QUEUE_BUCKET_MASK : Z := QUEUE_BUCKETS - 1.

Definition INT_MIN : Z := - 2 ^ 31.
Definition INT_MAX : Z := 2 ^ 31 - 1.

(** Values of C type [int]. *)
Definition is_int (z : Z) : Prop := INT_MIN <= z <= INT_MAX.

(** Two's-complement wrap-around of 32-bit [int] arithmetic. *)
Definition wrap_int (z : Z) : Z := (z + 2 ^ 31) mod 2 ^ 32 - 2 ^ 31.

(** Wrap-around of [uint64_t] arithmetic, also the cast [(uint64_t)x]. *)
Definition wrap_u64 (z : Z) : Z := z mod 2 ^ 64.

(** [sizeof(s->text)], [sizeof(out->text)]. *)
Definition TEXT_SIZE : nat := 1024.

Record Slot := mkSlot {
  chat_id : Z;
  text : list ascii;       (* contents of char text[1024] before its NUL *)
  ingress_sec : float      (* CLOCK_MONOTONIC seconds *)
}.

(** A slot as [calloc] leaves it. *)
Definition zero_slot : Slot :=
  {| chat_id := 0; text := []; ingress_sec := 0%float |}.

(** [UserRing]; the [next] link is the tail of the chain list holding it. *)
Record UserRing := mkRing {
  user_id : Z;
  slots : list Slot;
  head : Z;
  tail : Z;
  count : Z;
  cap : Z;
  cap_mask : Z
}.

(** [QueueMsg] of queue.h. *)
Record QueueMsg := mkMsg {
  msg_user_id : Z;
  msg_chat_id : Z;
  msg_text : list ascii;
  msg_ingress_sec : float
}.

(** [g_queue] without its mutex and condition variable: every function
    below is the body that runs with [mtx] held. *)
Record g_queue := mkQueue {
  buckets : list (list UserRing);
  total_pending : Z;
  ring_size : Z;
  shutdown : bool;
  rr_bucket : Z
}.

Definition round_up_pow2 (v : Z) : Z :=
  let v := if v <? 4 then 4 else v in
  let v := wrap_int (v - 1) in
  let v := Z.lor v (Z.shiftr v 1) in
  let v := Z.lor v (Z.shiftr v 2) in
  let v := Z.lor v (Z.shiftr v 4) in
  let v := Z.lor v (Z.shiftr v 8) in
  let v := Z.lor v (Z.shiftr v 16) in
  wrap_int (v + 1).

Definition hash_user (user : Z) : Z :=
  let h := wrap_u64 user in
  let h := Z.lxor h (Z.shiftr h 33) in
  let h := wrap_u64 (h * 0xff51afd7ed558ccd) in
  let h := Z.lxor h (Z.shiftr h 33) in
  let h := wrap_u64 (h * 0xc4ceb9fe1a85ec53) in
  let h := Z.lxor h (Z.shiftr h 33) in
  Z.land h QUEUE_BUCKET_MASK.

(** [g_queue.buckets[idx]], the chain with its head first. *)
Definition bucket (q : g_queue) (idx : Z) : list UserRing :=
  default [] (buckets q !! Z.to_nat idx).

Definition set_bucket (q : g_queue) (idx : Z) (chain : list UserRing) : g_queue :=
  {| buckets := <[Z.to_nat idx := chain]> (buckets q);
     total_pending := total_pending q;
     ring_size := ring_size q;
     shutdown := shutdown q;
     rr_bucket := rr_bucket q |}.

(** The chain walk of [ring_get_or_create]: position of the first node whose
    [user_id] matches. *)
Fixpoint chain_find (chain : list UserRing) (user : Z) : option nat :=
  match chain with
  | [] => None
  | r :: rest =>
      if user_id r =? user then Some O
      else option_map S (chain_find rest user)
  end.

(** A fresh ring: [calloc] zeroes the struct and the slot array.  The slot
    allocation [calloc((size_t)cap, sizeof(Slot))] cannot succeed for a
    negative [cap] (the cast makes the product overflow), so no ring is
    made then.  Every other allocation is taken to succeed: running out of
    memory, which makes [ring_get_or_create] return NULL and [queue_push]
    return -1 with the queue unchanged, is left out of the model.  What is
    proved below about a push being accepted is therefore stated for the
    ring sizes 1 to 256 that configuration gives, or under the hypothesis that the push returned 0. *)
Definition new_ring (user : Z) (rsz : Z) : option UserRing :=
  let c := round_up_pow2 rsz in
  if c <? 0 then None
  else Some {| user_id := user;
               slots := replicate (Z.to_nat c) zero_slot;
               head := 0; tail := 0; count := 0;
               cap := c; cap_mask := wrap_int (c - 1) |}.

(** [ring_get_or_create]: the queue after a possible insertion at the chain
    head, the bucket index and the position of the ring in its chain
    (standing for the returned pointer); [None] is the NULL return. *)
Definition ring_get_or_create (user : Z) (q : g_queue)
  : option (g_queue * Z * nat) :=
  let idx := hash_user user in
  match chain_find (bucket q idx) user with
  | Some j => Some (q, idx, j)
  | None =>
      match new_ring user (ring_size q) with
      | None => None
      | Some r => Some (set_bucket q idx (r :: bucket q idx), idx, O)
      end
  end.

(** What [memcpy(s->text, text, tlen); s->text[tlen] = 0] stores, with
    [tlen = min (strlen text) (sizeof - 1)]. *)
Definition copy_text (src : list ascii) : list ascii :=
  let tlen := strlen src in
  let tlen := if (TEXT_SIZE <=? tlen)%nat then (TEXT_SIZE - 1)%nat else tlen in
  take tlen src.

Definition ring_store (r : UserRing) (s : Slot) : UserRing :=
  {| user_id := user_id r;
     slots := <[Z.to_nat (tail r) := s]> (slots r);
     head := head r;
     tail := Z.land (wrap_int (tail r + 1)) (cap_mask r);
     count := wrap_int (count r + 1);
     cap := cap r; cap_mask := cap_mask r |}.

(** [queue_push]; [now] is the reading of [monotonic_sec()].  Returns the
    return code and the queue. *)
Definition queue_push (user chat : Z) (txt : list ascii) (now : float)
    (q : g_queue) : Z * g_queue :=
  match ring_get_or_create user q with
  | None => (-1, q)
  | Some (q1, idx, j) =>
      match bucket q1 idx !! j with
      | None => (-1, q1)
      | Some r =>
          if cap r <=? count r then (-1, q1)
          else
            let s := {| chat_id := chat; text := copy_text txt;
                        ingress_sec := now |} in
            let q2 := set_bucket q1 idx (<[j := ring_store r s]> (bucket q1 idx)) in
            (0, {| buckets := buckets q2;
                   total_pending := wrap_int (total_pending q2 + 1);
                   ring_size := ring_size q2;
                   shutdown := shutdown q2;
                   rr_bucket := rr_bucket q2 |})
      end
  end.

(** [r->slots[r->head]]. *)
Definition ring_front (r : UserRing) : Slot :=
  default zero_slot (slots r !! Z.to_nat (head r)).

Definition ring_advance (r : UserRing) : UserRing :=
  {| user_id := user_id r;
     slots := slots r;
     head := Z.land (wrap_int (head r + 1)) (cap_mask r);
     tail := tail r;
     count := wrap_int (count r - 1);
     cap := cap r; cap_mask := cap_mask r |}.

(** The inner [while (r)] of [ring_pop_any] on one chain: the slot and user
    popped and the chain afterwards, with the ring unlinked when it drained. *)
Fixpoint chain_pop (chain : list UserRing) : option (Slot * Z * list UserRing) :=
  match chain with
  | [] => None
  | r :: rest =>
      if 0 <? count r then
        let r' := ring_advance r in
        Some (ring_front r, user_id r,
              if count r' =? 0 then rest else r' :: rest)
      else
        match chain_pop rest with
        | Some (out, u, rest') => Some (out, u, r :: rest')
        | None => None
        end
  end.

(** The [for] loop of [ring_pop_any], [n] iterations left, loop variable [i]. *)
Fixpoint ring_pop_loop (n : nat) (start i : Z) (q : g_queue)
  : option (Slot * Z * g_queue) :=
  match n with
  | O => None
  | S n' =>
      let idx := Z.land (wrap_int (start + i)) QUEUE_BUCKET_MASK in
      match chain_pop (bucket q idx) with
      | Some (out, u, chain') =>
          Some (out, u,
                {| buckets := <[Z.to_nat idx := chain']> (buckets q);
                   total_pending := wrap_int (total_pending q - 1);
                   ring_size := ring_size q;
                   shutdown := shutdown q;
                   rr_bucket := Z.land (wrap_int (idx + 1)) QUEUE_BUCKET_MASK |})
      | None => ring_pop_loop n' start (i + 1) q
      end
  end.

Definition ring_pop_any (q : g_queue) : option (Slot * Z * g_queue) :=
  ring_pop_loop (Z.to_nat QUEUE_BUCKETS) (rr_bucket q) 0 q.

Definition queue_init (rsz : Z) : g_queue :=
  {| buckets := replicate (Z.to_nat QUEUE_BUCKETS) [];
     total_pending := 0;
     ring_size := if 0 <? rsz then rsz else 30;
     shutdown := false;
     rr_bucket := 0 |}.

(** Outcome of a call of [queue_pop]: it stays in [pthread_cond_wait]
    (nothing pending, no shutdown), or it returns [rc] and, for [rc = 0],
    the message written to [*out]. *)
Inductive pop_result :=
| Waits
| Ret (rc : Z) (out : option QueueMsg).

Definition queue_pop (q : g_queue) : pop_result * g_queue :=
  if (total_pending q =? 0) && negb (shutdown q) then (Waits, q)
  else if shutdown q && (total_pending q =? 0) then (Ret (-1) None, q)
  else
    match ring_pop_any q with
    | None => (Ret (-1) None, q)
    | Some (slot, user, q') =>
        (Ret 0 (Some {| msg_user_id := user;
                        msg_chat_id := chat_id slot;
                        msg_text := copy_text (text slot);
                        msg_ingress_sec := ingress_sec slot |}), q')
    end.

Definition queue_shutdown (q : g_queue) : g_queue :=
  {| buckets := buckets q;
     total_pending := total_pending q;
     ring_size := ring_size q;
     shutdown := true;
     rr_bucket := rr_bucket q |}.

Definition queue_depth (q : g_queue) : Z := total_pending q.

Definition queue_ring_count (q : g_queue) : Z :=
  Z.of_nat (length (concat (buckets q))).

(** *** Integer facts *)

Lemma wrap_int_id z : is_int z -> wrap_int z = z.
Proof.
  unfold is_int, INT_MIN, INT_MAX, wrap_int. intros H.
  rewrite Z.mod_small; lia.
Qed.

(** Bits of [a] above [k] are clear and the [w] bits from [k] down are set. *)
Definition smeared (w k a : Z) : Prop :=
  (forall i, k < i -> Z.testbit a i = false) /\
  (forall i, 0 <= i -> k - w < i <= k -> Z.testbit a i = true).

Lemma smeared_step w k a s :
  0 < s <= w -> smeared w k a -> smeared (w + s) k (Z.lor a (Z.shiftr a s)).
Proof.
  intros Hs [Hhi Hlo]. split; intros i Hi.
  - rewrite Z.lor_spec, Hhi by lia.
    destruct (Z.le_gt_cases 0 i) as [H0|H0].
    + rewrite Z.shiftr_spec by lia. now rewrite Hhi by lia.
    + now rewrite Z.testbit_neg_r by lia.
  - intros Hr. rewrite Z.lor_spec, Z.shiftr_spec by lia.
    destruct (Z.le_gt_cases i (k - w)) as [H1|H1].
    + rewrite (Hlo (i + s)) by lia. apply orb_true_r.
    + now rewrite Hlo by lia.
Qed.

Lemma smeared_ones k a : 0 <= k < 32 -> smeared 32 k a -> a = Z.ones (k + 1).
Proof.
  intros Hk [Hhi Hlo]. apply Z.bits_inj'. intros i Hi.
  destruct (Z.le_gt_cases i k) as [H|H].
  - rewrite Hlo by lia. symmetry. apply Z.ones_spec_low. lia.
  - rewrite Hhi by lia. symmetry. apply Z.ones_spec_high. lia.
Qed.

Lemma smear_pow2 n :
  0 < n < 2 ^ 31 ->
  let v := Z.lor n (Z.shiftr n 1) in
  let v := Z.lor v (Z.shiftr v 2) in
  let v := Z.lor v (Z.shiftr v 4) in
  let v := Z.lor v (Z.shiftr v 8) in
  let v := Z.lor v (Z.shiftr v 16) in
  v = 2 ^ (Z.log2 n + 1) - 1.
Proof.
  intros Hn. cbv zeta.
  assert (Hk : 0 <= Z.log2 n < 31).
  { split; [apply Z.log2_nonneg|]. apply Z.log2_lt_pow2; lia. }
  assert (H1 : smeared 1 (Z.log2 n) n).
  { split; intros i Hi.
    - apply Z.bits_above_log2; lia.
    - intros Hr. replace i with (Z.log2 n) by lia. apply Z.bit_log2. lia. }
  apply (smeared_step 1 _ _ 1) in H1; [|lia].
  apply (smeared_step _ _ _ 2) in H1; [|lia].
  apply (smeared_step _ _ _ 4) in H1; [|lia].
  apply (smeared_step _ _ _ 8) in H1; [|lia].
  apply (smeared_step _ _ _ 16) in H1; [|lia].
  apply smeared_ones in H1; [|lia].
  rewrite H1, Z.ones_equiv. lia.
Qed.

(** [round_up_pow2] on every ring size that does not overflow: the least
    power of two that is at least [max v 4]. *)
Lemma round_up_pow2_spec v :
  INT_MIN <= v <= 2 ^ 30 ->
  exists k, 2 <= k <= 30 /\ round_up_pow2 v = 2 ^ k /\
            Z.max v 4 <= 2 ^ k /\ 2 ^ (k - 1) < Z.max v 4.
Proof.
  intros Hv. unfold round_up_pow2. unfold INT_MIN in Hv.
  set (v0 := if v <? 4 then 4 else v).
  assert (Hv0 : v0 = Z.max v 4) by (unfold v0; destruct (Z.ltb_spec v 4); lia).
  assert (Hr : 4 <= v0 <= 2 ^ 30) by lia.
  rewrite (wrap_int_id (v0 - 1)) by (unfold is_int, INT_MIN, INT_MAX; lia).
  pose proof (smear_pow2 (v0 - 1)) as Hs. cbv zeta in Hs. rewrite Hs by lia.
  clear Hs.
  set (k := Z.log2 (v0 - 1)).
  assert (Hk : 2 ^ k <= v0 - 1 < 2 ^ (k + 1)) by (apply Z.log2_spec; lia).
  assert (Hk0 : 0 <= k) by apply Z.log2_nonneg.
  assert (Hk1 : 1 <= k).
  { unfold k. pose proof (Z.log2_le_mono 3 (v0 - 1)) as Hm.
    change (Z.log2 3) with 1 in Hm. lia. }
  assert (Hk2 : k < 30).
  { apply (Z.pow_lt_mono_r_iff 2); lia. }
  exists (k + 1). rewrite <- Hv0.
  replace (k + 1 - 1) with k by lia.
  assert (2 ^ (k + 1) <= 2 ^ 30) by (apply Z.pow_le_mono_r; lia).
  rewrite wrap_int_id by (unfold is_int, INT_MIN, INT_MAX; lia).
  repeat split; try lia.
Qed.

Lemma round_up_pow2_overflow v :
  2 ^ 30 < v <= INT_MAX -> round_up_pow2 v = INT_MIN.
Proof.
  intros Hv. unfold round_up_pow2.
  destruct (Z.ltb_spec v 4) as [H|H]; [unfold INT_MAX in *; lia|].
  unfold INT_MAX in Hv.
  rewrite (wrap_int_id (v - 1)) by (unfold is_int, INT_MIN, INT_MAX; lia).
  pose proof (smear_pow2 (v - 1)) as Hs. cbv zeta in Hs. rewrite Hs by lia.
  assert (Z.log2 (v - 1) = 30).
  { apply Z.log2_unique; lia. }
  rewrite H0. reflexivity.
Qed.

(** *** Rings *)

(** Well-formed ring: a power-of-two capacity, indices inside it, and
    [tail] where the [count] stored slots end. *)
Definition ring_wf (r : UserRing) : Prop :=
  (exists k, 0 <= k <= 30 /\ cap r = 2 ^ k) /\
  cap_mask r = cap r - 1 /\
  length (slots r) = Z.to_nat (cap r) /\
  0 <= head r < cap r /\
  0 <= count r <= cap r /\
  tail r = (head r + count r) mod cap r.

(** The slots a ring holds, oldest first. *)
Definition ring_contents (r : UserRing) : list Slot :=
  map (fun i => default zero_slot
                  (slots r !! Z.to_nat ((head r + Z.of_nat i) mod cap r)))
      (seq 0 (Z.to_nat (count r))).

Lemma cap_bounds r : ring_wf r -> 1 <= cap r <= 2 ^ 30.
Proof.
  intros [[k [Hk Hc]] _]. rewrite Hc. split.
  - pose proof (Z.pow_pos_nonneg 2 k). lia.
  - apply Z.pow_le_mono_r; lia.
Qed.

Lemma land_mask r x : ring_wf r -> 0 <= x -> Z.land x (cap_mask r) = x mod cap r.
Proof.
  intros [[k [Hk Hc]] [Hm _]] Hx. rewrite Hm, Hc.
  rewrite <- Z.land_ones by lia. f_equal. rewrite Z.ones_equiv. lia.
Qed.

Lemma mod_eq_small a b c :
  0 < c -> 0 <= b - a < c -> a mod c = b mod c -> a = b.
Proof.
  intros Hc Hab Hm.
  assert (H : (b - a) mod c = 0).
  { rewrite Zminus_mod, Hm, Z.sub_diag. apply Z.mod_0_l. lia. }
  rewrite Z.mod_small in H by lia. lia.
Qed.

Lemma ring_store_wf r s :
  ring_wf r -> count r < cap r -> ring_wf (ring_store r s).
Proof.
  intros Hwf Hlt. pose proof (cap_bounds r Hwf) as Hcb.
  pose proof Hwf as (Hk & Hm & Hl & Hh & Hc & Ht).
  assert (Htr : 0 <= tail r < cap r) by (rewrite Ht; apply Z.mod_pos_bound; lia).
  unfold ring_wf, ring_store; simpl.
  rewrite length_insert.
  rewrite !wrap_int_id by (unfold is_int, INT_MIN, INT_MAX; lia).
  repeat split; try assumption; try lia.
  rewrite land_mask by (assumption || lia).
  rewrite Ht, Z.add_mod_idemp_l by lia. f_equal. lia.
Qed.

Lemma ring_store_contents r s :
  ring_wf r -> count r < cap r ->
  ring_contents (ring_store r s) = ring_contents r ++ [s].
Proof.
  intros Hwf Hlt. pose proof (cap_bounds r Hwf) as Hcb.
  pose proof Hwf as (Hk & Hm & Hl & Hh & Hc & Ht).
  assert (Htr : 0 <= tail r < cap r) by (rewrite Ht; apply Z.mod_pos_bound; lia).
  unfold ring_contents, ring_store; simpl.
  rewrite wrap_int_id by (unfold is_int, INT_MIN, INT_MAX; lia).
  replace (Z.to_nat (count r + 1)) with (Z.to_nat (count r) + 1)%nat by lia.
  rewrite seq_app, map_app. simpl. f_equal.
  - apply map_ext_in. intros i Hi. apply in_seq in Hi.
    rewrite list_lookup_insert_ne; [reflexivity|].
    intros Heq. apply Z2Nat.inj in Heq; try lia.
    + rewrite Ht in Heq. symmetry in Heq. apply mod_eq_small in Heq; lia.
    + apply Z.mod_pos_bound. lia.
  - f_equal. rewrite Z2Nat.id by lia. rewrite <- Ht.
    rewrite list_lookup_insert_eq; [reflexivity|]. lia.
Qed.

Lemma ring_advance_wf r :
  ring_wf r -> 0 < count r -> ring_wf (ring_advance r).
Proof.
  intros Hwf Hlt. pose proof (cap_bounds r Hwf) as Hcb.
  pose proof Hwf as (Hk & Hm & Hl & Hh & Hc & Ht).
  unfold ring_wf, ring_advance; simpl.
  rewrite !wrap_int_id by (unfold is_int, INT_MIN, INT_MAX; lia).
  rewrite land_mask by (assumption || lia).
  repeat split; try assumption; try lia.
  - apply Z.mod_pos_bound; lia.
  - apply Z.mod_pos_bound; lia.
  - rewrite Ht, Z.add_mod_idemp_l by lia. f_equal. lia.
Qed.

Lemma ring_advance_contents r :
  ring_wf r -> 0 < count r ->
  ring_contents r = ring_front r :: ring_contents (ring_advance r).
Proof.
  intros Hwf Hlt. pose proof (cap_bounds r Hwf) as Hcb.
  pose proof Hwf as (Hk & Hm & Hl & Hh & Hc & Ht).
  unfold ring_contents, ring_advance, ring_front; simpl.
  rewrite !wrap_int_id by (unfold is_int, INT_MIN, INT_MAX; lia).
  rewrite land_mask by (assumption || lia).
  replace (Z.to_nat (count r)) with (S (Z.to_nat (count r - 1))) by lia.
  simpl. f_equal.
  - rewrite Z.add_0_r, Z.mod_small by lia. reflexivity.
  - rewrite <- seq_shift, map_map. apply map_ext. intros i.
    rewrite Z.add_mod_idemp_l by lia.
    replace (head r + 1 + Z.of_nat i) with (head r + Z.of_nat (S i)) by lia.
    reflexivity.
Qed.

Lemma ring_contents_length r :
  length (ring_contents r) = Z.to_nat (count r).
Proof. unfold ring_contents. now rewrite length_map, length_seq. Qed.

(** *** Chains and the bucket table *)

(** The message [queue_pop] builds from a slot of [user]'s ring. *)
Definition msg_of (user : Z) (s : Slot) : QueueMsg :=
  {| msg_user_id := user; msg_chat_id := chat_id s;
     msg_text := copy_text (text s); msg_ingress_sec := ingress_sec s |}.

(** The first ring of [user] in a chain. *)
Fixpoint chain_lookup (chain : list UserRing) (user : Z) : option UserRing :=
  match chain with
  | [] => None
  | r :: rest => if user_id r =? user then Some r else chain_lookup rest user
  end.

Definition ring_of (q : g_queue) (user : Z) : option UserRing :=
  chain_lookup (bucket q (hash_user user)) user.

(** Messages queued for [user], oldest first. *)
Definition pending (q : g_queue) (user : Z) : list QueueMsg :=
  match ring_of q user with
  | Some r => map (msg_of user) (ring_contents r)
  | None => []
  end.

(** [count] of [user]'s ring, 0 when the user has none. *)
Definition user_count (q : g_queue) (user : Z) : Z :=
  match ring_of q user with
  | Some r => count r
  | None => 0
  end.

Fixpoint sum_counts (chain : list UserRing) : Z :=
  match chain with
  | [] => 0
  | r :: rest => count r + sum_counts rest
  end.

Definition ring_ok (i : Z) (r : UserRing) : Prop :=
  hash_user (user_id r) = i /\ ring_wf r /\ 0 < count r.

Definition chain_ok (i : Z) (chain : list UserRing) : Prop :=
  Forall (ring_ok i) chain /\ NoDup (map user_id chain).

(** The invariant of [g_queue] between calls. *)
Definition queue_inv (q : g_queue) : Prop :=
  length (buckets q) = Z.to_nat QUEUE_BUCKETS /\
  (forall i chain, buckets q !! i = Some chain -> chain_ok (Z.of_nat i) chain) /\
  0 <= rr_bucket q < QUEUE_BUCKETS /\
  total_pending q = wrap_int (sum_counts (concat (buckets q))) /\
  0 < ring_size q <= INT_MAX /\
  (forall chain r, chain ∈ buckets q -> r ∈ chain ->
                   cap r = round_up_pow2 (ring_size q)).

Lemma strlen_le p : (strlen p <= length p)%nat.
Proof. induction p as [|c p IH]; simpl; [lia|]. destruct (is_nul c); lia. Qed.

Lemma strlen_take n p : (n <= strlen p)%nat -> strlen (take n p) = n.
Proof.
  revert n. induction p as [|c p IH]; intros n Hn; simpl in *.
  - now replace n with O by lia.
  - destruct (is_nul c) eqn:Hc.
    + now replace n with O by lia.
    + destruct n as [|n]; simpl; [reflexivity|]. rewrite Hc, IH; lia.
Qed.

Lemma copy_text_idem t : copy_text (copy_text t) = copy_text t.
Proof.
  unfold copy_text. set (n := if (TEXT_SIZE <=? strlen t)%nat then _ else _).
  assert (Hn : (n <= strlen t)%nat /\ (n < TEXT_SIZE)%nat).
  { unfold n, TEXT_SIZE. destruct (Nat.leb_spec 1024 (strlen t)); lia. }
  rewrite strlen_take by lia.
  destruct (Nat.leb_spec TEXT_SIZE n); [lia|].
  rewrite take_take. f_equal. lia.
Qed.

Lemma hash_user_range u : 0 <= hash_user u < QUEUE_BUCKETS.
Proof.
  unfold hash_user, QUEUE_BUCKET_MASK, QUEUE_BUCKETS. cbv zeta.
  change (64 - 1) with (Z.ones 6). rewrite Z.land_ones by lia.
  apply Z.mod_pos_bound. lia.
Qed.

Lemma land_bucket_mask x : 0 <= x -> Z.land x QUEUE_BUCKET_MASK = x mod 64.
Proof.
  intros Hx. unfold QUEUE_BUCKET_MASK, QUEUE_BUCKETS.
  change (64 - 1) with (Z.ones 6). now rewrite Z.land_ones by lia.
Qed.

Lemma chain_find_lookup chain u j :
  chain_find chain u = Some j ->
  exists r, chain !! j = Some r /\ chain_lookup chain u = Some r /\ user_id r = u.
Proof.
  revert j. induction chain as [|r rest IH]; intros j H; simpl in *; [discriminate|].
  destruct (Z.eqb_spec (user_id r) u) as [He|He].
  - injection H as <-. exists r. auto.
  - destruct (chain_find rest u) as [j'|]; [|discriminate].
    injection H as <-. destruct (IH j' eq_refl) as (r' & ? & ? & ?).
    exists r'. auto.
Qed.

Lemma chain_find_none chain u :
  chain_find chain u = None ->
  chain_lookup chain u = None /\ ~ In u (map user_id chain).
Proof.
  induction chain as [|r rest IH]; intros H; simpl in *; [auto|].
  destruct (Z.eqb_spec (user_id r) u) as [He|He]; [discriminate|].
  destruct (chain_find rest u); [discriminate|].
  destruct (IH eq_refl) as [? ?]. split; [assumption|]. intros [?|?]; auto.
Qed.

Lemma chain_lookup_not_in chain u :
  ~ In u (map user_id chain) -> chain_lookup chain u = None.
Proof.
  induction chain as [|r rest IH]; intros H; simpl in *; [reflexivity|].
  destruct (Z.eqb_spec (user_id r) u); [tauto|]. apply IH. tauto.
Qed.

Lemma chain_lookup_insert chain u j r' s :
  chain_find chain u = Some j -> user_id r' = u ->
  chain_lookup (<[j := r']> chain) s =
  if s =? u then Some r' else chain_lookup chain s.
Proof.
  revert j. induction chain as [|r rest IH]; intros j H Hu; simpl in *; [discriminate|].
  destruct (Z.eqb_spec (user_id r) u) as [He|He].
  - injection H as <-. simpl. rewrite Hu.
    destruct (Z.eqb_spec u s), (Z.eqb_spec s u); try congruence.
    + destruct (Z.eqb_spec (user_id r) s); congruence.
  - destruct (chain_find rest u) as [j'|]; [|discriminate].
    injection H as <-. simpl. rewrite (IH j' eq_refl Hu).
    destruct (Z.eqb_spec (user_id r) s), (Z.eqb_spec s u); congruence.
Qed.

Lemma map_user_id_insert chain j r r' :
  chain !! j = Some r -> user_id r' = user_id r ->
  map user_id (<[j := r']> chain) = map user_id chain.
Proof.
  revert j. induction chain as [|x rest IH]; intros [|j] H Hu; simpl in *;
    try discriminate.
  - injection H as ->. now rewrite Hu.
  - f_equal. eauto.
Qed.

Lemma sum_counts_insert chain j r r' :
  chain !! j = Some r ->
  sum_counts (<[j := r']> chain) = sum_counts chain - count r + count r'.
Proof.
  revert j. induction chain as [|x rest IH]; intros [|j] H; simpl in *;
    try discriminate.
  - injection H as ->. lia.
  - rewrite (IH j H). lia.
Qed.

Lemma sum_counts_app c1 c2 :
  sum_counts (c1 ++ c2) = sum_counts c1 + sum_counts c2.
Proof. induction c1 as [|r c1 IH]; simpl; lia. Qed.

Lemma sum_counts_concat_insert (bs : list (list UserRing)) i c c' :
  bs !! i = Some c ->
  sum_counts (concat (<[i := c']> bs)) =
  sum_counts (concat bs) - sum_counts c + sum_counts c'.
Proof.
  revert i. induction bs as [|b bs IH]; intros [|i] H; simpl in *;
    try discriminate.
  - injection H as ->. rewrite !sum_counts_app. lia.
  - rewrite !sum_counts_app, (IH i H). lia.
Qed.

Lemma bucket_lookup q idx :
  queue_inv q -> 0 <= idx < QUEUE_BUCKETS ->
  buckets q !! Z.to_nat idx = Some (bucket q idx).
Proof.
  intros (Hlen & _) Hidx. unfold bucket.
  destruct (buckets q !! Z.to_nat idx) eqn:E; [reflexivity|].
  apply lookup_ge_None in E. unfold QUEUE_BUCKETS in *. lia.
Qed.

Lemma bucket_ok q idx :
  queue_inv q -> 0 <= idx < QUEUE_BUCKETS -> chain_ok idx (bucket q idx).
Proof.
  intros Hinv Hidx. pose proof (bucket_lookup q idx Hinv Hidx) as Hb.
  destruct Hinv as (_ & Hok & _). apply Hok in Hb.
  now rewrite Z2Nat.id in Hb by lia.
Qed.

Lemma wrap_int_add_l a b : wrap_int (wrap_int a + b) = wrap_int (a + b).
Proof.
  unfold wrap_int. f_equal.
  replace ((a + 2 ^ 31) mod 2 ^ 32 - 2 ^ 31 + b + 2 ^ 31)
    with ((a + 2 ^ 31) mod 2 ^ 32 + b) by lia.
  rewrite Zplus_mod_idemp_l. f_equal. lia.
Qed.

Lemma bucket_set_eq q idx c :
  queue_inv q -> 0 <= idx < QUEUE_BUCKETS ->
  default [] (<[Z.to_nat idx := c]> (buckets q) !! Z.to_nat idx) = c.
Proof.
  intros (Hlen & _) Hidx. rewrite list_lookup_insert_eq; [reflexivity|].
  unfold QUEUE_BUCKETS in *. lia.
Qed.

Lemma bucket_set_bucket q idx c :
  queue_inv q -> 0 <= idx < QUEUE_BUCKETS -> bucket (set_bucket q idx c) idx = c.
Proof. intros Hinv Hidx. unfold bucket, set_bucket; simpl. now apply bucket_set_eq. Qed.

Lemma bucket_set_ne q idx idx' c :
  0 <= idx -> 0 <= idx' -> idx <> idx' ->
  default [] (<[Z.to_nat idx := c]> (buckets q) !! Z.to_nat idx') = bucket q idx'.
Proof.
  intros H1 H2 Hne. unfold bucket. rewrite list_lookup_insert_ne; [reflexivity|].
  intros H. apply Z2Nat.inj in H; lia.
Qed.

(** Replacing the chain of one bucket keeps the table invariant when the
    new chain is well formed. *)
Lemma buckets_ok_insert q idx c :
  queue_inv q -> 0 <= idx < QUEUE_BUCKETS -> chain_ok idx c ->
  forall i chain, <[Z.to_nat idx := c]> (buckets q) !! i = Some chain ->
                  chain_ok (Z.of_nat i) chain.
Proof.
  intros (Hlen & Hok & _) Hidx Hc i chain Hi.
  destruct (decide (i = Z.to_nat idx)) as [->|Hne].
  - rewrite list_lookup_insert_eq in Hi by (unfold QUEUE_BUCKETS in *; lia).
    injection Hi as <-. now rewrite Z2Nat.id by lia.
  - rewrite list_lookup_insert_ne in Hi by congruence. eauto.
Qed.

Lemma caps_insert (bs : list (list UserRing)) i c (P : UserRing -> Prop) :
  (forall chain r, chain ∈ bs -> r ∈ chain -> P r) ->
  (forall r, r ∈ c -> P r) ->
  forall chain r, chain ∈ <[i := c]> bs -> r ∈ chain -> P r.
Proof.
  intros Hbs Hc chain r Hin Hr.
  apply list_elem_of_lookup in Hin as [j Hj].
  destruct (decide (j = i)) as [->|Hne].
  - destruct (decide (i < length bs)%nat) as [Hlt|Hge].
    + rewrite list_lookup_insert_eq in Hj by assumption. injection Hj as <-. auto.
    + rewrite list_insert_ge in Hj by lia. apply (Hbs chain); [|assumption].
      apply list_elem_of_lookup. eauto.
  - rewrite list_lookup_insert_ne in Hj by congruence.
    apply (Hbs chain); [|assumption]. apply list_elem_of_lookup. eauto.
Qed.

Lemma new_ring_eq user rsz :
  new_ring user rsz =
  if round_up_pow2 rsz <? 0 then None
  else Some {| user_id := user;
               slots := replicate (Z.to_nat (round_up_pow2 rsz)) zero_slot;
               head := 0; tail := 0; count := 0;
               cap := round_up_pow2 rsz;
               cap_mask := wrap_int (round_up_pow2 rsz - 1) |}.
Proof. reflexivity. Qed.

Lemma new_ring_ok user rsz r :
  0 < rsz <= INT_MAX -> new_ring user rsz = Some r ->
  ring_wf r /\ user_id r = user /\ count r = 0 /\ ring_contents r = [] /\
  cap r = round_up_pow2 rsz /\ 0 < cap r.
Proof.
  intros Hr H. rewrite new_ring_eq in H.
  destruct (Z.ltb_spec (round_up_pow2 rsz) 0) as [Hneg|Hpos]; [discriminate|].
  injection H as <-.
  destruct (Z.le_gt_cases rsz (2 ^ 30)) as [Hle|Hgt].
  - destruct (round_up_pow2_spec rsz) as (k & Hk & Hc & _).
    { unfold INT_MIN. lia. }
    assert (H4 : 4 <= 2 ^ k).
    { change 4 with (2 ^ 2). apply Z.pow_le_mono_r; lia. }
    assert (H30 : 2 ^ k <= 2 ^ 30) by (apply Z.pow_le_mono_r; lia).
    unfold ring_wf, ring_contents; simpl. rewrite Hc.
    rewrite wrap_int_id by (unfold is_int, INT_MIN, INT_MAX; lia).
    rewrite length_replicate, Z.mod_0_l by lia.
    split; [split; [exists k; split; [lia|reflexivity]|]|].
    + split; [lia|]. split; [reflexivity|]. lia.
    + do 4 (split; [reflexivity|]). lia.
  - rewrite round_up_pow2_overflow in Hpos by lia. unfold INT_MIN in Hpos. lia.
Qed.

Lemma ring_contents_nil r : count r = 0 -> ring_contents r = [].
Proof. intros H. unfold ring_contents. now rewrite H. Qed.

(** What a push does, in terms of the queued messages. *)
Lemma queue_push_spec u c t now q :
  queue_inv q ->
  let rc := fst (queue_push u c t now q) in
  let q' := snd (queue_push u c t now q) in
  queue_inv q' /\ ring_size q' = ring_size q /\ shutdown q' = shutdown q /\
  ((rc = 0 /\ user_count q u < round_up_pow2 (ring_size q) /\
    user_count q' u = user_count q u + 1 /\
    forall s, pending q' s =
              pending q s ++
              (if s =? u then [{| msg_user_id := u; msg_chat_id := c;
                                  msg_text := copy_text t;
                                  msg_ingress_sec := now |}]
               else []))
   \/ (rc = -1 /\ q' = q /\
       (user_count q u = round_up_pow2 (ring_size q) \/
        round_up_pow2 (ring_size q) < 0))).
Proof.
  intros Hinv. pose proof (hash_user_range u) as Hh.
  pose proof (bucket_ok q _ Hinv Hh) as [Hfa Hnd].
  pose proof (bucket_lookup q _ Hinv Hh) as Hbl.
  pose proof Hinv as (Hlen & Hok & Hrr & Htp & Hrs & Hcap).
  destruct (queue_push u c t now q) as [rc q'] eqn:Hpush. simpl.
  unfold queue_push, ring_get_or_create in Hpush.
  destruct (chain_find (bucket q (hash_user u)) u) as [j|] eqn:Hfind.
  - (* the user already has a ring *)
    destruct (chain_find_lookup _ _ _ Hfind) as (r & Hj & Hlk & Hu).
    rewrite Hj in Hpush.
    assert (Hrok : ring_ok (hash_user u) r).
    { rewrite Forall_forall in Hfa. apply Hfa.
      apply list_elem_of_lookup. eauto. }
    destruct Hrok as (Hhu & Hwf & Hpos).
    assert (Hcr : cap r = round_up_pow2 (ring_size q)).
    { apply (Hcap (bucket q (hash_user u))); apply list_elem_of_lookup; eauto. }
    assert (Huc : user_count q u = count r).
    { unfold user_count, ring_of. now rewrite Hlk. }
    pose proof Hwf as (_ & _ & _ & _ & Hcnt & _).
    pose proof (cap_bounds r Hwf) as Hcb.
    destruct (Z.leb_spec (cap r) (count r)) as [Hfull|Hroom];
      injection Hpush as <- <-; simpl.
    + split; [assumption|]. do 2 (split; [reflexivity|]). right.
      repeat split. left. lia.
    + set (s := {| chat_id := c; text := copy_text t; ingress_sec := now |}).
      set (r' := ring_store r s).
      set (chain' := <[j := r']> (bucket q (hash_user u))).
      assert (Hr'ok : ring_ok (hash_user u) r').
      { split; [exact Hhu|]. split; [apply ring_store_wf; assumption|].
        unfold r', ring_store; simpl.
        rewrite wrap_int_id by (unfold is_int, INT_MIN, INT_MAX; lia). lia. }
      assert (Hc'ok : chain_ok (hash_user u) chain').
      { split.
        - apply Forall_insert; assumption.
        - unfold chain'. now rewrite (map_user_id_insert _ _ r). }
      assert (Hbk : forall b, 0 <= b < QUEUE_BUCKETS ->
                default [] (<[Z.to_nat (hash_user u) := chain']> (buckets q)
                            !! Z.to_nat b) =
                if decide (b = hash_user u) then chain' else bucket q b).
      { intros b Hb. destruct (decide (b = hash_user u)) as [->|Hne].
        - now apply bucket_set_eq.
        - apply bucket_set_ne; lia. }
      split; [|do 2 (split; [reflexivity|]); left].
      * (* invariant *)
        unfold queue_inv; simpl. rewrite length_insert.
        split; [assumption|]. split; [now apply buckets_ok_insert|].
        split; [assumption|]. split; [|split; [assumption|]].
        -- rewrite (sum_counts_concat_insert _ _ _ _ Hbl).
           unfold chain'. rewrite (sum_counts_insert _ _ _ _ Hj).
           unfold r', ring_store; simpl.
           rewrite (wrap_int_id (count r + 1))
             by (unfold is_int, INT_MIN, INT_MAX; lia).
           rewrite Htp, wrap_int_add_l. f_equal. lia.
        -- apply caps_insert; [assumption|]. intros x Hx. unfold chain' in Hx.
           apply list_elem_of_lookup in Hx as [i Hi].
           destruct (decide (i = j)) as [->|Hne].
           ++ rewrite list_lookup_insert_eq in Hi
                by (apply lookup_lt_Some in Hj; assumption).
              injection Hi as <-. exact Hcr.
           ++ rewrite list_lookup_insert_ne in Hi by congruence.
              apply (Hcap (bucket q (hash_user u))); apply list_elem_of_lookup; eauto.
      * split; [reflexivity|]. split; [lia|].
        assert (Hpend : forall s0, chain_lookup
                  (default [] (<[Z.to_nat (hash_user u) := chain']> (buckets q)
                               !! Z.to_nat (hash_user s0))) s0 =
                  if s0 =? u then Some r' else ring_of q s0).
        { intros s0. rewrite Hbk by apply hash_user_range.
          destruct (decide (hash_user s0 = hash_user u)) as [He|Hne].
          - unfold chain'. rewrite (chain_lookup_insert _ u); [|assumption|exact Hu].
            unfold ring_of. now rewrite He.
          - destruct (Z.eqb_spec s0 u); [congruence|reflexivity]. }
        split.
        -- unfold user_count at 1, ring_of, bucket; simpl. rewrite Hpend.
           rewrite Z.eqb_refl. unfold r', ring_store; simpl.
           rewrite wrap_int_id by (unfold is_int, INT_MIN, INT_MAX; lia). lia.
        -- intros s0. unfold pending at 1, ring_of at 1, bucket; simpl.
           rewrite Hpend. destruct (Z.eqb_spec s0 u) as [->|Hne].
           ++ unfold pending, ring_of. rewrite Hlk. unfold r'.
              rewrite ring_store_contents by (assumption || lia).
              rewrite map_app. simpl. unfold msg_of at 2. simpl.
              now rewrite copy_text_idem.
           ++ unfold pending. now rewrite app_nil_r.
  - (* no ring yet *)
    destruct (chain_find_none _ _ Hfind) as [Hlk Hnin].
    assert (Huc : user_count q u = 0).
    { unfold user_count, ring_of. now rewrite Hlk. }
    destruct (new_ring u (ring_size q)) as [r0|] eqn:Hnew.
    2:{ injection Hpush as <- <-. split; [assumption|]. do 2 (split; [reflexivity|]). right.
        repeat split. right. rewrite new_ring_eq in Hnew.
        destruct (Z.ltb_spec (round_up_pow2 (ring_size q)) 0); [lia|discriminate]. }
    destruct (new_ring_ok _ _ _ Hrs Hnew) as (Hwf & Hu & Hc0 & Hnil & Hcr & Hcpos).
    rewrite !bucket_set_bucket in Hpush by assumption.
    unfold set_bucket in Hpush. simpl in Hpush.
    destruct (Z.leb_spec (cap r0) (count r0)) as [Hfull|Hroom]; [lia|].
    injection Hpush as <- <-. simpl.
    set (s := {| chat_id := c; text := copy_text t; ingress_sec := now |}).
    set (r' := ring_store r0 s).
    set (chain' := r' :: bucket q (hash_user u)).
    rewrite list_insert_insert_eq.
    assert (Hr'ok : ring_ok (hash_user u) r').
    { split; [unfold r', ring_store; simpl; now rewrite Hu|].
      split; [apply ring_store_wf; assumption|].
      unfold r', ring_store; simpl. rewrite Hc0. reflexivity. }
    assert (Hc'ok : chain_ok (hash_user u) chain').
    { split.
      - constructor; assumption.
      - unfold chain'; simpl. constructor; [|assumption].
        unfold r', ring_store; simpl. rewrite Hu, list_elem_of_In. exact Hnin. }
    assert (Hbk : forall b, 0 <= b < QUEUE_BUCKETS ->
              default [] (<[Z.to_nat (hash_user u) := chain']> (buckets q)
                          !! Z.to_nat b) =
              if decide (b = hash_user u) then chain' else bucket q b).
    { intros b Hb. destruct (decide (b = hash_user u)) as [->|Hne].
      - now apply bucket_set_eq.
      - apply bucket_set_ne; lia. }
    split; [|do 2 (split; [reflexivity|]); left].
    + unfold queue_inv; simpl. rewrite length_insert.
      split; [assumption|]. split; [now apply buckets_ok_insert|].
      split; [assumption|]. split; [|split; [assumption|]].
      * rewrite (sum_counts_concat_insert _ _ _ _ Hbl).
        unfold chain'; simpl. rewrite Hc0.
        rewrite (wrap_int_id (0 + 1)) by (unfold is_int, INT_MIN, INT_MAX; lia).
        rewrite Htp, wrap_int_add_l. f_equal. lia.
      * apply caps_insert; [assumption|]. intros x Hx. unfold chain' in Hx.
        apply elem_of_cons in Hx as [->|Hx].
        -- exact Hcr.
        -- apply (Hcap (bucket q (hash_user u))); [|assumption].
           apply list_elem_of_lookup; eauto.
    + split; [reflexivity|]. split; [lia|].
      assert (Hpend : forall s0, chain_lookup
                (default [] (<[Z.to_nat (hash_user u) := chain']> (buckets q)
                             !! Z.to_nat (hash_user s0))) s0 =
                if s0 =? u then Some r' else ring_of q s0).
      { intros s0. rewrite Hbk by apply hash_user_range.
        destruct (decide (hash_user s0 = hash_user u)) as [He|Hne].
        - assert (Hur' : user_id r' = u) by exact Hu.
          unfold chain'. cbn [chain_lookup].
          rewrite Hur', (Z.eqb_sym u s0). unfold ring_of. now rewrite He.
        - destruct (Z.eqb_spec s0 u); [congruence|reflexivity]. }
      split.
      * unfold user_count at 1, ring_of, bucket; simpl. rewrite Hpend.
        rewrite Z.eqb_refl. unfold r', ring_store; simpl.
        rewrite Hc0. rewrite Huc. reflexivity.
      * intros s0. unfold pending at 1, ring_of at 1, bucket; simpl.
        rewrite Hpend. destruct (Z.eqb_spec s0 u) as [->|Hne].
        -- unfold pending, ring_of. rewrite Hlk. unfold r'.
           rewrite ring_store_contents by (assumption || lia).
           rewrite Hnil. simpl. unfold msg_of. simpl.
           now rewrite copy_text_idem.
        -- unfold pending. now rewrite app_nil_r.
Qed.

(** On a well-formed chain the walk of [ring_pop_any] stops at the head. *)
Lemma chain_pop_ok i chain :
  chain_ok i chain ->
  match chain with
  | [] => chain_pop chain = None
  | r :: rest =>
      chain_pop chain =
      Some (ring_front r, user_id r,
            if count (ring_advance r) =? 0 then rest else ring_advance r :: rest)
  end.
Proof.
  intros [Hfa _]. destruct chain as [|r rest]; [reflexivity|].
  apply Forall_cons in Hfa as [(_ & _ & Hpos) _]. cbn [chain_pop].
  destruct (Z.ltb_spec 0 (count r)); [reflexivity|lia].
Qed.

Lemma chain_pop_none_nil i chain :
  chain_ok i chain -> chain_pop chain = None -> chain = [].
Proof.
  intros Hok H. pose proof (chain_pop_ok i chain Hok) as Hp.
  destruct chain; [reflexivity|]. congruence.
Qed.

(** The state [ring_pop_any] leaves after serving bucket [idx]. *)
Definition after_pop (q : g_queue) (idx : Z) (chain' : list UserRing) : g_queue :=
  {| buckets := <[Z.to_nat idx := chain']> (buckets q);
     total_pending := wrap_int (total_pending q - 1);
     ring_size := ring_size q;
     shutdown := shutdown q;
     rr_bucket := Z.land (wrap_int (idx + 1)) QUEUE_BUCKET_MASK |}.

(** The bucket the loop looks at in step [j]. *)
Definition scan_idx (start j : Z) : Z :=
  Z.land (wrap_int (start + j)) QUEUE_BUCKET_MASK.

Lemma ring_pop_loop_eq n start i q :
  ring_pop_loop (S n) start i q =
  match chain_pop (bucket q (scan_idx start i)) with
  | Some (out, u, chain') => Some (out, u, after_pop q (scan_idx start i) chain')
  | None => ring_pop_loop n start (i + 1) q
  end.
Proof. reflexivity. Qed.

(** A successful scan: the bucket served is the first one, from step [i]
    on, whose chain yields a slot. *)
Lemma ring_pop_loop_some n start i q out u q' :
  ring_pop_loop n start i q = Some (out, u, q') ->
  exists j chain',
    i <= j < i + Z.of_nat n /\
    chain_pop (bucket q (scan_idx start j)) = Some (out, u, chain') /\
    q' = after_pop q (scan_idx start j) chain' /\
    forall j', i <= j' < j -> chain_pop (bucket q (scan_idx start j')) = None.
Proof.
  revert i. induction n as [|n IH]; intros i H; [discriminate|].
  rewrite ring_pop_loop_eq in H.
  destruct (chain_pop (bucket q (scan_idx start i))) as [[[o u0] c']|] eqn:Hpop.
  - injection H as <- <- <-. exists i, c'. split; [lia|].
    split; [assumption|]. split; [reflexivity|]. intros j' Hj'. lia.
  - destruct (IH _ H) as (j & c' & Hj & Hp & Hq & Hnone). exists j, c'.
    split; [lia|]. split; [assumption|]. split; [assumption|]. intros j' Hj'.
    destruct (Z.eq_dec j' i) as [->|Hne]; [assumption|]. apply Hnone. lia.
Qed.

Lemma ring_pop_loop_none n start i q :
  ring_pop_loop n start i q = None ->
  forall j, i <= j < i + Z.of_nat n ->
    chain_pop (bucket q (scan_idx start j)) = None.
Proof.
  revert i. induction n as [|n IH]; intros i H j Hj; [lia|].
  rewrite ring_pop_loop_eq in H.
  destruct (chain_pop (bucket q (scan_idx start i))) as [[[o u0] c']|] eqn:Hpop;
    [discriminate|].
  destruct (Z.eq_dec j i) as [->|Hne]; [assumption|]. apply (IH _ H). lia.
Qed.

Lemma scan_idx_mod start j :
  0 <= start < QUEUE_BUCKETS -> 0 <= j < QUEUE_BUCKETS ->
  scan_idx start j = (start + j) mod 64.
Proof.
  unfold QUEUE_BUCKETS, scan_idx. intros Hs Hj.
  rewrite wrap_int_id by (unfold is_int, INT_MIN, INT_MAX; lia).
  apply land_bucket_mask. lia.
Qed.

Lemma scan_idx_range start j :
  0 <= start < QUEUE_BUCKETS -> 0 <= j < QUEUE_BUCKETS ->
  0 <= scan_idx start j < QUEUE_BUCKETS.
Proof.
  intros Hs Hj. rewrite scan_idx_mod by assumption. unfold QUEUE_BUCKETS.
  apply Z.mod_pos_bound. lia.
Qed.

(** Every bucket is looked at by a full scan. *)
Lemma scan_covers start b :
  0 <= start < QUEUE_BUCKETS -> 0 <= b < QUEUE_BUCKETS ->
  0 <= (b - start) mod 64 < QUEUE_BUCKETS /\
  scan_idx start ((b - start) mod 64) = b.
Proof.
  intros Hs Hb.
  assert (Hj : 0 <= (b - start) mod 64 < QUEUE_BUCKETS)
    by (unfold QUEUE_BUCKETS; apply Z.mod_pos_bound; lia).
  split; [assumption|]. rewrite scan_idx_mod by assumption.
  rewrite Zplus_mod_idemp_r. replace (start + (b - start)) with b by lia.
  apply Z.mod_small. unfold QUEUE_BUCKETS in Hb. lia.
Qed.

Lemma ring_pop_any_none q :
  queue_inv q -> ring_pop_any q = None ->
  forall b, 0 <= b < QUEUE_BUCKETS -> bucket q b = [].
Proof.
  intros Hinv H b Hb. pose proof Hinv as (_ & _ & Hrr & _).
  destruct (scan_covers (rr_bucket q) b Hrr Hb) as [Hj Hjb].
  unfold ring_pop_any in H.
  pose proof (ring_pop_loop_none _ _ _ _ H ((b - rr_bucket q) mod 64)) as Hn.
  rewrite Hjb in Hn.
  apply (chain_pop_none_nil b); [now apply bucket_ok|].
  apply Hn. unfold QUEUE_BUCKETS in *. lia.
Qed.

Lemma sum_counts_nil (bs : list (list UserRing)) :
  (forall c, c ∈ bs -> c = []) -> sum_counts (concat bs) = 0.
Proof.
  induction bs as [|b bs IH]; intros H; [reflexivity|].
  cbn [concat]. rewrite sum_counts_app, IH.
  - rewrite (H b) by apply list_elem_of_here. reflexivity.
  - intros c Hc. apply H. now apply list_elem_of_further.
Qed.

Lemma ring_pop_any_none_total q :
  queue_inv q -> ring_pop_any q = None -> total_pending q = 0.
Proof.
  intros Hinv H. pose proof Hinv as (Hlen & _ & _ & Htp & _).
  rewrite Htp, sum_counts_nil; [reflexivity|].
  intros c Hc. apply list_elem_of_lookup in Hc as [i Hi].
  pose proof (lookup_lt_Some _ _ _ Hi) as Hlt.
  pose proof (ring_pop_any_none q Hinv H (Z.of_nat i)) as Hb.
  unfold bucket in Hb. rewrite Nat2Z.id, Hi in Hb. apply Hb.
  unfold QUEUE_BUCKETS in *. lia.
Qed.

Lemma wrap_int_sub_l a b : wrap_int (wrap_int a - b) = wrap_int (a - b).
Proof.
  replace (wrap_int a - b) with (wrap_int a + - b) by lia.
  rewrite wrap_int_add_l. reflexivity.
Qed.

Lemma bucket_after_pop q idx c b :
  queue_inv q -> 0 <= idx < QUEUE_BUCKETS -> 0 <= b < QUEUE_BUCKETS ->
  bucket (after_pop q idx c) b = if decide (b = idx) then c else bucket q b.
Proof.
  intros Hinv Hidx Hb. unfold after_pop, bucket at 1. cbn [buckets].
  destruct (decide (b = idx)) as [->|Hne].
  - now apply bucket_set_eq.
  - apply bucket_set_ne; lia.
Qed.

(** What a successful [ring_pop_any] does: it serves the chain head of the
    first non-empty bucket from the cursor on, moves the cursor behind that
    bucket and leaves every other bucket alone. *)
Lemma ring_pop_any_spec q out u q' :
  queue_inv q -> ring_pop_any q = Some (out, u, q') ->
  queue_inv q' /\
  ring_size q' = ring_size q /\ shutdown q' = shutdown q /\
  rr_bucket q' = (hash_user u + 1) mod 64 /\
  (exists j, 0 <= j < QUEUE_BUCKETS /\
             hash_user u = scan_idx (rr_bucket q) j /\
             forall j', 0 <= j' < j -> bucket q (scan_idx (rr_bucket q) j') = []) /\
  (forall b, 0 <= b < QUEUE_BUCKETS -> b <> hash_user u ->
             bucket q' b = bucket q b) /\
  pending q u = msg_of u out :: pending q' u /\
  user_count q' u = user_count q u - 1 /\
  (forall s, s <> u -> pending q' s = pending q s) /\
  (forall s, s <> u -> user_count q' s = user_count q s).
Proof.
  intros Hinv H. pose proof Hinv as (Hlen & Hok & Hrr & Htp & Hrs & Hcap).
  unfold ring_pop_any in H.
  apply ring_pop_loop_some in H as (j & c' & Hj & Hpop & -> & Hnone).
  change (Z.of_nat (Z.to_nat QUEUE_BUCKETS)) with QUEUE_BUCKETS in Hj.
  assert (Hj' : 0 <= j < QUEUE_BUCKETS) by lia.
  set (idx := scan_idx (rr_bucket q) j) in *.
  pose proof (scan_idx_range _ _ Hrr Hj') as Hidx. fold idx in Hidx.
  pose proof (bucket_ok q idx Hinv Hidx) as Hcok.
  pose proof (bucket_lookup q idx Hinv Hidx) as Hbl.
  pose proof (chain_pop_ok idx _ Hcok) as Hhead.
  destruct (bucket q idx) as [|r rest] eqn:Hbk; [congruence|].
  assert (Ho : out = ring_front r) by congruence.
  assert (Hu : u = user_id r) by congruence.
  assert (Ec' : c' = if count (ring_advance r) =? 0 then rest
                     else ring_advance r :: rest) by congruence.
  subst out u. clear Hpop Hhead.
  destruct Hcok as [Hfa Hnd].
  apply Forall_cons in Hfa as [(Hhu & Hwf & Hpos) Hfa].
  cbn [map] in Hnd. apply NoDup_cons in Hnd as [Hnin Hnd].
  pose proof (ring_advance_wf r Hwf Hpos) as Hwf'.
  pose proof (ring_advance_contents r Hwf Hpos) as Hcont.
  pose proof Hwf as (_ & _ & _ & _ & Hcnt & _).
  pose proof (cap_bounds r Hwf) as Hcb.
  assert (Hcnt' : count (ring_advance r) = count r - 1).
  { unfold ring_advance; cbn [count].
    apply wrap_int_id. unfold is_int, INT_MIN, INT_MAX. lia. }
  assert (Hc'ok : chain_ok idx c').
  { rewrite Ec'. destruct (Z.eqb_spec (count (ring_advance r)) 0) as [Hz|Hnz].
    - split; assumption.
    - split.
      + constructor; [|assumption]. split; [exact Hhu|]. split; [assumption|lia].
      + cbn [map]. apply NoDup_cons. split; assumption. }
  assert (Hsum : sum_counts c' = sum_counts (r :: rest) - 1).
  { rewrite Ec'. cbn [sum_counts].
    destruct (Z.eqb_spec (count (ring_advance r)) 0) as [Hz|Hnz];
      cbn [sum_counts]; lia. }
  assert (Hlk_u : chain_lookup c' (user_id r) =
                  if count (ring_advance r) =? 0 then None
                  else Some (ring_advance r)).
  { rewrite Ec'. destruct (Z.eqb_spec (count (ring_advance r)) 0) as [Hz|Hnz].
    - apply chain_lookup_not_in. now rewrite <- list_elem_of_In.
    - cbn [chain_lookup]. change (user_id (ring_advance r)) with (user_id r).
      now rewrite Z.eqb_refl. }
  assert (Hlk_s : forall s, s <> user_id r ->
                    chain_lookup c' s = chain_lookup (r :: rest) s).
  { intros s Hs. rewrite Ec'. cbn [chain_lookup].
    destruct (Z.eqb_spec (user_id r) s) as [He|_]; [congruence|].
    destruct (Z.eqb_spec (count (ring_advance r)) 0) as [Hz|Hnz]; [reflexivity|].
    cbn [chain_lookup]. change (user_id (ring_advance r)) with (user_id r).
    destruct (Z.eqb_spec (user_id r) s); [congruence|reflexivity]. }
  assert (Hring : forall s, ring_of (after_pop q idx c') s =
                    if decide (s = user_id r)
                    then (if count (ring_advance r) =? 0 then None
                          else Some (ring_advance r))
                    else ring_of q s).
  { intros s. unfold ring_of.
    rewrite bucket_after_pop by (assumption || apply hash_user_range).
    destruct (decide (s = user_id r)) as [->|Hne].
    - rewrite Hhu. destruct (decide (idx = idx)); [|congruence]. exact Hlk_u.
    - destruct (decide (hash_user s = idx)) as [He|Hne'].
      + rewrite Hlk_s by assumption. now rewrite He, Hbk.
      + reflexivity. }
  assert (Hring_u : ring_of q (user_id r) = Some r).
  { unfold ring_of. rewrite Hhu, Hbk. cbn [chain_lookup]. now rewrite Z.eqb_refl. }
  split.
  { (* invariant *)
    split; [cbn [after_pop buckets]; now rewrite length_insert|].
    split; [exact (buckets_ok_insert q idx c' Hinv Hidx Hc'ok)|].
    split.
    { cbn [after_pop rr_bucket]. unfold QUEUE_BUCKETS in *.
      rewrite wrap_int_id by (unfold is_int, INT_MIN, INT_MAX; lia).
      rewrite land_bucket_mask by lia. apply Z.mod_pos_bound. lia. }
    split.
    { cbn [after_pop total_pending buckets].
      rewrite (sum_counts_concat_insert _ _ _ _ Hbl), Hsum, Htp, wrap_int_sub_l.
      f_equal. lia. }
    split; [exact Hrs|].
    cbn [after_pop buckets ring_size]. apply caps_insert; [assumption|].
    intros x Hx. assert (Hx' : x = ring_advance r \/ x ∈ rest).
    { rewrite Ec' in Hx. destruct (count (ring_advance r) =? 0); [now right|].
      apply elem_of_cons in Hx. tauto. }
    assert (Hin : r :: rest ∈ buckets q) by (apply list_elem_of_lookup; eauto).
    destruct Hx' as [->|Hx'].
    - change (cap (ring_advance r)) with (cap r).
      apply (Hcap (r :: rest)); [assumption|apply list_elem_of_here].
    - apply (Hcap (r :: rest)); [assumption|now apply list_elem_of_further]. }
  split; [reflexivity|]. split; [reflexivity|].
  split.
  { cbn [after_pop rr_bucket]. rewrite Hhu. unfold QUEUE_BUCKETS in *.
    rewrite wrap_int_id by (unfold is_int, INT_MIN, INT_MAX; lia).
    apply land_bucket_mask. lia. }
  split.
  { exists j. split; [assumption|]. split; [exact Hhu|]. intros j' Hj2.
    assert (Hr2 : 0 <= scan_idx (rr_bucket q) j' < QUEUE_BUCKETS)
      by (apply scan_idx_range; lia).
    apply (chain_pop_none_nil (scan_idx (rr_bucket q) j'));
      [now apply bucket_ok|]. apply Hnone. lia. }
  split.
  { intros b Hb Hne. rewrite bucket_after_pop by assumption.
    rewrite Hhu in Hne. destruct (decide (b = idx)); [congruence|reflexivity]. }
  split.
  { unfold pending. rewrite Hring, Hring_u.
    destruct (decide (user_id r = user_id r)); [|congruence].
    rewrite Hcont. cbn [map]. f_equal.
    destruct (Z.eqb_spec (count (ring_advance r)) 0) as [Hz|Hnz]; [|reflexivity].
    now rewrite (ring_contents_nil _ Hz). }
  split.
  { unfold user_count. rewrite Hring, Hring_u.
    destruct (decide (user_id r = user_id r)); [|congruence].
    destruct (Z.eqb_spec (count (ring_advance r)) 0) as [Hz|Hnz]; lia. }
  split.
  - intros s Hs. unfold pending. rewrite Hring.
    destruct (decide (s = user_id r)); [congruence|reflexivity].
  - intros s Hs. unfold user_count. rewrite Hring.
    destruct (decide (s = user_id r)); [congruence|reflexivity].
Qed.

(** *** Runs of the queue *)

(** The calls a client can make, with the clock reading a push observes. *)
Inductive op :=
| Push (user chat : Z) (txt : list ascii) (now : float)
| Pop
| Shutdown.

(** What a call returned: for a push its return code and the message as it
    is stored on success, for a pop the outcome. *)
Inductive event :=
| EvPush (rc : Z) (m : QueueMsg)
| EvPop (r : pop_result)
| EvShutdown.

Definition step (o : op) (q : g_queue) : event * g_queue :=
  match o with
  | Push u c t now =>
      let '(rc, q') := queue_push u c t now q in
      (EvPush rc {| msg_user_id := u; msg_chat_id := c;
                    msg_text := copy_text t; msg_ingress_sec := now |}, q')
  | Pop => let '(r, q') := queue_pop q in (EvPop r, q')
  | Shutdown => (EvShutdown, queue_shutdown q)
  end.

Fixpoint run (ops : list op) (q : g_queue) : list event * g_queue :=
  match ops with
  | [] => ([], q)
  | o :: ops' =>
      let '(e, q1) := step o q in
      let '(es, q2) := run ops' q1 in
      (e :: es, q2)
  end.

(** Messages of [s] that a push accepted, in call order. *)
Fixpoint pushed_by (s : Z) (es : list event) : list QueueMsg :=
  match es with
  | [] => []
  | EvPush rc m :: es' =>
      if (rc =? 0) && (msg_user_id m =? s) then m :: pushed_by s es'
      else pushed_by s es'
  | _ :: es' => pushed_by s es'
  end.

(** Messages of [s] that a pop returned, in call order. *)
Fixpoint popped_by (s : Z) (es : list event) : list QueueMsg :=
  match es with
  | [] => []
  | EvPop (Ret _ (Some m)) :: es' =>
      if msg_user_id m =? s then m :: popped_by s es' else popped_by s es'
  | _ :: es' => popped_by s es'
  end.

(** States the queue can be in after [queue_init rsz]. *)
Definition reachable_from (rsz : Z) (q : g_queue) : Prop :=
  exists ops, q = snd (run ops (queue_init rsz)).

Lemma queue_init_inv rsz : is_int rsz -> queue_inv (queue_init rsz).
Proof.
  intros Hr. unfold queue_inv, queue_init; cbn [buckets total_pending ring_size rr_bucket].
  split; [apply length_replicate|].
  split.
  { intros i chain Hi. apply lookup_replicate in Hi as [-> _].
    split; constructor. }
  split; [unfold QUEUE_BUCKETS; lia|].
  split; [reflexivity|].
  split.
  { unfold is_int, INT_MIN, INT_MAX in *. destruct (Z.ltb_spec 0 rsz); lia. }
  intros chain r Hc Hin. apply elem_of_replicate in Hc as [-> _].
  now apply not_elem_of_nil in Hin.
Qed.

Lemma queue_shutdown_inv q : queue_inv q -> queue_inv (queue_shutdown q).
Proof. intros H. exact H. Qed.

Lemma pending_shutdown q s : pending (queue_shutdown q) s = pending q s.
Proof. reflexivity. Qed.

(** What a pop does, in terms of the queued messages. *)
Lemma queue_pop_spec q :
  queue_inv q ->
  let r := fst (queue_pop q) in
  let q' := snd (queue_pop q) in
  queue_inv q' /\ ring_size q' = ring_size q /\ shutdown q' = shutdown q /\
  match r with
  | Waits => q' = q /\ total_pending q = 0 /\ shutdown q = false
  | Ret rc None => q' = q /\ rc = -1 /\ total_pending q = 0 /\ shutdown q = true
  | Ret rc (Some m) =>
      rc = 0 /\ total_pending q <> 0 /\
      ring_pop_any q <> None /\
      rr_bucket q' = (hash_user (msg_user_id m) + 1) mod 64 /\
      (forall b, 0 <= b < QUEUE_BUCKETS -> b <> hash_user (msg_user_id m) ->
                 bucket q' b = bucket q b) /\
      pending q (msg_user_id m) = m :: pending q' (msg_user_id m) /\
      user_count q' (msg_user_id m) = user_count q (msg_user_id m) - 1 /\
      (forall s, s <> msg_user_id m -> pending q' s = pending q s) /\
      (forall s, s <> msg_user_id m -> user_count q' s = user_count q s)
  end.
Proof.
  intros Hinv. destruct (queue_pop q) as [r q'] eqn:Hpop. cbn [fst snd].
  unfold queue_pop in Hpop.
  destruct (Z.eqb_spec (total_pending q) 0) as [Htp|Htp];
    destruct (shutdown q) eqn:Hsd; cbn [andb negb] in Hpop.
  - injection Hpop as <- <-. auto 10.
  - injection Hpop as <- <-. auto 10.
  - destruct (ring_pop_any q) as [[[slot u] q1]|] eqn:Hany.
    + injection Hpop as <- <-.
      destruct (ring_pop_any_spec _ _ _ _ Hinv Hany)
        as (Hi & Hrs & Hs & Hrr & _ & Hb & Hp & Hc & Hps & Hcs).
      cbn [msg_user_id].
      split; [exact Hi|]. split; [exact Hrs|]. split; [congruence|].
      split; [reflexivity|]. split; [exact Htp|]. split; [congruence|].
      split; [exact Hrr|]. split; [exact Hb|]. split; [exact Hp|].
      split; [exact Hc|]. split; [exact Hps|exact Hcs].
    + apply ring_pop_any_none_total in Hany; [contradiction|assumption].
  - destruct (ring_pop_any q) as [[[slot u] q1]|] eqn:Hany.
    + injection Hpop as <- <-.
      destruct (ring_pop_any_spec _ _ _ _ Hinv Hany)
        as (Hi & Hrs & Hs & Hrr & _ & Hb & Hp & Hc & Hps & Hcs).
      cbn [msg_user_id].
      split; [exact Hi|]. split; [exact Hrs|]. split; [congruence|].
      split; [reflexivity|]. split; [exact Htp|]. split; [congruence|].
      split; [exact Hrr|]. split; [exact Hb|]. split; [exact Hp|].
      split; [exact Hc|]. split; [exact Hps|exact Hcs].
    + apply ring_pop_any_none_total in Hany; [contradiction|assumption].
Qed.

Lemma step_inv o q : queue_inv q -> queue_inv (snd (step o q)).
Proof.
  intros Hinv. destruct o as [u c t now| |]; cbn [step].
  - pose proof (queue_push_spec u c t now q Hinv) as [H _].
    destruct (queue_push u c t now q). exact H.
  - pose proof (queue_pop_spec q Hinv) as [H _].
    destruct (queue_pop q). exact H.
  - exact Hinv.
Qed.

Lemma step_ring_size o q : queue_inv q -> ring_size (snd (step o q)) = ring_size q.
Proof.
  intros Hinv. destruct o as [u c t now| |]; cbn [step].
  - pose proof (queue_push_spec u c t now q Hinv) as (_ & H & _).
    destruct (queue_push u c t now q). exact H.
  - pose proof (queue_pop_spec q Hinv) as (_ & H & _).
    destruct (queue_pop q). exact H.
  - reflexivity.
Qed.

Lemma run_cons o ops q :
  run (o :: ops) q =
  (fst (step o q) :: fst (run ops (snd (step o q))),
   snd (run ops (snd (step o q)))).
Proof.
  cbn [run]. destruct (step o q) as [e q1]. cbn [fst snd].
  destruct (run ops q1). reflexivity.
Qed.

Lemma run_inv ops q :
  queue_inv q ->
  queue_inv (snd (run ops q)) /\ ring_size (snd (run ops q)) = ring_size q.
Proof.
  revert q. induction ops as [|o ops IH]; intros q Hinv; [auto|].
  rewrite run_cons. cbn [snd].
  destruct (IH _ (step_inv o q Hinv)) as [H1 H2]. split; [assumption|].
  rewrite H2. now apply step_ring_size.
Qed.

Lemma reachable_inv rsz q :
  is_int rsz -> reachable_from rsz q ->
  queue_inv q /\ ring_size q = ring_size (queue_init rsz).
Proof.
  intros Hr [ops ->]. apply run_inv. now apply queue_init_inv.
Qed.

(** One call keeps the books: what was queued for [s] before, followed by
    what the call pushed for [s], is what the call popped for [s] followed
    by what is queued afterwards. *)
Lemma step_fifo o q s :
  queue_inv q ->
  popped_by s [fst (step o q)] ++ pending (snd (step o q)) s =
  pending q s ++ pushed_by s [fst (step o q)].
Proof.
  intros Hinv. destruct o as [u c t now| |]; cbn [step].
  - pose proof (queue_push_spec u c t now q Hinv) as (_ & _ & _ & H).
    destruct (queue_push u c t now q) as [rc q']. cbn [fst snd] in *.
    cbn [popped_by pushed_by msg_user_id app].
    destruct H as [(-> & _ & _ & Hp)|(-> & -> & _)].
    + rewrite Hp. cbn [Z.eqb andb]. rewrite (Z.eqb_sym u s).
      destruct (s =? u); reflexivity.
    + cbn [Z.eqb andb]. now rewrite app_nil_r.
  - pose proof (queue_pop_spec q Hinv) as (_ & _ & _ & H).
    destruct (queue_pop q) as [r q']. cbn [fst snd] in *.
    destruct r as [|rc [m|]]; cbn [popped_by pushed_by app].
    + destruct H as [-> _]. now rewrite app_nil_r.
    + destruct H as (_ & _ & _ & _ & _ & Hp & _ & Hps & _).
      rewrite app_nil_r. destruct (Z.eqb_spec (msg_user_id m) s) as [<-|Hne].
      * now rewrite Hp.
      * cbn [app]. apply Hps. congruence.
    + destruct H as [-> _]. now rewrite app_nil_r.
  - cbn [fst snd popped_by pushed_by app]. now rewrite app_nil_r.
Qed.

Lemma popped_by_cons s e es :
  popped_by s (e :: es) = popped_by s [e] ++ popped_by s es.
Proof.
  destruct e as [rc m|[|rc [m|]]|]; cbn [popped_by app]; try reflexivity.
  destruct (msg_user_id m =? s); reflexivity.
Qed.

Lemma pushed_by_cons s e es :
  pushed_by s (e :: es) = pushed_by s [e] ++ pushed_by s es.
Proof.
  destruct e as [rc m|r|]; cbn [pushed_by app]; try reflexivity.
  destruct ((rc =? 0) && (msg_user_id m =? s)); reflexivity.
Qed.

Lemma run_fifo ops q s :
  queue_inv q ->
  popped_by s (fst (run ops q)) ++ pending (snd (run ops q)) s =
  pending q s ++ pushed_by s (fst (run ops q)).
Proof.
  revert q. induction ops as [|o ops IH]; intros q Hinv.
  - cbn [run fst snd popped_by pushed_by app]. now rewrite app_nil_r.
  - rewrite run_cons. cbn [fst snd].
    rewrite popped_by_cons, pushed_by_cons, <- app_assoc.
    rewrite (IH _ (step_inv o q Hinv)), !app_assoc. f_equal.
    now apply step_fifo.
Qed.

Lemma pending_init rsz s : pending (queue_init rsz) s = [].
Proof.
  unfold pending, ring_of, bucket, queue_init; cbn [buckets].
  destruct (replicate _ _ !! _) as [c|] eqn:E; [|reflexivity].
  apply lookup_replicate in E as [-> _]. reflexivity.
Qed.

(** C1. Per-sender FIFO: for every ring size, every sequence of pushes, pops
    and shutdowns run from [queue_init], and every sender, the messages the
    pops returned for the sender are a prefix of the messages the pushes
    accepted for that sender (with the text as truncated by the push), in
    push order. *)
Theorem per_sender_fifo (rsz : Z) (ops : list op) (s : Z) :
  is_int rsz ->
  popped_by s (fst (run ops (queue_init rsz)))
    `prefix_of` pushed_by s (fst (run ops (queue_init rsz))).
Proof.
  intros Hr. pose proof (run_fifo ops _ s (queue_init_inv rsz Hr)) as H.
  rewrite pending_init in H. cbn [app] in H.
  exists (pending (snd (run ops (queue_init rsz))) s). now rewrite H.
Qed.

Lemma per_sender_fifo_witness :
  is_int 4 /\
  popped_by 42 (fst (run [Push 42 100 (lit "a") 0%float;
                          Push 7 7 (lit "x") 0%float;
                          Push 42 100 (lit "b") 0%float; Pop; Pop]
                         (queue_init 4)))
    `prefix_of`
  pushed_by 42 (fst (run [Push 42 100 (lit "a") 0%float;
                          Push 7 7 (lit "x") 0%float;
                          Push 42 100 (lit "b") 0%float; Pop; Pop]
                         (queue_init 4))).
Proof.
  assert (H : is_int 4) by (unfold is_int, INT_MIN, INT_MAX; lia).
  split; [exact H|]. apply (per_sender_fifo 4 _ 42 H).
Defined.

(** The capacity as the specification words it: the ring size rounded up to
    the next power of two, at least 4 and at most 256. *)
Definition spec_cap (rsz : Z) : Z :=
  Z.min 256 (Z.max 4 (2 ^ Z.log2_up rsz)).

Lemma round_up_pow2_small rsz :
  1 <= rsz <= 256 -> round_up_pow2 rsz = spec_cap rsz.
Proof.
  intros Hr.
  assert (Hall : forallb (fun n => round_up_pow2 (Z.of_nat n) =? spec_cap (Z.of_nat n))
                         (seq 1 256) = true) by (vm_compute; reflexivity).
  rewrite forallb_forall in Hall.
  specialize (Hall (Z.to_nat rsz)). rewrite Z2Nat.id in Hall by lia.
  apply Z.eqb_eq, Hall, in_seq. lia.
Qed.

Lemma spec_cap_range rsz :
  1 <= rsz <= 256 ->
  4 <= spec_cap rsz <= 256 /\ rsz <= spec_cap rsz /\
  exists k, 2 <= k <= 8 /\ spec_cap rsz = 2 ^ k.
Proof.
  intros Hr. rewrite <- round_up_pow2_small by assumption.
  destruct (round_up_pow2_spec rsz) as (k & Hk & Hc & Hge & Hlt).
  { unfold INT_MIN. lia. }
  rewrite Hc.
  assert (Hk8 : k <= 8).
  { destruct (Z.le_gt_cases k 8) as [H|H]; [assumption|].
    assert (2 ^ 8 <= 2 ^ (k - 1)) by (apply Z.pow_le_mono_r; lia). lia. }
  assert (2 ^ 2 <= 2 ^ k) by (apply Z.pow_le_mono_r; lia).
  assert (2 ^ k <= 2 ^ 8) by (apply Z.pow_le_mono_r; lia).
  split; [lia|]. split; [lia|]. exists k. split; [lia|reflexivity].
Qed.

(** [n] pushes for one user. *)
Fixpoint fill (n : nat) (u c : Z) (t : list ascii) (now : float) (q : g_queue)
  : g_queue :=
  match n with
  | O => q
  | S n' => snd (queue_push u c t now (fill n' u c t now q))
  end.

Lemma user_count_le q u :
  queue_inv q -> 0 <= round_up_pow2 (ring_size q) ->
  0 <= user_count q u <= round_up_pow2 (ring_size q).
Proof.
  intros Hinv Hc. unfold user_count, ring_of.
  pose proof (hash_user_range u) as Hh.
  pose proof (bucket_ok q _ Hinv Hh) as [Hfa _].
  pose proof (bucket_lookup q _ Hinv Hh) as Hbl.
  destruct (chain_lookup (bucket q (hash_user u)) u) as [r|] eqn:Hlk; [|lia].
  assert (Hin : r ∈ bucket q (hash_user u)).
  { clear -Hlk. induction (bucket q (hash_user u)) as [|x l IH]; [discriminate|].
    cbn [chain_lookup] in Hlk. destruct (user_id x =? u).
    - injection Hlk as ->. apply list_elem_of_here.
    - apply list_elem_of_further. auto. }
  rewrite Forall_forall in Hfa. destruct (Hfa _ Hin) as (_ & Hwf & _).
  destruct Hinv as (_ & _ & _ & _ & _ & Hcap).
  rewrite <- (Hcap (bucket q (hash_user u)) r);
    [|apply list_elem_of_lookup; eauto|assumption].
  destruct Hwf as (_ & _ & _ & _ & H & _). lia.
Qed.

Lemma user_count_init rsz u : user_count (queue_init rsz) u = 0.
Proof.
  unfold user_count, ring_of, bucket, queue_init; cbn [buckets].
  destruct (replicate _ _ !! _) as [c|] eqn:E; [|reflexivity].
  apply lookup_replicate in E as [-> _]. reflexivity.
Qed.

Lemma fill_spec n u c t now q :
  queue_inv q -> user_count q u = 0 ->
  Z.of_nat n <= round_up_pow2 (ring_size q) ->
  queue_inv (fill n u c t now q) /\
  ring_size (fill n u c t now q) = ring_size q /\
  user_count (fill n u c t now q) u = Z.of_nat n.
Proof.
  intros Hinv H0. induction n as [|n IH]; intros Hn; [auto|].
  destruct IH as (Hi & Hrs & Hc); [lia|]. cbn [fill].
  pose proof (queue_push_spec u c t now _ Hi) as (Hi' & Hrs' & _ & H).
  split; [exact Hi'|]. split; [congruence|].
  destruct H as [(_ & _ & Hc' & _)|(_ & _ & [Hfull|Hneg])].
  - rewrite Hc', Hc. lia.
  - rewrite Hrs, Hc in Hfull. lia.
  - rewrite Hrs in Hneg. lia.
Qed.

Lemma ring_size_init rsz : 1 <= rsz -> ring_size (queue_init rsz) = rsz.
Proof.
  intros H. unfold queue_init; cbn [ring_size].
  destruct (Z.ltb_spec 0 rsz); [reflexivity|lia].
Qed.

Lemma is_int_small rsz : 1 <= rsz <= 256 -> is_int rsz.
Proof. unfold is_int, INT_MIN, INT_MAX. lia. Qed.

(** C2 (corrected). For every ring size from 1 to 256 given to [queue_init],
    every ring made afterwards has the capacity [spec_cap]: the ring size
    rounded up to a power of two, at least 4 (and so at most 256).  A push
    succeeds while the sender's count is below the capacity; at the capacity
    it returns -1 and leaves the whole queue unchanged; filling a fresh queue
    with exactly [cap] messages of one sender succeeds and one more fails. *)
Theorem ring_capacity_and_full (rsz : Z) (q : g_queue) (u c : Z)
    (t : list ascii) (now : float) :
  1 <= rsz <= 256 -> reachable_from rsz q ->
  (forall chain r, chain ∈ buckets q -> r ∈ chain -> cap r = spec_cap rsz) /\
  (4 <= spec_cap rsz <= 256 /\ exists k, spec_cap rsz = 2 ^ k) /\
  0 <= user_count q u <= spec_cap rsz /\
  (user_count q u < spec_cap rsz ->
     fst (queue_push u c t now q) = 0 /\
     user_count (snd (queue_push u c t now q)) u = user_count q u + 1) /\
  (user_count q u = spec_cap rsz -> queue_push u c t now q = (-1, q)) /\
  (forall n : nat, Z.of_nat n <= spec_cap rsz ->
     fst (queue_push u c t now (fill n u c t now (queue_init rsz))) =
     if Z.of_nat n <? spec_cap rsz then 0 else -1).
Proof.
  intros Hr Hreach. pose proof (is_int_small rsz Hr) as Hint.
  destruct (reachable_inv rsz q Hint Hreach) as [Hinv Hrs].
  rewrite ring_size_init in Hrs by lia.
  pose proof (round_up_pow2_small rsz Hr) as Hcap.
  destruct (spec_cap_range rsz Hr) as (Hrange & _ & k & _ & Hk).
  pose proof (queue_push_spec u c t now q Hinv) as (_ & _ & _ & Hpush).
  rewrite Hrs, Hcap in Hpush.
  split.
  { intros chain r Hc Hin. destruct Hinv as (_ & _ & _ & _ & _ & H).
    rewrite (H chain r Hc Hin), Hrs. exact Hcap. }
  split; [split; [exact Hrange|eauto]|].
  split.
  { rewrite <- Hcap, <- Hrs. apply user_count_le; [assumption|].
    rewrite Hrs, Hcap. lia. }
  split.
  { intros Hlt. destruct Hpush as [(H0 & _ & H1 & _)|(_ & _ & [H|H])];
      [auto|lia|lia]. }
  split.
  { intros Hfull. destruct Hpush as [(_ & H & _)|(H0 & H1 & _)]; [lia|].
    destruct (queue_push u c t now q) as [rc q']. cbn [fst snd] in *. congruence. }
  intros n Hn.
  assert (Hi0 : queue_inv (queue_init rsz)) by now apply queue_init_inv.
  destruct (fill_spec n u c t now (queue_init rsz) Hi0 (user_count_init rsz u))
    as (Hif & Hrf & Hcf).
  { rewrite ring_size_init, Hcap by lia. exact Hn. }
  rewrite ring_size_init in Hrf by lia.
  pose proof (queue_push_spec u c t now _ Hif) as (_ & _ & _ & Hp).
  rewrite Hrf, Hcap, Hcf in Hp.
  destruct (Z.ltb_spec (Z.of_nat n) (spec_cap rsz)) as [Hlt|Hge].
  - destruct Hp as [(H0 & _)|(_ & _ & [H|H])]; [assumption|lia|lia].
  - destruct Hp as [(_ & H & _)|(H0 & _)]; [lia|assumption].
Qed.

Lemma ring_capacity_and_full_witness :
  1 <= 30 <= 256 /\ reachable_from 30 (queue_init 30) /\
  fst (queue_push 42 100 (lit "hi") 0%float (queue_init 30)) = 0.
Proof.
  assert (Hr : 1 <= 30 <= 256) by lia.
  assert (Hq : reachable_from 30 (queue_init 30)) by (exists []; reflexivity).
  split; [exact Hr|]. split; [exact Hq|].
  destruct (ring_capacity_and_full 30 (queue_init 30) 42 100 (lit "hi") 0%float Hr Hq)
    as (_ & _ & _ & H & _).
  apply H. vm_compute. reflexivity.
Defined.

(** C2, as stated, fails: [queue_init] applies no upper limit, so a ring
    size of 1000 gives rings of capacity 1024, not 256. *)
Lemma ring_capacity_counterexample :
  ~ (forall rsz q chain r,
       is_int rsz -> reachable_from rsz q ->
       chain ∈ buckets q -> r ∈ chain -> cap r = spec_cap rsz).
Proof.
  intros H.
  set (q := snd (queue_push 1 1 [] 0%float (queue_init 1000))).
  assert (Hq : reachable_from 1000 q) by (exists [Push 1 1 [] 0%float]; reflexivity).
  assert (Hint : is_int 1000) by (unfold is_int, INT_MIN, INT_MAX; lia).
  destruct (buckets q !! Z.to_nat (hash_user 1)) as [[|r rest]|] eqn:E;
    [vm_compute in E; discriminate| |vm_compute in E; discriminate].
  assert (Hc : (r :: rest) ∈ buckets q) by (apply list_elem_of_lookup; eauto).
  pose proof (H 1000 q _ r Hint Hq Hc (list_elem_of_here _ _)) as Hcap.
  assert (Hr : cap r = 1024).
  { vm_compute in E. injection E as <- _. reflexivity. }
  rewrite Hr in Hcap. vm_compute in Hcap. discriminate.
Qed.

(** A ring size that is not positive is replaced by 30, so the rings have
    capacity 32 where the rounding of the specification gives 4. *)
Lemma ring_capacity_default :
  forall rsz, rsz <= 0 ->
    new_ring 1 (ring_size (queue_init rsz)) <> None /\
    (forall r, new_ring 1 (ring_size (queue_init rsz)) = Some r -> cap r = 32) /\
    spec_cap rsz = 4.
Proof.
  intros rsz Hr. unfold queue_init; cbn [ring_size].
  destruct (Z.ltb_spec 0 rsz); [lia|].
  split; [vm_compute; discriminate|]. split.
  - intros r. vm_compute. intros [= <-]. reflexivity.
  - unfold spec_cap. rewrite (Z.log2_up_eqn0 rsz) by lia. reflexivity.
Qed.

Lemma queue_pop_some q rc m :
  fst (queue_pop q) = Ret rc (Some m) ->
  exists slot q', ring_pop_any q = Some (slot, msg_user_id m, q') /\
                  snd (queue_pop q) = q'.
Proof.
  unfold queue_pop.
  destruct ((total_pending q =? 0) && negb (shutdown q)); [discriminate|].
  destruct (shutdown q && (total_pending q =? 0)); [discriminate|].
  destruct (ring_pop_any q) as [[[slot u] q']|]; [|discriminate].
  cbn [fst snd]. intros [= _ <-]. cbn [msg_user_id]. eauto.
Qed.

Lemma user_count_empty_bucket q v :
  bucket q (hash_user v) = [] -> user_count q v = 0.
Proof. intros H. unfold user_count, ring_of. now rewrite H. Qed.

(** C3. Round-robin fairness: in a reachable state, when a pop returns a
    message of [u] while another user [v], whose ring is in a different
    bucket, has messages pending, the pop that follows does not return a
    message of [u]. *)
Theorem round_robin_fairness (rsz : Z) (q : g_queue) (m : QueueMsg) (v : Z) :
  is_int rsz -> reachable_from rsz q ->
  fst (queue_pop q) = Ret 0 (Some m) ->
  v <> msg_user_id m ->
  hash_user v <> hash_user (msg_user_id m) ->
  0 < user_count q v ->
  forall rc m',
    fst (queue_pop (snd (queue_pop q))) = Ret rc (Some m') ->
    msg_user_id m' <> msg_user_id m.
Proof.
  intros Hint Hreach Hpop Hvu Hhash Hv rc m' Hpop2 Heq.
  destruct (reachable_inv rsz q Hint Hreach) as [Hinv _].
  pose proof (queue_pop_spec q Hinv) as (Hinv1 & _ & _ & Hspec).
  rewrite Hpop in Hspec.
  destruct Hspec as (_ & _ & _ & Hrr & _ & _ & _ & _ & Hcs).
  set (q1 := snd (queue_pop q)) in *.
  apply queue_pop_some in Hpop2 as (slot & q2 & Hany & _).
  destruct (ring_pop_any_spec _ _ _ _ Hinv1 Hany)
    as (_ & _ & _ & _ & (j & Hj & Hidx & Hempty) & _).
  rewrite Heq in Hidx.
  pose proof (hash_user_range (msg_user_id m)) as Hhu.
  pose proof (hash_user_range v) as Hhv.
  assert (Hrr1 : 0 <= rr_bucket q1 < QUEUE_BUCKETS)
    by (destruct Hinv1 as (_ & _ & H & _); exact H).
  destruct (scan_covers (rr_bucket q1) (hash_user v) Hrr1 Hhv) as [Hjv Hsv].
  rewrite scan_idx_mod in Hidx by assumption.
  rewrite scan_idx_mod in Hsv by assumption.
  assert (Hlt : (hash_user v - rr_bucket q1) mod 64 < j).
  { unfold QUEUE_BUCKETS in *. rewrite Hrr in *.
    destruct (Z.eq_dec ((hash_user v - (hash_user (msg_user_id m) + 1) mod 64) mod 64) j)
      as [He|Hne].
    - rewrite He in Hsv. congruence.
    - assert (j = 63); [|lia].
      clear -Hidx Hj Hhu. Z.div_mod_to_equations. lia. }
  specialize (Hempty _ (conj (proj1 Hjv) Hlt)).
  rewrite scan_idx_mod, Hsv in Hempty by assumption.
  apply user_count_empty_bucket in Hempty.
  rewrite (Hcs v Hvu) in Hempty. lia.
Qed.

Lemma round_robin_fairness_witness :
  let q := snd (run [Push 1 10 (lit "a") 0%float; Push 2 20 (lit "b") 0%float;
                     Push 2 20 (lit "c") 0%float] (queue_init 8)) in
  let m := {| msg_user_id := 2; msg_chat_id := 20; msg_text := lit "b";
              msg_ingress_sec := 0%float |} in
  is_int 8 /\ reachable_from 8 q /\ fst (queue_pop q) = Ret 0 (Some m) /\
  1 <> msg_user_id m /\ hash_user 1 <> hash_user (msg_user_id m) /\
  0 < user_count q 1 /\
  forall rc m', fst (queue_pop (snd (queue_pop q))) = Ret rc (Some m') ->
                msg_user_id m' <> msg_user_id m.
Proof.
  intros q m.
  assert (H1 : is_int 8) by (unfold is_int, INT_MIN, INT_MAX; lia).
  assert (H2 : reachable_from 8 q) by (eexists; reflexivity).
  assert (H3 : fst (queue_pop q) = Ret 0 (Some m)) by (vm_compute; reflexivity).
  assert (H4 : 1 <> msg_user_id m) by (cbn; lia).
  assert (H5 : hash_user 1 <> hash_user (msg_user_id m)) by (vm_compute; discriminate).
  assert (H6 : 0 < user_count q 1) by (vm_compute; reflexivity).
  repeat (split; [assumption|]).
  exact (round_robin_fairness 8 q m 1 H1 H2 H3 H4 H5 H6).
Defined.

Lemma queue_push_shutdown u c t now q :
  queue_push u c t now (queue_shutdown q) =
  (fst (queue_push u c t now q), queue_shutdown (snd (queue_push u c t now q))).
Proof.
  destruct q as [bs tp rs sd rr].
  unfold queue_push, ring_get_or_create, queue_shutdown, bucket, set_bucket.
  cbn [buckets total_pending ring_size shutdown rr_bucket].
  destruct (chain_find (default [] (bs !! Z.to_nat (hash_user u))) u) as [j|].
  - cbn [buckets]. destruct (default [] (bs !! Z.to_nat (hash_user u)) !! j) as [r|];
      [|reflexivity].
    destruct (cap r <=? count r); reflexivity.
  - destruct (new_ring u rs) as [r0|]; [|reflexivity].
    cbn [buckets total_pending ring_size shutdown rr_bucket].
    destruct (default [] (<[Z.to_nat (hash_user u) :=
                            r0 :: default [] (bs !! Z.to_nat (hash_user u))]> bs
                          !! Z.to_nat (hash_user u)) !! 0%nat) as [r|];
      [|reflexivity].
    destruct (cap r <=? count r); reflexivity.
Qed.

Lemma queue_push_total u c t now q :
  fst (queue_push u c t now q) = 0 ->
  total_pending (snd (queue_push u c t now q)) = wrap_int (total_pending q + 1).
Proof.
  unfold queue_push.
  destruct (ring_get_or_create u q) as [[[q1 idx] j]|] eqn:Hg;
    [|simpl; discriminate].
  assert (Htp : total_pending q1 = total_pending q).
  { unfold ring_get_or_create in Hg.
    destruct (chain_find _ _); [congruence|].
    destruct (new_ring _ _); [|discriminate].
    injection Hg as <- _ _. reflexivity. }
  destruct (bucket q1 idx !! j) as [r|]; [|simpl; discriminate].
  destruct (cap r <=? count r); [simpl; discriminate|].
  intros _. cbn [snd total_pending set_bucket]. now rewrite Htp.
Qed.

Lemma run_snoc ops o q :
  snd (run (ops ++ [o]) q) = snd (step o (snd (run ops q))).
Proof.
  revert q. induction ops as [|o' ops IH]; intros q.
  - cbn [app]. rewrite run_cons. reflexivity.
  - cbn [app]. rewrite !run_cons. cbn [snd]. apply IH.
Qed.

Lemma reachable_push rsz q u c t now :
  reachable_from rsz q -> reachable_from rsz (snd (queue_push u c t now q)).
Proof.
  intros [ops ->]. exists (ops ++ [Push u c t now]).
  rewrite run_snoc. cbn [step]. now destruct (queue_push _ _ _ _ _).
Qed.

(** C4. Shutdown semantics.  In a reachable state with the shutdown flag
    set, [queue_pop] returns -1 exactly when [total_pending] is 0 and
    otherwise returns the oldest message of some sender.  A push is still
    accepted: for a ring size from 1 to 256, while the sender's ring has
    room, [queue_push] returns 0, the message is queued behind the
    sender's earlier ones, the flag stays set and the state reached is one
    the pop results above apply to again; in every state a push gives the
    same return code and the same queue with or without the flag.  A
    second [queue_shutdown] changes nothing. *)
Theorem shutdown_semantics (rsz : Z) (q : g_queue) :
  is_int rsz -> reachable_from rsz q -> shutdown q = true ->
  (fst (queue_pop q) = Ret (-1) None <-> total_pending q = 0) /\
  (total_pending q <> 0 ->
     exists m, fst (queue_pop q) = Ret 0 (Some m) /\
               pending q (msg_user_id m) =
               m :: pending (snd (queue_pop q)) (msg_user_id m)) /\
  (1 <= rsz <= 256 ->
   forall u c t now,
     user_count q u < spec_cap rsz ->
     let q' := snd (queue_push u c t now q) in
     fst (queue_push u c t now q) = 0 /\
     pending q' u =
       pending q u ++ [{| msg_user_id := u; msg_chat_id := c;
                          msg_text := copy_text t; msg_ingress_sec := now |}] /\
     user_count q' u = user_count q u + 1 /\
     total_pending q' = wrap_int (total_pending q + 1) /\
     shutdown q' = true /\ reachable_from rsz q') /\
  (forall q0 u c t now,
     queue_push u c t now (queue_shutdown q0) =
     (fst (queue_push u c t now q0),
      queue_shutdown (snd (queue_push u c t now q0)))) /\
  queue_shutdown q = q /\
  (forall q0, queue_shutdown (queue_shutdown q0) = queue_shutdown q0).
Proof.
  intros Hint Hreach Hsd.
  destruct (reachable_inv rsz q Hint Hreach) as [Hinv Hrs].
  assert (Hpush : 1 <= rsz <= 256 ->
   forall u c t now,
     user_count q u < spec_cap rsz ->
     let q' := snd (queue_push u c t now q) in
     fst (queue_push u c t now q) = 0 /\
     pending q' u =
       pending q u ++ [{| msg_user_id := u; msg_chat_id := c;
                          msg_text := copy_text t; msg_ingress_sec := now |}] /\
     user_count q' u = user_count q u + 1 /\
     total_pending q' = wrap_int (total_pending q + 1) /\
     shutdown q' = true /\ reachable_from rsz q').
  { intros Hr u c t now Hroom. cbn zeta.
    rewrite ring_size_init in Hrs by lia.
    pose proof (round_up_pow2_small rsz Hr) as Hcap.
    destruct (spec_cap_range rsz Hr) as (Hrange & _).
    pose proof (queue_push_spec u c t now q Hinv) as (_ & _ & Hsd' & Hp).
    pose proof (queue_push_total u c t now q) as Htot.
    pose proof (reachable_push rsz q u c t now Hreach) as Hreach'.
    rewrite Hrs, Hcap in Hp.
    destruct Hp as [(Hrc & _ & Hc & Hpend)|(_ & _ & [H|H])]; [|lia|lia].
    split; [exact Hrc|]. split.
    { rewrite Hpend, Z.eqb_refl. reflexivity. }
    split; [exact Hc|]. split; [exact (Htot Hrc)|].
    split; [congruence|exact Hreach']. }
  pose proof (queue_pop_spec q Hinv) as (_ & _ & _ & Hspec).
  destruct (fst (queue_pop q)) as [|rc [m|]] eqn:Hpop.
  - destruct Hspec as (_ & _ & H). congruence.
  - destruct Hspec as (-> & Htp & _ & _ & _ & Hp & _).
    split; [split; [discriminate|contradiction]|].
    split; [intros _; eauto|]. split; [exact Hpush|].
    split; [intros; apply queue_push_shutdown|].
    split; [|reflexivity]. destruct q; cbn in Hsd; subst; reflexivity.
  - destruct Hspec as (_ & -> & Htp & _).
    split; [split; [intros _; exact Htp|reflexivity]|].
    split; [contradiction|]. split; [exact Hpush|].
    split; [intros; apply queue_push_shutdown|].
    split; [|reflexivity]. destruct q; cbn in Hsd; subst; reflexivity.
Qed.

Lemma shutdown_semantics_witness :
  let q := snd (run [Push 1 10 (lit "a") 0%float; Shutdown] (queue_init 8)) in
  is_int 8 /\ reachable_from 8 q /\ shutdown q = true /\
  (fst (queue_pop q) = Ret (-1) None <-> total_pending q = 0) /\
  fst (queue_push 2 20 (lit "b") 0%float q) = 0 /\
  pending (snd (queue_push 2 20 (lit "b") 0%float q)) 2 =
    [{| msg_user_id := 2; msg_chat_id := 20; msg_text := lit "b";
        msg_ingress_sec := 0%float |}].
Proof.
  intros q.
  assert (H1 : is_int 8) by (unfold is_int, INT_MIN, INT_MAX; lia).
  assert (H2 : reachable_from 8 q) by (eexists; reflexivity).
  assert (H3 : shutdown q = true) by reflexivity.
  repeat (split; [assumption|]).
  destruct (shutdown_semantics 8 q H1 H2 H3) as (Hpop & _ & Hpush & _).
  split; [exact Hpop|].
  destruct (Hpush ltac:(lia) 2 20 (lit "b") 0%float ltac:(vm_compute; reflexivity))
    as (Hrc & Hpend & _).
  split; [exact Hrc|exact Hpend].
Defined.

(** *** Further properties of the queue *)

(** X1. [round_up_pow2] gives, for every [int] up to 2^30, a power of two
    between 4 and 2^30 that is at least the argument and less than twice
    the larger of the argument and 4: the least such power of two. *)
Theorem round_up_pow2_least v :
  INT_MIN <= v <= 2 ^ 30 ->
  (exists k, 2 <= k <= 30 /\ round_up_pow2 v = 2 ^ k) /\
  Z.max v 4 <= round_up_pow2 v < 2 * Z.max v 4.
Proof.
  intros Hv. destruct (round_up_pow2_spec v Hv) as (k & Hk & Heq & Hle & Hlt).
  split; [exists k; split; assumption|]. rewrite Heq. split; [exact Hle|].
  replace (2 ^ k) with (2 * 2 ^ (k - 1)); [lia|].
  rewrite <- Z.pow_succ_r by lia. f_equal. lia.
Qed.

Lemma round_up_pow2_least_witness :
  (exists k, 2 <= k <= 30 /\ round_up_pow2 1000 = 2 ^ k) /\
  Z.max 1000 4 <= round_up_pow2 1000 < 2 * Z.max 1000 4.
Proof.
  apply (round_up_pow2_least 1000). unfold INT_MIN. lia.
Defined.

Lemma sum_counts_length chain :
  Forall (fun r => 0 < count r) chain ->
  Z.of_nat (length chain) <= sum_counts chain.
Proof.
  induction 1 as [|r chain Hr _ IH]; [reflexivity|].
  cbn [length sum_counts]. lia.
Qed.

Lemma rings_nonempty q :
  queue_inv q -> Forall (fun r => 0 < count r) (concat (buckets q)).
Proof.
  intros (_ & Hok & _). apply Forall_concat. apply Forall_lookup_2.
  intros i chain Hi. destruct (Hok i chain Hi) as [Hfa _].
  eapply Forall_impl; [exact Hfa|]. intros r (_ & _ & Hr). exact Hr.
Qed.

(** X2. In every state reached from [queue_init], while the messages
    waiting are within [int], [queue_depth] is the sum of the counts of
    the rings; every ring that exists holds a message, so there are at most
    as many rings as messages and none when the queue is empty. *)
Theorem depth_counts_waiting rsz q :
  is_int rsz -> reachable_from rsz q ->
  sum_counts (concat (buckets q)) <= INT_MAX ->
  queue_depth q = sum_counts (concat (buckets q)) /\
  0 <= queue_ring_count q <= queue_depth q /\
  (queue_depth q = 0 <-> queue_ring_count q = 0).
Proof.
  intros Hr Hreach Hmax. pose proof (reachable_inv rsz q Hr Hreach) as [Hinv _].
  pose proof (rings_nonempty q Hinv) as Hne.
  pose proof (sum_counts_length _ Hne) as Hlen.
  destruct Hinv as (_ & _ & _ & Htp & _).
  unfold queue_depth, queue_ring_count. rewrite Htp.
  rewrite wrap_int_id by (unfold is_int, INT_MIN, INT_MAX in *; lia).
  split; [reflexivity|]. split; [lia|]. split; [lia|].
  intros H0. destruct (concat (buckets q)) as [|r l]; [reflexivity|].
  discriminate H0.
Qed.

Lemma depth_counts_waiting_witness :
  let q := snd (run [Push 1 1 (lit "a") 0%float; Push 2 2 (lit "b") 0%float;
                     Push 1 1 (lit "c") 0%float; Pop] (queue_init 4)) in
  queue_depth q = sum_counts (concat (buckets q)) /\
  0 <= queue_ring_count q <= queue_depth q /\
  (queue_depth q = 0 <-> queue_ring_count q = 0).
Proof.
  apply (depth_counts_waiting 4).
  - unfold is_int, INT_MIN, INT_MAX. lia.
  - eexists. reflexivity.
  - vm_compute. discriminate.
Defined.

Lemma copy_text_take t : copy_text t = take 1023 (c_str t).
Proof.
  unfold copy_text, c_str, TEXT_SIZE. rewrite take_take.
  destruct (Nat.leb_spec 1024 (strlen t)); f_equal; lia.
Qed.

Lemma no_pending_no_rings q :
  queue_inv q -> (forall s, pending q s = []) -> concat (buckets q) = [].
Proof.
  intros Hinv Hp. pose proof Hinv as (Hlen & Hok & _).
  assert (Hall : Forall (fun chain => chain = []) (buckets q)).
  { apply Forall_lookup_2. intros i chain Hi.
    destruct chain as [|r rest]; [reflexivity|]. exfalso.
    destruct (Hok i _ Hi) as [Hfa _].
    apply Forall_cons in Hfa. destruct Hfa as [(Hh & Hwf & Hc) _].
    specialize (Hp (user_id r)). unfold pending, ring_of, bucket in Hp.
    rewrite Hh, Nat2Z.id, Hi in Hp. simpl in Hp. rewrite Z.eqb_refl in Hp.
    apply (f_equal (@length _)) in Hp.
    rewrite length_map, ring_contents_length in Hp. simpl in Hp. lia. }
  clear - Hall. induction Hall as [|c l Hc _ IH]; [reflexivity|].
  subst c. exact IH.
Qed.

(** X3. A message whose push on a fresh queue is accepted (the ring could
    be made) comes back from the next pop with its sender, chat and time,
    and with its text cut to the 1023 bytes a slot holds; after that the
    queue is empty again and the sender's ring is gone. *)
Theorem push_pop_round_trip rsz u c t now :
  is_int rsz ->
  fst (queue_push u c t now (queue_init rsz)) = 0 ->
  exists q2,
    queue_pop (snd (queue_push u c t now (queue_init rsz))) =
      (Ret 0 (Some {| msg_user_id := u; msg_chat_id := c;
                      msg_text := take 1023 (c_str t);
                      msg_ingress_sec := now |}), q2) /\
    queue_depth q2 = 0 /\ queue_ring_count q2 = 0.
Proof.
  intros Hr Hacc. pose proof (queue_init_inv rsz Hr) as Hinv0.
  pose proof (queue_push_spec u c t now _ Hinv0) as Hpush. cbv zeta in Hpush.
  pose proof (queue_push_total u c t now (queue_init rsz)) as Htot.
  destruct (queue_push u c t now (queue_init rsz)) as [rc q1].
  cbn [fst snd] in *.
  destruct Hpush as (Hinv1 & _ & Hsd & [(Hrc & _ & _ & Hpend)|(Hrc & _)]);
    [|lia].
  specialize (Htot Hrc). simpl in Htot.
  assert (Htp1 : total_pending q1 = 1) by (rewrite Htot; reflexivity).
  pose proof (queue_pop_spec q1 Hinv1) as Hpop. cbv zeta in Hpop.
  destruct (queue_pop q1) as [r q2]. cbn [fst snd] in Hpop.
  destruct Hpop as (Hinv2 & _ & _ & Hr').
  destruct r as [|rc' [m|]].
  - destruct Hr' as (_ & H0 & _). lia.
  - destruct Hr' as (Hrc' & _ & _ & _ & _ & Hp & _ & Hps & _).
    assert (Hall1 : forall s, pending q1 s =
              if s =? u then [{| msg_user_id := u; msg_chat_id := c;
                                 msg_text := copy_text t;
                                 msg_ingress_sec := now |}] else []).
    { intros s. rewrite Hpend, pending_init. reflexivity. }
    rewrite Hall1 in Hp.
    destruct (Z.eqb_spec (msg_user_id m) u) as [Hu|Hu]; [|discriminate Hp].
    injection Hp as Hm Hrest. exists q2. rewrite Hrc', <- Hm, copy_text_take.
    split; [reflexivity|].
    assert (Hnone : forall s, pending q2 s = []).
    { intros s. destruct (Z.eq_dec s (msg_user_id m)) as [->|Hne].
      - now rewrite <- Hrest.
      - rewrite (Hps s Hne), Hall1.
        destruct (Z.eqb_spec s u); [congruence|reflexivity]. }
    pose proof (no_pending_no_rings q2 Hinv2 Hnone) as Hnil.
    destruct Hinv2 as (_ & _ & _ & Htp2 & _).
    unfold queue_depth, queue_ring_count. rewrite Htp2, Hnil. split; reflexivity.
  - destruct Hr' as (_ & _ & H0 & _). lia.
Qed.

Lemma push_pop_round_trip_witness :
  exists q2,
    queue_pop (snd (queue_push 42 7 (lit "hello") 0%float (queue_init 30))) =
      (Ret 0 (Some {| msg_user_id := 42; msg_chat_id := 7;
                      msg_text := take 1023 (c_str (lit "hello"));
                      msg_ingress_sec := 0%float |}), q2) /\
    queue_depth q2 = 0 /\ queue_ring_count q2 = 0.
Proof.
  apply (push_pop_round_trip 30 42 7 (lit "hello") 0%float).
  - unfold is_int, INT_MIN, INT_MAX. lia.
  - vm_compute. reflexivity.
Defined.

End Queue.

(** ** Access list (src/whitelist.c) *)

Module Whitelist.
Import CStr.

Definition WHITELIST_MAX : Z := 256.

Definition INT64_MIN : Z := - 2 ^ 63.
Definition INT64_MAX : Z := 2 ^ 63 - 1.

(** Values of C type [int64_t]. *)
Definition is_int64 (z : Z) : Prop := INT64_MIN <= z <= INT64_MAX.

(** The [Whitelist] struct: [ids] is the live prefix [ids[0 .. count)] of
    the array, so [count] is its length; the path and the lock are left
    out. *)
Record Whitelist := mkWl { ids : list Z }.

Definition count (wl : Whitelist) : Z := Z.of_nat (length (ids wl)).

(** The file at [wl->path]: [None] when it does not exist. *)
Definition file := option (list ascii).

Definition cmp_i64 (va vb : Z) : Z :=
  (if vb <? va then 1 else 0) - (if va <? vb then 1 else 0).

(** [qsort] with [cmp_i64]: the ascending rearrangement of the array. *)
Definition qsort_i64 (l : list Z) : list Z := merge_sort Z.le l.

(** The loop of [bsearch_idx], [fuel] iterations at most: the flag written
    to [*found] and the index returned. *)
Fixpoint bsearch_loop (fuel : nat) (l : list Z) (user_id lo hi : Z) : bool * Z :=
  match fuel with
  | O => (false, lo)
  | S f =>
      if lo <? hi then
        let mid := lo + (hi - lo) / 2 in
        let v := default 0 (l !! Z.to_nat mid) in
        if v <? user_id then bsearch_loop f l user_id (mid + 1) hi
        else if user_id <? v then bsearch_loop f l user_id lo mid
        else (true, mid)
      else (false, lo)
  end.

(** The interval halves in every iteration, so [length l + 1] iterations
    are never used up. *)
Definition bsearch_idx (wl : Whitelist) (user_id : Z) : bool * Z :=
  bsearch_loop (S (length (ids wl))) (ids wl) user_id 0 (count wl).

(** [fgets(line, size, fp)]: the line read, up to and including the
    newline or [size - 1] bytes, and the rest of the stream; [None] at end
    of file. *)
Fixpoint fgets_loop (n : nat) (stream : list ascii) : list ascii * list ascii :=
  match n, stream with
  | O, _ => ([], stream)
  | _, [] => ([], [])
  | S n', c :: rest =>
      if Ascii.eqb c "010"%char then ([c], rest)
      else let '(line, rest') := fgets_loop n' rest in (c :: line, rest')
  end.

Definition fgets (size : nat) (stream : list ascii) : option (list ascii * list ascii) :=
  match stream with
  | [] => None
  | _ => Some (fgets_loop (size - 1) stream)
  end.

Definition digit_val (c : ascii) : Z := byte_val c - 48.

(** The digits a [%ld] conversion consumes, accumulated in base 10. *)
Fixpoint scan_digits (p : list ascii) (acc : Z) : Z :=
  match p with
  | [] => acc
  | c :: p' => if isdigit c then scan_digits p' (acc * 10 + digit_val c) else acc
  end.

Fixpoint skip_space (p : list ascii) : list ascii :=
  match p with
  | [] => []
  | c :: p' => if isspace c then skip_space p' else p
  end.

(** [sscanf(line, "%ld", &id)]: [Some id] when it returns 1.  White space
    is skipped, a sign is optional, one digit at least is needed, and a
    value out of range is clamped as [strtol] does. *)
Definition sscanf_i64 (line : list ascii) : option Z :=
  let p := skip_space line in
  let '(neg, p) :=
    match p with
    | c :: p' => if Ascii.eqb c "-"%char then (true, p')
                 else if Ascii.eqb c "+"%char then (false, p')
                 else (false, p)
    | [] => (false, p)
    end in
  if isdigit (peek p) then
    let v := scan_digits p 0 in
    let v := if neg then - v else v in
    Some (Z.max INT64_MIN (Z.min INT64_MAX v))
  else None.

(** The [while (fgets ...)] loop of [read_ids]; every call of [fgets] takes
    a byte at least, so [fuel] = length of the file + 1 is never used up. *)
Fixpoint read_loop (fuel : nat) (stream : list ascii) (acc : list Z) : list Z :=
  match fuel with
  | O => acc
  | S f =>
      match fgets 64 stream with
      | None => acc
      | Some (line, rest) =>
          if WHITELIST_MAX <=? Z.of_nat (length acc) then acc
          else
            match sscanf_i64 line with
            | Some id => read_loop f rest (acc ++ [id])
            | None => read_loop f rest acc
            end
      end
  end.

(** [read_ids]: the list read and the file afterwards (a missing file is
    created empty). *)
Definition read_ids (f : file) : Whitelist * file :=
  match f with
  | None => ({| ids := [] |}, Some [])
  | Some content =>
      let l := read_loop (S (length content)) content [] in
      ({| ids := if 1 <? Z.of_nat (length l) then qsort_i64 l else l |}, f)
  end.

Definition whitelist_load (f : file) : Whitelist * file := read_ids f.

Definition digit_char (d : Z) : ascii := of_byte_val (48 + d).

(** The decimal digits of [n >= 0], most significant first. *)
Fixpoint print_digits (fuel : nat) (n : Z) (acc : list ascii) : list ascii :=
  match fuel with
  | O => acc
  | S f =>
      let acc' := digit_char (n mod 10) :: acc in
      if n <? 10 then acc' else print_digits f (n / 10) acc'
  end.

(** What [fprintf(fp, "%ld", v)] writes for an [int64_t]: 19 digits at most. *)
Definition print_i64 (v : Z) : list ascii :=
  if v <? 0 then "-"%char :: print_digits 20 (- v) []
  else print_digits 20 v [].

(** [whitelist_save]: the return code and the file afterwards.  [save_ok]
    is the outcome of its file operations: whether [fopen] of the
    temporary file, every [fprintf], [fclose] and [rename] succeed.  When
    they do, the temporary file holds one line for each identifier and
    replaces the file; when one fails, the temporary file is given up, the
    file stays as it was and -1 is returned. *)
Definition whitelist_save (save_ok : bool) (wl : Whitelist) (f : file) : Z * file :=
  if save_ok
  then (0, Some (concat (map (fun id => print_i64 id ++ ["010"%char]) (ids wl))))
  else (-1, f).

Definition whitelist_contains (wl : Whitelist) (user_id : Z) : bool :=
  fst (bsearch_idx wl user_id).

(** [whitelist_add]: return code, list and file.  The array is changed
    before the save, whose return code is passed on. *)
Definition whitelist_add (save_ok : bool) (wl : Whitelist) (f : file) (user_id : Z)
  : Z * Whitelist * file :=
  let '(found, pos) := bsearch_idx wl user_id in
  if found then (1, wl, f)
  else if WHITELIST_MAX <=? count wl then (-1, wl, f)
  else
    let wl' := {| ids := take (Z.to_nat pos) (ids wl) ++ user_id ::
                         drop (Z.to_nat pos) (ids wl) |} in
    let '(rc, f') := whitelist_save save_ok wl' f in (rc, wl', f').

Definition whitelist_remove (save_ok : bool) (wl : Whitelist) (f : file)
    (user_id : Z) : Z * Whitelist * file :=
  let '(found, idx) := bsearch_idx wl user_id in
  if negb found then (1, wl, f)
  else
    let wl' := {| ids := take (Z.to_nat idx) (ids wl) ++
                         drop (S (Z.to_nat idx)) (ids wl) |} in
    let '(rc, f') := whitelist_save save_ok wl' f in (rc, wl', f').

Definition whitelist_count (wl : Whitelist) : Z := count wl.

(** *** The file format round trip *)

Definition NL : ascii := "010"%char.

(** The text [whitelist_save] writes for a list. *)
Definition render (l : list Z) : list ascii :=
  concat (map (fun id => print_i64 id ++ [NL]) l).

(** The value of a run of digits read after [acc]. *)
Definition digits_value (ds : list ascii) (acc : Z) : Z :=
  fold_left (fun a c => a * 10 + digit_val c) ds acc.

Lemma digit_char_spec d :
  0 <= d < 10 ->
  isdigit (digit_char d) = true /\ digit_val (digit_char d) = d /\
  isspace (digit_char d) = false /\ digit_char d <> NL /\
  digit_char d <> "-"%char /\ digit_char d <> "+"%char.
Proof.
  intros Hd.
  assert (H : d = 0 \/ d = 1 \/ d = 2 \/ d = 3 \/ d = 4 \/ d = 5 \/ d = 6 \/
              d = 7 \/ d = 8 \/ d = 9) by lia.
  repeat (destruct H as [->|H]; [repeat split; discriminate || reflexivity|]).
  subst d. repeat split; discriminate || reflexivity.
Qed.

Lemma print_digits_app fuel n acc :
  print_digits fuel n acc = print_digits fuel n [] ++ acc.
Proof.
  revert n acc. induction fuel as [|f IH]; intros n acc; [reflexivity|].
  cbn [print_digits]. destruct (n <? 10); [reflexivity|].
  rewrite (IH _ (_ :: acc)), (IH _ [_]), <- app_assoc. reflexivity.
Qed.

Lemma print_digits_step f n :
  print_digits (S f) n [] =
  if n <? 10 then [digit_char (n mod 10)]
  else print_digits f (n / 10) [] ++ [digit_char (n mod 10)].
Proof.
  cbn [print_digits]. destruct (n <? 10); [reflexivity|]. apply print_digits_app.
Qed.

(** Every byte printed is a decimal digit. *)
Lemma print_digits_digits fuel n :
  0 <= n -> Forall (fun c => isdigit c = true /\ c <> NL) (print_digits fuel n []).
Proof.
  revert n. induction fuel as [|f IH]; intros n Hn; [constructor|].
  rewrite print_digits_step.
  assert (Hd : 0 <= n mod 10 < 10) by (apply Z.mod_pos_bound; lia).
  destruct (digit_char_spec _ Hd) as (H1 & _ & _ & H2 & _).
  destruct (n <? 10).
  - repeat constructor; assumption.
  - apply Forall_app. split; [apply IH, Z.div_pos; lia|].
    repeat constructor; assumption.
Qed.

Lemma print_digits_length fuel n :
  (length (print_digits fuel n []) <= fuel)%nat.
Proof.
  revert n. induction fuel as [|f IH]; intros n; [reflexivity|].
  rewrite print_digits_step. destruct (n <? 10); [cbn; lia|].
  rewrite length_app. cbn [length]. specialize (IH (n / 10)). lia.
Qed.

Lemma print_digits_value fuel n acc :
  0 <= n < 10 ^ Z.of_nat fuel -> (0 < fuel)%nat ->
  exists k, digits_value (print_digits fuel n []) acc = acc * 10 ^ k + n /\ 0 <= k.
Proof.
  revert n acc. induction fuel as [|f IH]; intros n acc Hn Hf; [lia|].
  rewrite print_digits_step.
  assert (Hd : 0 <= n mod 10 < 10) by (apply Z.mod_pos_bound; lia).
  destruct (digit_char_spec _ Hd) as (_ & Hv & _).
  destruct (Z.ltb_spec n 10) as [Hlt|Hge].
  - exists 1. cbn [digits_value fold_left]. rewrite Hv, Z.mod_small by lia. lia.
  - destruct f as [|f].
    { change (10 ^ Z.of_nat 1) with 10 in Hn. lia. }
    destruct (IH (n / 10) acc) as (k & Hk & Hk0); [|lia|].
    { split; [apply Z.div_pos; lia|].
      apply Z.div_lt_upper_bound; [lia|].
      replace (Z.of_nat (S (S f))) with (Z.of_nat (S f) + 1) in Hn by lia.
      rewrite Z.pow_add_r in Hn by lia. lia. }
    exists (k + 1). unfold digits_value in *.
    rewrite fold_left_app, Hk. cbn [fold_left]. rewrite Hv.
    rewrite Z.pow_add_r by lia. pose proof (Z.div_mod n 10). lia.
Qed.

Lemma scan_digits_app ds rest acc :
  Forall (fun c => isdigit c = true /\ c <> NL) ds ->
  scan_digits (ds ++ rest) acc = scan_digits rest (digits_value ds acc).
Proof.
  revert acc. induction ds as [|c ds IH]; intros acc H; [reflexivity|].
  apply Forall_cons in H as [[Hc _] H]. cbn [app scan_digits digits_value fold_left].
  rewrite Hc. apply IH, H.
Qed.

Lemma print_digits_head fuel n :
  0 <= n -> (0 < fuel)%nat ->
  exists c rest, print_digits fuel n [] = c :: rest /\ isdigit c = true /\
                 isspace c = false /\ c <> "-"%char /\ c <> "+"%char.
Proof.
  revert n. induction fuel as [|f IH]; intros n Hn Hf; [lia|].
  rewrite print_digits_step.
  assert (Hd : 0 <= n mod 10 < 10) by (apply Z.mod_pos_bound; lia).
  destruct (digit_char_spec _ Hd) as (H1 & _ & H3 & _ & H5 & H6).
  destruct (Z.ltb_spec n 10) as [Hlt|Hge]; [eauto 10|].
  destruct f as [|f].
  - cbn [print_digits app]. eauto 10.
  - destruct (IH (n / 10)) as (c & rest & -> & Hc); [apply Z.div_pos; lia|lia|].
    cbn [app]. eauto.
Qed.

Lemma int64_lt_pow z : 0 <= z <= 2 ^ 63 -> 0 <= z < 10 ^ Z.of_nat 20.
Proof. intros H. change (10 ^ Z.of_nat 20) with 100000000000000000000. lia. Qed.

Lemma ascii_eqb_false (a b : ascii) : a <> b -> Ascii.eqb a b = false.
Proof. intros H. apply Ascii.eqb_neq, H. Qed.

Lemma sscanf_digits (neg : bool) c rest :
  Forall (fun c => isdigit c = true /\ c <> NL) (c :: rest) ->
  isspace c = false -> c <> "-"%char -> c <> "+"%char ->
  sscanf_i64 ((if neg then ["-"%char] else []) ++ (c :: rest) ++ [NL]) =
  Some (Z.max INT64_MIN
          (Z.min INT64_MAX
             (if neg then - digits_value (c :: rest) 0
              else digits_value (c :: rest) 0))).
Proof.
  intros Hds Hs Hm Hp. pose proof Hds as Hds'.
  apply Forall_cons in Hds' as [[Hc _] _].
  assert (Hscan : scan_digits (c :: rest ++ [NL]) 0 = digits_value (c :: rest) 0).
  { change (c :: rest ++ [NL]) with ((c :: rest) ++ [NL]).
    rewrite scan_digits_app by assumption. reflexivity. }
  unfold sscanf_i64. destruct neg.
  - cbn [app skip_space]. change (isspace "-"%char) with false. cbv iota.
    rewrite Ascii.eqb_refl. cbn [peek]. rewrite Hc, Hscan. reflexivity.
  - cbn [app skip_space]. rewrite Hs.
    rewrite (ascii_eqb_false _ _ Hm), (ascii_eqb_false _ _ Hp).
    cbn [peek]. rewrite Hc, Hscan. reflexivity.
Qed.

(** Reading back what was printed gives the number. *)
Lemma sscanf_print v :
  is_int64 v -> sscanf_i64 (print_i64 v ++ [NL]) = Some v.
Proof.
  unfold is_int64, INT64_MIN, INT64_MAX. intros Hv. unfold print_i64.
  destruct (Z.ltb_spec v 0) as [Hneg|Hpos].
  - assert (Hn : 0 <= - v <= 2 ^ 63) by lia.
    destruct (print_digits_head 20 (- v)) as (c & rest & He & Hc & Hs & Hm & Hp); [lia..|].
    pose proof (print_digits_digits 20 (- v) (proj1 Hn)) as Hds.
    destruct (print_digits_value 20 (- v) 0 (int64_lt_pow _ Hn)) as (k & Hk & _); [lia|].
    rewrite He in *.
    change (("-"%char :: c :: rest) ++ [NL])
      with ((if true then ["-"%char] else []) ++ (c :: rest) ++ [NL]).
    rewrite sscanf_digits by assumption. rewrite Hk. f_equal.
    unfold INT64_MIN, INT64_MAX. lia.
  - assert (Hn : 0 <= v <= 2 ^ 63) by lia.
    destruct (print_digits_head 20 v) as (c & rest & He & Hc & Hs & Hm & Hp); [lia..|].
    pose proof (print_digits_digits 20 v (proj1 Hn)) as Hds.
    destruct (print_digits_value 20 v 0 (int64_lt_pow _ Hn)) as (k & Hk & _); [lia|].
    rewrite He in *.
    change ((c :: rest) ++ [NL])
      with ((if false then ["-"%char] else []) ++ (c :: rest) ++ [NL]).
    rewrite sscanf_digits by assumption. rewrite Hk. f_equal.
    unfold INT64_MIN, INT64_MAX. lia.
Qed.

Lemma print_i64_line v :
  is_int64 v ->
  Forall (fun c => c <> NL) (print_i64 v) /\ (length (print_i64 v) <= 21)%nat.
Proof.
  unfold is_int64, INT64_MIN, INT64_MAX, print_i64. intros Hv.
  destruct (Z.ltb_spec v 0).
  - split.
    + constructor; [discriminate|].
      eapply Forall_impl; [apply print_digits_digits; lia|]. intros c [_ Hc]; exact Hc.
    + cbn [length]. pose proof (print_digits_length 20 (- v)). lia.
  - split.
    + eapply Forall_impl; [apply print_digits_digits; lia|]. intros c [_ Hc]; exact Hc.
    + pose proof (print_digits_length 20 v). lia.
Qed.

Lemma fgets_loop_line n l rest :
  Forall (fun c => c <> NL) l -> (length l < n)%nat ->
  fgets_loop n (l ++ NL :: rest) = (l ++ [NL], rest).
Proof.
  revert n. induction l as [|c l IH]; intros n Hl Hn.
  - destruct n as [|n]; [cbn in Hn; lia|]. reflexivity.
  - apply Forall_cons in Hl as [Hc Hl]. destruct n as [|n]; [cbn in Hn; lia|].
    cbn [app fgets_loop]. fold NL. rewrite (ascii_eqb_false _ _ Hc).
    rewrite IH by (assumption || (cbn [length] in Hn; lia)). reflexivity.
Qed.

Lemma fgets_line l rest :
  Forall (fun c => c <> NL) l -> (length l < 63)%nat ->
  fgets 64 (l ++ NL :: rest) = Some (l ++ [NL], rest).
Proof.
  intros Hl Hn. unfold fgets.
  destruct (l ++ NL :: rest) eqn:E; [destruct l; discriminate|].
  rewrite <- E. f_equal. apply fgets_loop_line; [assumption|lia].
Qed.

Lemma render_cons v l : render (v :: l) = print_i64 v ++ NL :: render l.
Proof. unfold render. cbn [map concat]. now rewrite <- app_assoc. Qed.

(** Reading the text written for [l] appends [l], as long as the array
    does not fill up. *)
Lemma read_loop_render l acc fuel :
  Forall is_int64 l ->
  Z.of_nat (length acc) + Z.of_nat (length l) <= WHITELIST_MAX ->
  (length (render l) < fuel)%nat ->
  read_loop fuel (render l) acc = acc ++ l.
Proof.
  revert acc fuel. induction l as [|v l IH]; intros acc fuel Hl Hlen Hf.
  - destruct fuel as [|f]; [lia|]. cbn. now rewrite app_nil_r.
  - apply Forall_cons in Hl as [Hv Hl]. destruct fuel as [|f]; [lia|].
    rewrite render_cons in *. destruct (print_i64_line v Hv) as [Hnl Hlen'].
    cbn [read_loop]. rewrite fgets_line by (assumption || lia).
    cbn [length] in Hlen.
    destruct (Z.leb_spec WHITELIST_MAX (Z.of_nat (length acc))) as [H|H]; [lia|].
    rewrite sscanf_print by assumption.
    rewrite IH.
    + now rewrite <- app_assoc.
    + assumption.
    + rewrite length_app. cbn [length]. lia.
    + rewrite length_app in Hf. cbn [length] in Hf. lia.
Qed.

(** Loading what [whitelist_save] wrote gives the list back, sorted. *)
Lemma load_render l :
  Forall is_int64 l -> Z.of_nat (length l) <= WHITELIST_MAX ->
  ids (fst (whitelist_load (Some (render l)))) =
  if 1 <? Z.of_nat (length l) then qsort_i64 l else l.
Proof.
  intros Hl Hlen. unfold whitelist_load, read_ids. cbn [fst ids].
  rewrite read_loop_render by (assumption || (cbn [length]; lia)). reflexivity.
Qed.

Lemma load_render_perm l :
  Forall is_int64 l -> Z.of_nat (length l) <= WHITELIST_MAX ->
  ids (fst (whitelist_load (Some (render l)))) ≡ₚ l.
Proof.
  intros Hl Hlen. rewrite load_render by assumption.
  destruct (1 <? Z.of_nat (length l)); [|reflexivity].
  apply merge_sort_Permutation.
Qed.

(** *** Sequences of mutations *)

Inductive wl_op :=
| Add (id : Z)
| Remove (id : Z).

Definition op_id (o : wl_op) : Z :=
  match o with Add id => id | Remove id => id end.

(** One call, with the outcome of its save. *)
Definition apply_op (save_ok : bool) (st : Whitelist * file) (o : wl_op)
  : Whitelist * file :=
  match o with
  | Add id =>
      let '(_, wl, f) := whitelist_add save_ok (fst st) (snd st) id in (wl, f)
  | Remove id =>
      let '(_, wl, f) := whitelist_remove save_ok (fst st) (snd st) id in (wl, f)
  end.

(** A sequence of calls each of which saves. *)
Definition run_ops (ops : list wl_op) (st : Whitelist * file) : Whitelist * file :=
  fold_left (apply_op true) ops st.

(** A sequence of calls, each with the outcome of its save. *)
Definition run_ops_io (ops : list (wl_op * bool)) (st : Whitelist * file)
  : Whitelist * file :=
  fold_left (fun st o => apply_op (snd o) st (fst o)) ops st.

(** The file holds what is in memory. *)
Definition in_sync (st : Whitelist * file) : Prop :=
  snd st = Some (render (ids (fst st))) /\
  Z.of_nat (length (ids (fst st))) <= WHITELIST_MAX /\
  Forall is_int64 (ids (fst st)).

Lemma load_empty_in_sync f0 :
  f0 = None \/ f0 = Some [] -> in_sync (whitelist_load f0).
Proof.
  intros [->| ->]; unfold in_sync.
  - split; [reflexivity|]. split; [vm_compute; discriminate|]. apply List.Forall_nil.
  - split; [reflexivity|]. split; [vm_compute; discriminate|]. apply List.Forall_nil.
Qed.

Lemma apply_op_in_sync st o :
  is_int64 (op_id o) -> in_sync st -> in_sync (apply_op true st o).
Proof.
  destruct st as [wl f]. intros Hid (Hf & Hlen & Hall). cbn [fst snd] in *.
  destruct o as [id|id]; cbn [apply_op fst snd op_id] in *.
  - unfold whitelist_add. destruct (bsearch_idx wl id) as [found pos].
    destruct found; [repeat split; assumption|].
    unfold count. destruct (Z.leb_spec WHITELIST_MAX (Z.of_nat (length (ids wl))));
      [repeat split; assumption|].
    cbn [whitelist_save ids]. repeat split; cbn [fst snd ids].
    + rewrite length_app. cbn [length]. rewrite length_take, length_drop. lia.
    + apply Forall_app. split; [now apply Forall_take|].
      constructor; [assumption|now apply Forall_drop].
  - unfold whitelist_remove. destruct (bsearch_idx wl id) as [found idx].
    destruct found; cbn [negb]; [|repeat split; assumption].
    cbn [whitelist_save ids]. repeat split; cbn [fst snd ids].
    + rewrite length_app, length_take, length_drop. lia.
    + apply Forall_app. split; [now apply Forall_take|now apply Forall_drop].
Qed.

Lemma run_ops_in_sync ops st :
  Forall (fun o => is_int64 (op_id o)) ops -> in_sync st -> in_sync (run_ops ops st).
Proof.
  revert st. induction ops as [|o ops IH]; intros st Hops Hst; [exact Hst|].
  apply Forall_cons in Hops as [Ho Hops]. cbn [run_ops fold_left].
  apply IH; [assumption|]. now apply apply_op_in_sync.
Qed.

(** C8. Persistence round trip: start from a missing or empty file, apply
    any sequence of [whitelist_add] and [whitelist_remove] calls each of
    which saves, then load the file into a fresh instance: the list loaded
    holds exactly the identifiers of the list in memory (it is a
    rearrangement of it). *)
Theorem persistence_round_trip (f0 : file) (ops : list wl_op) :
  f0 = None \/ f0 = Some [] ->
  Forall (fun o => is_int64 (op_id o)) ops ->
  let st := run_ops ops (whitelist_load f0) in
  ids (fst (whitelist_load (snd st))) ≡ₚ ids (fst st) /\
  forall id, id ∈ ids (fst (whitelist_load (snd st))) <-> id ∈ ids (fst st).
Proof.
  intros Hf0 Hops st.
  destruct (run_ops_in_sync ops _ Hops (load_empty_in_sync f0 Hf0))
    as (Hf & Hlen & Hall).
  fold st in Hf, Hlen, Hall. rewrite Hf.
  pose proof (load_render_perm _ Hall Hlen) as Hp.
  split; [exact Hp|]. intros id. now rewrite Hp.
Qed.

Lemma persistence_round_trip_witness :
  let ops := [Add 42; Add (-7); Add 42; Remove 5; Add 1000; Remove 42] in
  (@None (list ascii) = None \/ @None (list ascii) = Some []) /\
  Forall (fun o => is_int64 (op_id o)) ops /\
  ids (fst (whitelist_load (snd (run_ops ops (whitelist_load None))))) ≡ₚ
  ids (fst (run_ops ops (whitelist_load None))).
Proof.
  intros ops.
  assert (H1 : @None (list ascii) = None \/ @None (list ascii) = Some []) by (left; reflexivity).
  assert (H2 : Forall (fun o => is_int64 (op_id o)) ops).
  { repeat constructor; cbn; unfold INT64_MIN, INT64_MAX; lia. }
  split; [exact H1|]. split; [exact H2|].
  exact (proj1 (persistence_round_trip None ops H1 H2)).
Defined.

Lemma qsort_sorted l : StronglySorted Z.le l -> qsort_i64 l = l.
Proof.
  intros H. apply (StronglySorted_unique Z.le).
  - apply StronglySorted_merge_sort; apply _.
  - exact H.
  - apply merge_sort_Permutation.
Qed.

Lemma bsearch_pair x : bsearch_loop 3 [x; x] x 0 2 = (true, 1).
Proof. simpl. now rewrite Z.ltb_irrefl. Qed.

(** C9. [whitelist_load] sorts but does not remove duplicates: a file with
    the same identifier on two lines loads as a list holding it twice, next
    to each other, so the list is not strictly ascending, although
    [whitelist_contains] finds the identifier. *)
Theorem load_keeps_duplicates (id : Z) :
  is_int64 id ->
  let wl := fst (whitelist_load
                   (Some (print_i64 id ++ [NL] ++ print_i64 id ++ [NL]))) in
  ids wl = [id; id] /\
  ~ StronglySorted Z.lt (ids wl) /\
  whitelist_contains wl id = true.
Proof.
  intros Hid wl.
  assert (Hids : ids wl = [id; id]).
  { unfold wl.
    replace (print_i64 id ++ [NL] ++ print_i64 id ++ [NL]) with (render [id; id]).
    2:{ unfold render. cbn [map concat]. now rewrite app_nil_r, <- !app_assoc. }
    rewrite load_render.
    - cbn [length]. change (1 <? Z.of_nat 2) with true. cbv iota.
      apply qsort_sorted. repeat constructor; lia.
    - repeat (constructor; [assumption|]). constructor.
    - unfold WHITELIST_MAX. cbn [length]. lia. }
  split; [exact Hids|]. split.
  - rewrite Hids. intros H. inversion H as [|? ? _ Hfa]; subst.
    apply Forall_cons in Hfa as [Hlt _]. lia.
  - unfold whitelist_contains, bsearch_idx, count. rewrite Hids.
    change (Z.of_nat (length [id; id])) with 2.
    change (S (length [id; id])) with 3%nat.
    now rewrite bsearch_pair.
Qed.

Lemma load_keeps_duplicates_witness :
  is_int64 5 /\
  ids (fst (whitelist_load (Some (lit "5
5
")))) = [5; 5].
Proof.
  assert (H : is_int64 5) by (unfold is_int64, INT64_MIN, INT64_MAX; lia).
  split; [exact H|]. exact (proj1 (load_keeps_duplicates 5 H)).
Defined.

(** *** The sorted array and its binary search *)

Lemma sorted_lookup_le (l : list Z) i j vi vj :
  StronglySorted Z.le l -> (i <= j)%nat ->
  l !! i = Some vi -> l !! j = Some vj -> vi <= vj.
Proof.
  intros Hs Hij Hi Hj. destruct (decide (i = j)) as [->|Hne].
  - assert (vi = vj) by congruence. lia.
  - rewrite <- (take_drop j l) in Hs.
    apply (StronglySorted_app_1_elem_of _ _ _ vi vj Hs).
    + apply list_elem_of_lookup. exists i. rewrite lookup_take_lt by lia. exact Hi.
    + apply list_elem_of_lookup. exists 0%nat. rewrite lookup_drop.
      now rewrite Nat.add_0_r.
Qed.

(** The loop of [bsearch_idx] between [lo] and [hi], when everything
    before [lo] is smaller and everything from [hi] on is larger. *)
Lemma bsearch_loop_spec fuel : forall (l : list Z) id lo hi found idx,
  StronglySorted Z.le l ->
  0 <= lo <= hi -> hi <= Z.of_nat (length l) -> hi - lo < Z.of_nat fuel ->
  (forall (j : nat) v, l !! j = Some v -> Z.of_nat j < lo -> v < id) ->
  (forall (j : nat) v, l !! j = Some v -> hi <= Z.of_nat j -> id < v) ->
  bsearch_loop fuel l id lo hi = (found, idx) ->
  lo <= idx <= hi /\
  (found = true -> idx < hi /\ l !! Z.to_nat idx = Some id) /\
  (found = false ->
     (forall (j : nat) v, l !! j = Some v -> Z.of_nat j < idx -> v < id) /\
     (forall (j : nat) v, l !! j = Some v -> idx <= Z.of_nat j -> id < v)).
Proof.
  induction fuel as [|f IH]; intros l id lo hi found idx Hs Hlo Hhi Hf Hlt Hgt H;
    [lia|].
  cbn [bsearch_loop] in H. destruct (Z.ltb_spec lo hi) as [Hlh|Hlh].
  2:{ injection H as <- <-. assert (lo = hi) by lia. subst hi.
      split; [lia|]. split; [discriminate|]. intros _. split; assumption. }
  set (mid := lo + (hi - lo) / 2) in *.
  assert (Hmid : lo <= mid < hi).
  { unfold mid. pose proof (Z.div_pos (hi - lo) 2 ltac:(lia) ltac:(lia)).
    pose proof (Z.div_lt_upper_bound (hi - lo) 2 (hi - lo) ltac:(lia) ltac:(lia)).
    lia. }
  destruct (l !! Z.to_nat mid) as [v|] eqn:Hv.
  2:{ apply lookup_ge_None in Hv. lia. }
  simpl default in H.
  destruct (Z.ltb_spec v id) as [Hc1|Hc1].
  - apply IH in H; try assumption; try lia.
    + destruct H as (Hr & Ht & Hfl). split; [lia|]. split; assumption.
    + intros j w Hj Hjm.
      pose proof (sorted_lookup_le l j (Z.to_nat mid) w v Hs ltac:(lia) Hj Hv).
      lia.
  - destruct (Z.ltb_spec id v) as [Hc2|Hc2].
    + apply IH in H; try assumption; try lia.
      * destruct H as (Hr & Ht & Hfl). split; [lia|]. split; [|assumption].
        intros E. destruct (Ht E). split; [lia|assumption].
      * intros j w Hj Hjm.
        pose proof (sorted_lookup_le l (Z.to_nat mid) j v w Hs ltac:(lia) Hv Hj).
        lia.
    + injection H as <- <-. split; [lia|]. split; [|discriminate].
      intros _. split; [lia|]. rewrite Hv. f_equal. lia.
Qed.

Lemma bsearch_idx_spec wl id :
  StronglySorted Z.le (ids wl) ->
  let found := fst (bsearch_idx wl id) in
  let idx := snd (bsearch_idx wl id) in
  0 <= idx <= count wl /\
  (found = true <-> id ∈ ids wl) /\
  (found = true -> ids wl !! Z.to_nat idx = Some id) /\
  (found = false ->
     Forall (fun v => v < id) (take (Z.to_nat idx) (ids wl)) /\
     Forall (fun v => id < v) (drop (Z.to_nat idx) (ids wl))).
Proof.
  intros Hs. cbn zeta. destruct (bsearch_idx wl id) as [found idx] eqn:Hb.
  cbn [fst snd]. unfold bsearch_idx, count in Hb.
  assert (H1 : 0 <= 0 <= Z.of_nat (length (ids wl))) by lia.
  assert (H2 : Z.of_nat (length (ids wl)) <= Z.of_nat (length (ids wl))) by lia.
  assert (H3 : Z.of_nat (length (ids wl)) - 0 < Z.of_nat (S (length (ids wl))))
    by lia.
  assert (H4 : forall (j : nat) v, ids wl !! j = Some v -> Z.of_nat j < 0 -> v < id)
    by (intros; lia).
  assert (H5 : forall (j : nat) v, ids wl !! j = Some v ->
                 Z.of_nat (length (ids wl)) <= Z.of_nat j -> id < v).
  { intros j v Hj Hge. apply lookup_lt_Some in Hj. lia. }
  destruct (bsearch_loop_spec _ _ _ _ _ _ _ Hs H1 H2 H3 H4 H5 Hb) as (Hr & Ht & Hf).
  unfold count. split; [lia|].
  assert (Hfalse : found = false ->
            Forall (fun v => v < id) (take (Z.to_nat idx) (ids wl)) /\
            Forall (fun v => id < v) (drop (Z.to_nat idx) (ids wl))).
  { intros E. destruct (Hf E) as [G1 G2]. split; apply Forall_lookup_2.
    - intros j v Hj. apply lookup_take_Some in Hj as [Hj Hlt].
      apply (G1 j v Hj). lia.
    - intros j v Hj. rewrite lookup_drop in Hj. apply (G2 _ v Hj). lia. }
  split; [|split; [intros E; now apply Ht|exact Hfalse]].
  split.
  - intros E. destruct (Ht E) as [_ Hl]. apply list_elem_of_lookup. eauto.
  - intros Hin. destruct found; [reflexivity|]. exfalso.
    destruct (Hfalse eq_refl) as [G1 G2].
    rewrite <- (take_drop (Z.to_nat idx) (ids wl)) in Hin.
    apply elem_of_app in Hin as [Hin|Hin].
    + rewrite Forall_forall in G1. specialize (G1 _ Hin). lia.
    + rewrite Forall_forall in G2. specialize (G2 _ Hin). lia.
Qed.

(** X4. On a sorted array [bsearch_idx] sets [found] exactly when the
    identifier is in the array; the index returned then holds it, and
    otherwise is its insertion point: everything before is smaller,
    everything from there on is larger. *)
Theorem bsearch_idx_sorted wl id :
  StronglySorted Z.le (ids wl) ->
  let found := fst (bsearch_idx wl id) in
  let idx := snd (bsearch_idx wl id) in
  0 <= idx <= count wl /\
  (found = true <-> id ∈ ids wl) /\
  (found = true -> ids wl !! Z.to_nat idx = Some id) /\
  (found = false ->
     Forall (fun v => v < id) (take (Z.to_nat idx) (ids wl)) /\
     Forall (fun v => id < v) (drop (Z.to_nat idx) (ids wl))).
Proof. exact (bsearch_idx_spec wl id). Qed.

Lemma bsearch_idx_sorted_witness :
  let wl := {| ids := [3; 5; 9] |} in
  let found := fst (bsearch_idx wl 7) in
  let idx := snd (bsearch_idx wl 7) in
  0 <= idx <= count wl /\
  (found = true <-> 7 ∈ ids wl) /\
  (found = true -> ids wl !! Z.to_nat idx = Some 7) /\
  (found = false ->
     Forall (fun v => v < 7) (take (Z.to_nat idx) (ids wl)) /\
     Forall (fun v => 7 < v) (drop (Z.to_nat idx) (ids wl))).
Proof.
  apply (bsearch_idx_sorted {| ids := [3; 5; 9] |} 7).
  simpl. repeat (constructor; [repeat constructor; lia|]). constructor.
Defined.

Lemma contains_spec wl id :
  StronglySorted Z.le (ids wl) ->
  whitelist_contains wl id = true <-> id ∈ ids wl.
Proof.
  intros Hs. unfold whitelist_contains.
  destruct (bsearch_idx_spec wl id Hs) as (_ & H & _). exact H.
Qed.

Lemma read_loop_length fuel : forall stream acc,
  Z.of_nat (length acc) <= WHITELIST_MAX ->
  Z.of_nat (length (read_loop fuel stream acc)) <= WHITELIST_MAX.
Proof.
  induction fuel as [|f IH]; intros stream acc Hacc; [exact Hacc|].
  cbn [read_loop]. destruct (fgets 64 stream) as [[line rest]|]; [|exact Hacc].
  destruct (Z.leb_spec WHITELIST_MAX (Z.of_nat (length acc))); [exact Hacc|].
  destruct (sscanf_i64 line); apply IH; [|exact Hacc].
  rewrite length_app. simpl. lia.
Qed.

Lemma load_sorted f : StronglySorted Z.le (ids (fst (whitelist_load f))).
Proof.
  unfold whitelist_load, read_ids. destruct f as [content|]; cbn [fst ids].
  2:{ constructor. }
  set (l := read_loop _ _ _).
  destruct (Z.ltb_spec 1 (Z.of_nat (length l))) as [H|H].
  - apply StronglySorted_merge_sort; apply _.
  - destruct l as [|x [|y l']]; [constructor|repeat constructor|].
    simpl in H. lia.
Qed.

Lemma load_count f : count (fst (whitelist_load f)) <= WHITELIST_MAX.
Proof.
  unfold whitelist_load, read_ids, count. destruct f as [content|]; cbn [fst ids].
  2:{ vm_compute. discriminate. }
  pose proof (read_loop_length (S (length content)) content []
                ltac:(vm_compute; discriminate)) as Hl.
  destruct (1 <? _); [|exact Hl].
  unfold qsort_i64. now rewrite merge_sort_Permutation.
Qed.

(** What [whitelist_add] does to a sorted array. *)
Lemma whitelist_add_spec ok wl f id :
  StronglySorted Z.le (ids wl) ->
  let rc := fst (fst (whitelist_add ok wl f id)) in
  let wl' := snd (fst (whitelist_add ok wl f id)) in
  let f' := snd (whitelist_add ok wl f id) in
  StronglySorted Z.le (ids wl') /\
  (id ∈ ids wl -> rc = 1 /\ wl' = wl /\ f' = f) /\
  (id ∉ ids wl -> WHITELIST_MAX <= count wl -> rc = -1 /\ wl' = wl /\ f' = f) /\
  (id ∉ ids wl -> count wl < WHITELIST_MAX ->
     rc = (if ok then 0 else -1) /\ ids wl' ≡ₚ id :: ids wl /\
     count wl' = count wl + 1 /\
     f' = (if ok then Some (render (ids wl')) else f)).
Proof.
  intros Hs. cbn zeta. unfold whitelist_add.
  destruct (bsearch_idx_spec wl id Hs) as (Hr & Hin & Hat & Hins).
  destruct (bsearch_idx wl id) as [found pos]. cbn [fst snd] in *.
  destruct found.
  - cbn [fst snd]. split; [exact Hs|]. split; [auto|].
    split; intros Hn; exfalso; apply Hn, Hin; reflexivity.
  - assert (Hnin : id ∉ ids wl).
    { intros H. apply Hin in H. discriminate. }
    destruct (Hins eq_refl) as [Hlt Hgt].
    destruct (Z.leb_spec WHITELIST_MAX (count wl)) as [Hfull|Hroom].
    + cbn [fst snd]. split; [exact Hs|]. split; [intros; contradiction|].
      split; [auto|]. intros _ Hc. lia.
    + assert (Hsorted : StronglySorted Z.le
                (take (Z.to_nat pos) (ids wl) ++ id :: drop (Z.to_nat pos) (ids wl))).
      { pose proof Hs as Hs'. rewrite <- (take_drop (Z.to_nat pos) (ids wl)) in Hs'.
        apply StronglySorted_app in Hs' as (Hcross & Hs1 & Hs2).
        apply StronglySorted_app_2; [|exact Hs1|].
        - intros x1 x2 H1 H2. rewrite Forall_forall in Hlt.
          specialize (Hlt _ H1). apply elem_of_cons in H2 as [->|H2]; [lia|].
          rewrite Forall_forall in Hgt. specialize (Hgt _ H2). lia.
        - constructor; [exact Hs2|].
          eapply Forall_impl; [exact Hgt|]. intros v Hv. simpl in Hv. lia. }
      assert (Hcount : count {| ids := take (Z.to_nat pos) (ids wl) ++
                                       id :: drop (Z.to_nat pos) (ids wl) |} =
                       count wl + 1).
      { unfold count. cbn [ids].
        rewrite length_app. cbn [length]. rewrite length_take, length_drop.
        unfold count in Hr. lia. }
      unfold whitelist_save. destruct ok; cbn [fst snd ids].
      all: split; [exact Hsorted|]; split; [intros; contradiction|];
        split; [intros _ Hc; lia|]; intros _ _;
        split; [reflexivity|]; split;
        [rewrite <- Permutation_middle; now rewrite take_drop|];
        split; [exact Hcount|reflexivity].
Qed.

(** What [whitelist_remove] does to a sorted array. *)
Lemma whitelist_remove_spec ok wl f id :
  StronglySorted Z.le (ids wl) ->
  let rc := fst (fst (whitelist_remove ok wl f id)) in
  let wl' := snd (fst (whitelist_remove ok wl f id)) in
  let f' := snd (whitelist_remove ok wl f id) in
  StronglySorted Z.le (ids wl') /\
  (id ∉ ids wl -> rc = 1 /\ wl' = wl /\ f' = f) /\
  (id ∈ ids wl ->
     rc = (if ok then 0 else -1) /\ ids wl ≡ₚ id :: ids wl' /\
     count wl' = count wl - 1 /\
     f' = (if ok then Some (render (ids wl')) else f)).
Proof.
  intros Hs. cbn zeta. unfold whitelist_remove.
  destruct (bsearch_idx_spec wl id Hs) as (Hr & Hin & Hat & Hins).
  destruct (bsearch_idx wl id) as [found idx]. cbn [fst snd] in *.
  destruct found; cbn [negb].
  - specialize (Hat eq_refl).
    assert (Hsplit : ids wl = take (Z.to_nat idx) (ids wl) ++
                              id :: drop (S (Z.to_nat idx)) (ids wl)).
    { rewrite <- (take_drop_middle _ _ _ Hat) at 1. reflexivity. }
    assert (Hsorted : StronglySorted Z.le
              (take (Z.to_nat idx) (ids wl) ++ drop (S (Z.to_nat idx)) (ids wl))).
    { pose proof Hs as Hs'. rewrite Hsplit in Hs'.
      apply StronglySorted_app in Hs' as (Hcross & Hs1 & Hs2).
      apply StronglySorted_cons in Hs2 as [_ Hs2].
      apply StronglySorted_app_2; [|exact Hs1|exact Hs2].
      intros x1 x2 H1 H2. apply Hcross; [exact H1|]. now apply list_elem_of_further. }
    assert (Hcount : count {| ids := take (Z.to_nat idx) (ids wl) ++
                                     drop (S (Z.to_nat idx)) (ids wl) |} =
                     count wl - 1).
    { unfold count. cbn [ids].
      pose proof (f_equal (@length _) Hsplit) as Hl.
      rewrite length_app in Hl. cbn [length] in Hl.
      rewrite length_app. lia. }
    unfold whitelist_save. destruct ok; cbn [fst snd ids].
    all: split; [exact Hsorted|]; split;
      [intros Hn; exfalso; apply Hn, Hin; reflexivity|];
      intros _; split; [reflexivity|]; split;
      [rewrite Hsplit at 1; now rewrite <- Permutation_middle|];
      split; [exact Hcount|reflexivity].
  - cbn [fst snd]. split; [exact Hs|]. split; [auto|].
    intros H. apply Hin in H. discriminate.
Qed.

(** X5. Whatever file is loaded and whatever is added and removed
    afterwards, whether the saves succeed or fail, the array stays sorted
    and within its 256 entries, so that [whitelist_contains] answers
    membership in the array. *)
Theorem whitelist_stays_sorted (f0 : file) (ops : list (wl_op * bool)) :
  let wl := fst (run_ops_io ops (whitelist_load f0)) in
  StronglySorted Z.le (ids wl) /\ count wl <= WHITELIST_MAX /\
  forall id, whitelist_contains wl id = true <-> id ∈ ids wl.
Proof.
  cbn zeta.
  assert (Hinv : forall ops st,
            StronglySorted Z.le (ids (fst st)) /\ count (fst st) <= WHITELIST_MAX ->
            StronglySorted Z.le (ids (fst (run_ops_io ops st))) /\
            count (fst (run_ops_io ops st)) <= WHITELIST_MAX).
  { clear. induction ops as [|[o ok] ops IH]; intros st Hst; [exact Hst|].
    unfold run_ops_io. cbn [fold_left]. apply IH. destruct Hst as [Hs Hc].
    destruct st as [wl f]. cbn [fst snd] in *. destruct o as [id|id]; cbn [apply_op fst snd].
    - pose proof (whitelist_add_spec ok wl f id Hs) as H. cbn zeta in H.
      destruct (whitelist_add ok wl f id) as [[rc wl'] f']. cbn [fst snd] in *.
      destruct H as (Hs' & Hin & Hfull & Hroom). split; [exact Hs'|].
      destruct (decide (id ∈ ids wl)) as [Hi|Hi].
      + destruct (Hin Hi) as (_ & -> & _). exact Hc.
      + destruct (Z.le_gt_cases WHITELIST_MAX (count wl)) as [Hf|Hf].
        * destruct (Hfull Hi Hf) as (_ & -> & _). exact Hc.
        * destruct (Hroom Hi Hf) as (_ & _ & -> & _). lia.
    - pose proof (whitelist_remove_spec ok wl f id Hs) as H. cbn zeta in H.
      destruct (whitelist_remove ok wl f id) as [[rc wl'] f']. cbn [fst snd] in *.
      destruct H as (Hs' & Hnin & Hin). split; [exact Hs'|].
      destruct (decide (id ∈ ids wl)) as [Hi|Hi].
      + destruct (Hin Hi) as (_ & _ & -> & _). lia.
      + destruct (Hnin Hi) as (_ & -> & _). exact Hc. }
  destruct (Hinv ops (whitelist_load f0) (conj (load_sorted f0) (load_count f0)))
    as [Hs Hc].
  split; [exact Hs|]. split; [exact Hc|]. intros id. now apply contains_spec.
Qed.

(** X6. [whitelist_add] on a sorted array: an identifier already there
    gives 1 and changes nothing; a new one on a full array gives -1 and
    changes nothing; otherwise the array gains the identifier at its sorted
    place and the identifier is found afterwards, whatever becomes of the
    save: when the save succeeds 0 is returned and the file holds the new
    array; when it fails -1 is returned and the file is as before, one
    identifier behind the array. *)
Theorem whitelist_add_outcomes save_ok wl f id :
  StronglySorted Z.le (ids wl) ->
  let rc := fst (fst (whitelist_add save_ok wl f id)) in
  let wl' := snd (fst (whitelist_add save_ok wl f id)) in
  let f' := snd (whitelist_add save_ok wl f id) in
  (id ∈ ids wl -> rc = 1 /\ wl' = wl /\ f' = f) /\
  (id ∉ ids wl -> WHITELIST_MAX <= count wl -> rc = -1 /\ wl' = wl /\ f' = f) /\
  (id ∉ ids wl -> count wl < WHITELIST_MAX ->
     ids wl' ≡ₚ id :: ids wl /\ StronglySorted Z.le (ids wl') /\
     whitelist_contains wl' id = true /\
     (save_ok = true -> rc = 0 /\ f' = Some (render (ids wl'))) /\
     (save_ok = false -> rc = -1 /\ f' = f)).
Proof.
  intros Hs. pose proof (whitelist_add_spec save_ok wl f id Hs) as H. cbn zeta in *.
  destruct H as (Hs' & Hin & Hfull & Hroom).
  split; [exact Hin|]. split; [exact Hfull|]. intros Hn Hc.
  destruct (Hroom Hn Hc) as (Hrc & Hp & _ & Hf).
  split; [exact Hp|]. split; [exact Hs'|].
  split; [apply contains_spec; [exact Hs'|]; rewrite Hp; constructor|].
  split; intros Hok; subst save_ok; (split; [exact Hrc|exact Hf]).
Qed.

Lemma whitelist_add_outcomes_witness :
  let wl := {| ids := [3; 9] |} in
  let rc := fst (fst (whitelist_add false wl None 5)) in
  let wl' := snd (fst (whitelist_add false wl None 5)) in
  let f' := snd (whitelist_add false wl None 5) in
  (5 ∈ ids wl -> rc = 1 /\ wl' = wl /\ f' = None) /\
  (5 ∉ ids wl -> WHITELIST_MAX <= count wl -> rc = -1 /\ wl' = wl /\ f' = None) /\
  (5 ∉ ids wl -> count wl < WHITELIST_MAX ->
     ids wl' ≡ₚ 5 :: ids wl /\ StronglySorted Z.le (ids wl') /\
     whitelist_contains wl' 5 = true /\
     (false = true -> rc = 0 /\ f' = Some (render (ids wl'))) /\
     (false = false -> rc = -1 /\ f' = None)).
Proof.
  apply (whitelist_add_outcomes false {| ids := [3; 9] |} None 5).
  simpl. repeat (constructor; [repeat constructor; lia|]). constructor.
Defined.

(** X7. [whitelist_remove] on a sorted array: an identifier that is not
    there gives 1 and changes nothing; otherwise one entry with the
    identifier is dropped from the array, and the identifier is still found
    afterwards exactly when the array held it more than once, whatever
    becomes of the save: when the save succeeds 0 is returned and the file
    holds the new array; when it fails -1 is returned and the file is as
    before. *)
Theorem whitelist_remove_outcomes save_ok wl f id :
  StronglySorted Z.le (ids wl) ->
  let rc := fst (fst (whitelist_remove save_ok wl f id)) in
  let wl' := snd (fst (whitelist_remove save_ok wl f id)) in
  let f' := snd (whitelist_remove save_ok wl f id) in
  (id ∉ ids wl -> rc = 1 /\ wl' = wl /\ f' = f) /\
  (id ∈ ids wl ->
     ids wl ≡ₚ id :: ids wl' /\ StronglySorted Z.le (ids wl') /\
     (whitelist_contains wl' id = true <->
      (2 <= count_occ Z.eq_dec (ids wl) id)%nat) /\
     (save_ok = true -> rc = 0 /\ f' = Some (render (ids wl'))) /\
     (save_ok = false -> rc = -1 /\ f' = f)).
Proof.
  intros Hs. pose proof (whitelist_remove_spec save_ok wl f id Hs) as H.
  cbn zeta in *. destruct H as (Hs' & Hnin & Hin).
  split; [exact Hnin|]. intros Hi.
  destruct (Hin Hi) as (Hrc & Hp & _ & Hf).
  split; [exact Hp|]. split; [exact Hs'|]. split.
  - rewrite contains_spec by exact Hs'.
    rewrite (Permutation_count_occ Z.eq_dec) in Hp. rewrite (Hp id).
    cbn [count_occ]. destruct (Z.eq_dec id id) as [_|Hne]; [|congruence].
    rewrite list_elem_of_In, (count_occ_In Z.eq_dec). lia.
  - split; intros Hok; subst save_ok; (split; [exact Hrc|exact Hf]).
Qed.

Lemma whitelist_remove_outcomes_witness :
  let wl := {| ids := [3; 5; 5; 9] |} in
  let rc := fst (fst (whitelist_remove true wl None 5)) in
  let wl' := snd (fst (whitelist_remove true wl None 5)) in
  let f' := snd (whitelist_remove true wl None 5) in
  (5 ∉ ids wl -> rc = 1 /\ wl' = wl /\ f' = None) /\
  (5 ∈ ids wl ->
     ids wl ≡ₚ 5 :: ids wl' /\ StronglySorted Z.le (ids wl') /\
     (whitelist_contains wl' 5 = true <->
      (2 <= count_occ Z.eq_dec (ids wl) 5%Z)%nat) /\
     (true = true -> rc = 0 /\ f' = Some (render (ids wl'))) /\
     (true = false -> rc = -1 /\ f' = None)).
Proof.
  apply (whitelist_remove_outcomes true {| ids := [3; 5; 5; 9] |} None 5).
  simpl. repeat (constructor; [repeat constructor; lia|]). constructor.
Defined.

(** X8. A user listed twice in the file survives one revocation: after
    loading a file with the identifier on two lines, [whitelist_remove]
    returns 0 when its save succeeds and -1 when it fails, and in both
    cases the array is left with one entry for the identifier, which
    [whitelist_contains] still finds. *)
Theorem duplicate_survives_remove (save_ok : bool) (id : Z) :
  is_int64 id ->
  let wl := fst (whitelist_load (Some (render [id; id]))) in
  let r := whitelist_remove save_ok wl (Some (render [id; id])) id in
  fst (fst r) = (if save_ok then 0 else -1) /\
  ids (snd (fst r)) = [id] /\
  whitelist_contains (snd (fst r)) id = true.
Proof.
  intros Hid. cbn zeta.
  assert (Hids : ids (fst (whitelist_load (Some (render [id; id])))) = [id; id]).
  { rewrite load_render.
    - simpl. apply qsort_sorted. repeat (constructor; [repeat constructor; lia|]).
      constructor.
    - repeat (constructor; [assumption|]). constructor.
    - vm_compute. discriminate. }
  set (wl := fst (whitelist_load (Some (render [id; id])))) in *.
  assert (Hs : StronglySorted Z.le (ids wl)).
  { rewrite Hids. repeat (constructor; [repeat constructor; lia|]). constructor. }
  pose proof (whitelist_remove_spec save_ok wl (Some (render [id; id])) id Hs) as H.
  cbn zeta in H. destruct H as (Hs' & _ & Hin).
  destruct Hin as (Hrc & Hp & _); [rewrite Hids; constructor|].
  rewrite Hids in Hp. apply Permutation_cons_inv in Hp.
  assert (Hone : ids (snd (fst (whitelist_remove save_ok wl
                                  (Some (render [id; id])) id))) = [id]).
  { apply Permutation_singleton_l in Hp. now symmetry. }
  split; [exact Hrc|]. split; [exact Hone|].
  apply contains_spec; [exact Hs'|]. rewrite Hone. constructor.
Qed.

Lemma duplicate_survives_remove_witness :
  let wl := fst (whitelist_load (Some (render [77; 77]))) in
  let r := whitelist_remove false wl (Some (render [77; 77])) 77 in
  fst (fst r) = (if false then 0 else -1) /\
  ids (snd (fst r)) = [77] /\
  whitelist_contains (snd (fst r)) 77 = true.
Proof.
  apply (duplicate_survives_remove false 77).
  unfold is_int64, INT64_MIN, INT64_MAX. lia.
Defined.

Lemma read_loop_render_cap l : forall acc fuel,
  Forall is_int64 l ->
  Z.of_nat (length acc) <= WHITELIST_MAX ->
  (length (render l) < fuel)%nat ->
  read_loop fuel (render l) acc =
  acc ++ take (Z.to_nat (WHITELIST_MAX - Z.of_nat (length acc))) l.
Proof.
  induction l as [|v l IH]; intros acc fuel Hl Hacc Hf.
  - destruct fuel as [|f]; [lia|]. cbn. now rewrite take_nil, app_nil_r.
  - apply Forall_cons in Hl as [Hv Hl]. destruct fuel as [|f]; [lia|].
    rewrite render_cons in *. destruct (print_i64_line v Hv) as [Hnl Hlen'].
    cbn [read_loop]. rewrite fgets_line by (assumption || lia).
    destruct (Z.leb_spec WHITELIST_MAX (Z.of_nat (length acc))) as [H|H].
    + replace (WHITELIST_MAX - Z.of_nat (length acc)) with 0 by lia.
      simpl. now rewrite app_nil_r.
    + rewrite sscanf_print by assumption. rewrite IH.
      * rewrite length_app. cbn [length].
        replace (Z.to_nat (WHITELIST_MAX - Z.of_nat (length acc)))
          with (S (Z.to_nat (WHITELIST_MAX - Z.of_nat (length acc + 1)))) by lia.
        cbn [take]. now rewrite <- app_assoc.
      * exact Hl.
      * rewrite length_app. cbn [length]. lia.
      * rewrite length_app in Hf. cbn [length] in Hf. lia.
Qed.

(** X9. [read_ids] stops at the capacity of the array: from a file with
    one identifier on each line, the first 256 are loaded, sorted; the
    lines after them are ignored. *)
Theorem load_stops_at_capacity l :
  Forall is_int64 l ->
  ids (fst (whitelist_load (Some (render l)))) =
  let l' := take (Z.to_nat WHITELIST_MAX) l in
  if 1 <? Z.of_nat (length l') then qsort_i64 l' else l'.
Proof.
  intros Hl. unfold whitelist_load, read_ids. cbn [fst ids].
  rewrite read_loop_render_cap; [reflexivity|exact Hl| |lia].
  vm_compute. discriminate.
Qed.

Lemma load_stops_at_capacity_witness :
  ids (fst (whitelist_load (Some (render (replicate 300 7))))) =
  let l' := take (Z.to_nat WHITELIST_MAX) (replicate 300 7) in
  if 1 <? Z.of_nat (length l') then qsort_i64 l' else l'.
Proof.
  apply (load_stops_at_capacity (replicate 300 7)).
  apply Forall_replicate. unfold is_int64, INT64_MIN, INT64_MAX. lia.
Defined.

End Whitelist.

(** ** Command dispatcher (src/commands.c) *)

Module Commands.
Import CStr.

(** What the handlers read of [Config]. *)
Record Config := mkConfig { admin_user_id : Z }.

(** [CmdCtx]; the access list and the queue it reaches are in [World];
    [bot_username] is [None] for a NULL pointer. *)
Record CmdCtx := mkCtx {
  cfg : Config;
  sender_id : Z;
  chat_id : Z;
  bot_username : option (list ascii);
  boot_time : float;
  worker_count : Z
}.

(** The state the handlers act on: the global queue, the access list
    behind [ctx->wl] and its file. *)
Record World := mkWorld {
  queue : Queue.g_queue;
  wl : Whitelist.Whitelist;
  wl_file : Whitelist.file
}.

(** What a handler takes from its surroundings: from the clock the
    reading each [queue_push] stamps (first and second push of the call)
    and, for [cmd_status], the value of
    [(int)(monotonic_sec() - ctx->boot_time)]; from the file system
    whether the file operations of [whitelist_save] succeed. *)
Record Env := mkEnv {
  now1 : float;
  now2 : float;
  uptime : Z;
  save_ok : bool
}.

(** A scan that moves [end] on while it points at a byte that is neither
    NUL nor a stop byte: the bytes passed and the rest. *)
Fixpoint scan_until (stop : ascii -> bool) (p : list ascii)
  : list ascii * list ascii :=
  match p with
  | [] => ([], [])
  | c :: p' =>
      if is_nul c || stop c then ([], p)
      else let '(w, r) := scan_until stop p' in (c :: w, r)
  end.

Definition is_char (x : ascii) (c : ascii) : bool := Ascii.eqb c x.

(** The loop that moves [end] over blanks. *)
Fixpoint skip_blanks (p : list ascii) : list ascii :=
  match p with
  | [] => []
  | c :: p' => if is_char " " c then skip_blanks p' else p
  end.

(** [parse_command]: the name copied to [cmd_buf] and the pointer returned;
    [None] is the NULL return. *)
Definition parse_command (text : list ascii) (cmd_buf_sz : nat)
    (bot : option (list ascii)) : option (list ascii * list ascii) :=
  if negb (is_char "/" (peek text)) then None
  else
    let p := advance 1 text in
    let '(cmd, e) := scan_until (fun c => is_char " " c || is_char "@" c) p in
    let cmd_len := length cmd in
    if (cmd_len =? 0)%nat || (cmd_buf_sz <=? cmd_len)%nat then None
    else if is_char "@" (peek e) then
      let at_start := advance 1 e in
      let '(suffix, at_end) := scan_until (is_char " ") at_start in
      match bot with
      | Some uname =>
          let ulen := strlen uname in
          if (length suffix =? ulen)%nat && (strncasecmp at_start uname ulen =? 0)
          then Some (cmd, skip_blanks at_end)
          else None
      | None => Some (cmd, skip_blanks at_end)
      end
    else Some (cmd, skip_blanks e).

Definition push (user chat : Z) (msg : list ascii) (now : float) (w : World) : World :=
  {| queue := snd (Queue.queue_push user chat msg now (queue w));
     wl := wl w; wl_file := wl_file w |}.

Definition cmd_start (ctx : CmdCtx) (env : Env) (w : World) : World :=
  push (sender_id ctx) (chat_id ctx)
       (lit "Hello! I'm tgbot. Use /help to see available commands.")
       (now1 env) w.

Definition help_text : list ascii :=
  lit "/start  - show greeting" ++ ["010"%char] ++
  lit "/help   - this message" ++ ["010"%char] ++
  lit "/status - (admin) operational status" ++ ["010"%char] ++
  lit "/allow <user_id>  - (admin) add user to whitelist" ++ ["010"%char] ++
  lit "/revoke <user_id> - (admin) remove user from whitelist".

Definition cmd_help (ctx : CmdCtx) (env : Env) (w : World) : World :=
  push (sender_id ctx) (chat_id ctx) help_text (now1 env) w.

Definition not_admin (ctx : CmdCtx) : bool :=
  (admin_user_id (cfg ctx) =? 0) || negb (sender_id ctx =? admin_user_id (cfg ctx)).

(** [strtoll(args, &endptr, 10)]: the value, the rest at [endptr], whether
    a digit was consumed ([endptr != args]) and whether [errno] is
    [ERANGE]. *)
Fixpoint digits_split (p : list ascii) (acc : Z) : Z * list ascii :=
  match p with
  | [] => (acc, [])
  | c :: p' =>
      if isdigit c then digits_split p' (acc * 10 + Whitelist.digit_val c)
      else (acc, p)
  end.

Definition strtoll (args : list ascii) : Z * list ascii * bool * bool :=
  let p := Whitelist.skip_space args in
  let '(neg, p) :=
    match p with
    | c :: p' => if is_char "-" c then (true, p')
                 else if is_char "+" c then (false, p')
                 else (false, p)
    | [] => (false, p)
    end in
  if isdigit (peek p) then
    let '(v, rest) := digits_split p 0 in
    let v := if neg then - v else v in
    let erange := (v <? Whitelist.INT64_MIN) || (Whitelist.INT64_MAX <? v) in
    (Z.max Whitelist.INT64_MIN (Z.min Whitelist.INT64_MAX v), rest, true, erange)
  else (0, args, false, false).

(** The argument check shared by [cmd_allow] and [cmd_revoke]: the target,
    or [None] for "Invalid user ID.". *)
Definition parse_target (args : list ascii) : option Z :=
  let '(target, endptr, consumed, erange) := strtoll args in
  if negb consumed || negb (is_nul (peek endptr)) || erange || (target =? 0)
  then None else Some target.

Definition cmd_allow (ctx : CmdCtx) (args : list ascii) (env : Env) (w : World)
  : World :=
  if not_admin ctx then
    push (sender_id ctx) (chat_id ctx) (lit "permission denied: admin only.")
         (now1 env) w
  else if is_nul (peek args) then
    push (sender_id ctx) (chat_id ctx) (lit "Usage: /allow <user_id>") (now1 env) w
  else
    match parse_target args with
    | None => push (sender_id ctx) (chat_id ctx) (lit "Invalid user ID.") (now1 env) w
    | Some target =>
        let '(rc, wl', f') := Whitelist.whitelist_add (save_ok env) (wl w) (wl_file w) target in
        let w' := {| queue := queue w; wl := wl'; wl_file := f' |} in
        if rc =? 1 then
          push (sender_id ctx) (chat_id ctx) (lit "User already whitelisted.")
               (now1 env) w'
        else if rc =? 0 then
          let w1 := push (sender_id ctx) (chat_id ctx)
                         (lit "User " ++ Whitelist.print_i64 target ++
                          lit " added to whitelist.") (now1 env) w' in
          push target target (lit "You have been granted access to this bot.")
               (now2 env) w1
        else
          push (sender_id ctx) (chat_id ctx)
               (lit "Failed to add user (whitelist full?).") (now1 env) w'
    end.

Definition cmd_revoke (ctx : CmdCtx) (args : list ascii) (env : Env) (w : World)
  : World :=
  if not_admin ctx then
    push (sender_id ctx) (chat_id ctx) (lit "permission denied: admin only.")
         (now1 env) w
  else if is_nul (peek args) then
    push (sender_id ctx) (chat_id ctx) (lit "Usage: /revoke <user_id>") (now1 env) w
  else
    match parse_target args with
    | None => push (sender_id ctx) (chat_id ctx) (lit "Invalid user ID.") (now1 env) w
    | Some target =>
        let '(rc, wl', f') := Whitelist.whitelist_remove (save_ok env) (wl w) (wl_file w) target in
        let w' := {| queue := queue w; wl := wl'; wl_file := f' |} in
        if rc =? 1 then
          push (sender_id ctx) (chat_id ctx) (lit "User was not whitelisted.")
               (now1 env) w'
        else if rc =? 0 then
          push (sender_id ctx) (chat_id ctx)
               (lit "User " ++ Whitelist.print_i64 target ++
                lit " removed from whitelist.") (now1 env) w'
        else
          push (sender_id ctx) (chat_id ctx) (lit "Failed to remove user.")
               (now1 env) w'
    end.

(** [cmd_status]; [%d] prints like [%ld] for values of type [int]. *)
Definition cmd_status (ctx : CmdCtx) (env : Env) (w : World) : World :=
  if not_admin ctx then
    push (sender_id ctx) (chat_id ctx) (lit "permission denied: admin only.")
         (now1 env) w
  else
    let secs := uptime env in
    let hours := Z.quot secs 3600 in
    let mins := Z.quot (Z.rem secs 3600) 60 in
    let secs := Z.rem secs 60 in
    let depth := Queue.queue_depth (queue w) in
    let wl_count := Whitelist.whitelist_count (wl w) in
    let workers := worker_count ctx in
    push (sender_id ctx) (chat_id ctx)
         (lit "uptime: " ++ Whitelist.print_i64 hours ++ lit "h " ++
          Whitelist.print_i64 mins ++ lit "m " ++
          Whitelist.print_i64 secs ++ lit "s" ++ ["010"%char] ++
          lit "queue: " ++ Whitelist.print_i64 depth ++ lit " pending" ++ ["010"%char] ++
          lit "whitelist: " ++ Whitelist.print_i64 wl_count ++ lit " user(s)" ++
          ["010"%char] ++
          lit "workers: " ++ Whitelist.print_i64 workers)
         (now1 env) w.

Inductive CmdArgType := CMD_NOARG | CMD_HASARG.

Record CmdEntry := mkEntry {
  name : list ascii;
  arg_type : CmdArgType;
  fn_noarg : option (CmdCtx -> Env -> World -> World);
  fn_arg : option (CmdCtx -> list ascii -> Env -> World -> World)
}.

Definition cmd_table : list CmdEntry :=
  [ {| name := lit "allow"; arg_type := CMD_HASARG;
       fn_noarg := None; fn_arg := Some cmd_allow |};
    {| name := lit "help"; arg_type := CMD_NOARG;
       fn_noarg := Some cmd_help; fn_arg := None |};
    {| name := lit "revoke"; arg_type := CMD_HASARG;
       fn_noarg := None; fn_arg := Some cmd_revoke |};
    {| name := lit "start"; arg_type := CMD_NOARG;
       fn_noarg := Some cmd_start; fn_arg := None |};
    {| name := lit "status"; arg_type := CMD_NOARG;
       fn_noarg := Some cmd_status; fn_arg := None |} ].

Definition cmd_table_len : Z := Z.of_nat (length cmd_table).

(** The loop of [cmd_lookup]; the interval shrinks in every iteration. *)
Fixpoint cmd_lookup_loop (fuel : nat) (nm : list ascii) (lo hi : Z)
  : option CmdEntry :=
  match fuel with
  | O => None
  | S f =>
      if lo <=? hi then
        let mid := lo + (hi - lo) / 2 in
        match cmd_table !! Z.to_nat mid with
        | None => None
        | Some e =>
            let cmp := strcmp nm (name e) in
            if cmp <? 0 then cmd_lookup_loop f nm lo (mid - 1)
            else if 0 <? cmp then cmd_lookup_loop f nm (mid + 1) hi
            else Some e
        end
      else None
  end.

Definition cmd_lookup (nm : list ascii) : option CmdEntry :=
  cmd_lookup_loop (S (length cmd_table)) nm 0 (cmd_table_len - 1).

(** [cmd_dispatch]: the return code and the world after the handler ran.
    The table gives every entry the handler its [arg_type] asks for. *)
Definition cmd_dispatch (ctx : CmdCtx) (text : list ascii) (env : Env) (w : World)
  : Z * World :=
  if negb (is_char "/" (peek text)) then (0, w)
  else
    match parse_command text 64 (bot_username ctx) with
    | None => (0, w)
    | Some (cmd, args) =>
        match cmd_lookup cmd with
        | None => (0, w)
        | Some entry =>
            match arg_type entry with
            | CMD_HASARG =>
                (1, match fn_arg entry with Some f => f ctx args env w | None => w end)
            | CMD_NOARG =>
                (1, match fn_noarg entry with Some f => f ctx env w | None => w end)
            end
        end
    end.

(** *** Dispatch with an unknown bot name *)

(** With no user name known, the name before the [@] is kept and the
    suffix is passed over without a comparison. *)
Lemma parse_command_help_suffix (s : list ascii) :
  parse_command (lit "/help@" ++ s) 64 None =
  Some (lit "help", skip_blanks (snd (scan_until (is_char " ") s))).
Proof.
  unfold parse_command. cbn -[scan_until skip_blanks].
  change (advance 1 ("/"%char :: "h"%char :: "e"%char :: "l"%char :: "p"%char :: "@"%char :: s))
    with ("h"%char :: "e"%char :: "l"%char :: "p"%char :: "@"%char :: s).
  cbn [scan_until]. cbn -[scan_until skip_blanks].
  change (drop 0 s) with s.
  destruct (scan_until (is_char " ") s) as [suffix at_end]. reflexivity.
Qed.

Lemma cmd_lookup_help :
  cmd_lookup (lit "help") =
  Some {| name := lit "help"; arg_type := CMD_NOARG;
          fn_noarg := Some cmd_help; fn_arg := None |}.
Proof. reflexivity. Qed.

(** C10. When the bot user name is NULL, a message ["/help@" ++ s] is
    dispatched to the help handler whatever the suffix [s] is: the suffix is
    skipped without comparison and [cmd_dispatch] returns 1 (handled). *)
Theorem help_with_any_suffix (ctx : CmdCtx) (s : list ascii) (env : Env)
    (w : World) :
  bot_username ctx = None ->
  (exists args, parse_command (lit "/help@" ++ s) 64 (bot_username ctx) =
                Some (lit "help", args)) /\
  cmd_dispatch ctx (lit "/help@" ++ s) env w = (1, cmd_help ctx env w).
Proof.
  intros Hbot. rewrite Hbot. split.
  - rewrite parse_command_help_suffix. eauto.
  - unfold cmd_dispatch. rewrite Hbot, parse_command_help_suffix.
    change (is_char "/" (peek (lit "/help@" ++ s))) with true. cbn [negb].
    rewrite cmd_lookup_help. reflexivity.
Qed.

Lemma help_with_any_suffix_witness :
  let ctx := {| cfg := {| admin_user_id := 0 |}; sender_id := 42; chat_id := 42;
                bot_username := None; boot_time := 0%float; worker_count := 1 |} in
  let env := {| now1 := 0%float; now2 := 0%float; uptime := 0; save_ok := true |} in
  let w := {| queue := Queue.queue_init 8; wl := {| Whitelist.ids := [] |};
              wl_file := Some [] |} in
  bot_username ctx = None /\
  cmd_dispatch ctx (lit "/help@" ++ lit "otherbot now") env w =
  (1, cmd_help ctx env w).
Proof.
  intros ctx env w. split; [reflexivity|].
  exact (proj2 (help_with_any_suffix ctx (lit "otherbot now") env w eq_refl)).
Defined.

(** *** The command table *)

Definition entry_allow : CmdEntry :=
  {| name := lit "allow"; arg_type := CMD_HASARG;
     fn_noarg := None; fn_arg := Some cmd_allow |}.
Definition entry_help : CmdEntry :=
  {| name := lit "help"; arg_type := CMD_NOARG;
     fn_noarg := Some cmd_help; fn_arg := None |}.
Definition entry_revoke : CmdEntry :=
  {| name := lit "revoke"; arg_type := CMD_HASARG;
     fn_noarg := None; fn_arg := Some cmd_revoke |}.
Definition entry_start : CmdEntry :=
  {| name := lit "start"; arg_type := CMD_NOARG;
     fn_noarg := Some cmd_start; fn_arg := None |}.
Definition entry_status : CmdEntry :=
  {| name := lit "status"; arg_type := CMD_NOARG;
     fn_noarg := Some cmd_status; fn_arg := None |}.

(** The comparisons the binary search makes on the five entries. *)
Lemma cmd_lookup_unfold nm :
  cmd_lookup nm =
  if strcmp nm (lit "revoke") <? 0 then
    if strcmp nm (lit "allow") <? 0 then None
    else if 0 <? strcmp nm (lit "allow") then
      if strcmp nm (lit "help") <? 0 then None
      else if 0 <? strcmp nm (lit "help") then None
      else Some entry_help
    else Some entry_allow
  else if 0 <? strcmp nm (lit "revoke") then
    if strcmp nm (lit "start") <? 0 then None
    else if 0 <? strcmp nm (lit "start") then
      if strcmp nm (lit "status") <? 0 then None
      else if 0 <? strcmp nm (lit "status") then None
      else Some entry_status
    else Some entry_start
  else Some entry_revoke.
Proof.
  reflexivity.
Qed.

Lemma strcmp_c_str_l a b : strcmp a b = strcmp (c_str a) b.
Proof.
  revert b. induction a as [|ca a IH]; intros b; [reflexivity|].
  rewrite c_str_cons. cbn [strcmp].
  destruct (Ascii.eqb ca (peek b)) eqn:E; cbn [negb].
  - destruct (is_nul ca) eqn:N.
    + cbn [strcmp]. apply Ascii.eqb_eq in E. apply is_nul_spec in N.
      rewrite <- E, N. reflexivity.
    + cbn [strcmp]. rewrite E, N. cbn [negb]. apply IH.
  - destruct (is_nul ca) eqn:N.
    + cbn [strcmp]. apply is_nul_spec in N. now rewrite N.
    + cbn [strcmp]. rewrite E. reflexivity.
Qed.

Lemma cmd_lookup_spec nm e :
  cmd_lookup nm = Some e <-> e ∈ cmd_table /\ c_str nm = name e.
Proof.
  split.
  - rewrite cmd_lookup_unfold. intros H.
    repeat match type of H with
           | (if ?z <? 0 then _ else _) = _ =>
               destruct (Z.ltb_spec z 0); [try discriminate H|]
           | (if 0 <? ?z then _ else _) = _ =>
               destruct (Z.ltb_spec 0 z); [try discriminate H|]
           end;
      injection H as <-;
      (split; [unfold cmd_table; repeat constructor
              |match goal with
               | |- c_str nm = name ?e =>
                   change (name e) with (c_str (name e)); apply strcmp_eq;
                   cbn [name entry_allow entry_help entry_revoke entry_start
                        entry_status]; lia
               end]).
  - intros [Hin Hnm]. rewrite cmd_lookup_unfold.
    rewrite !(strcmp_c_str_l nm), Hnm.
    unfold cmd_table in Hin.
    repeat (apply elem_of_cons in Hin as [->|Hin]; [reflexivity|]).
    now apply not_elem_of_nil in Hin.
Qed.

(** X10. The binary search of [cmd_lookup] finds an entry exactly for the
    five names of the table, compared as whole strings: the entry returned
    is in the table and carries the name looked up, and every name of the
    table is found. *)
Theorem cmd_lookup_exact nm e :
  cmd_lookup nm = Some e <-> e ∈ cmd_table /\ c_str nm = name e.
Proof. exact (cmd_lookup_spec nm e). Qed.

(** What [cmd_lookup] can return. *)
Lemma cmd_lookup_cases nm :
  cmd_lookup nm = None \/ cmd_lookup nm = Some entry_allow \/
  cmd_lookup nm = Some entry_help \/ cmd_lookup nm = Some entry_revoke \/
  cmd_lookup nm = Some entry_start \/ cmd_lookup nm = Some entry_status.
Proof.
  rewrite cmd_lookup_unfold.
  repeat match goal with
         | |- context [if ?c then _ else _] => destruct c
         end; auto 10.
Qed.

(** X11. [cmd_dispatch] returns 0 or 1; when it returns 0 no handler ran
    and the queue, the access list and its file are as before; it returns
    1 exactly when the text starts with a slash, [parse_command] accepts it
    and the name parsed is one of the table. *)
Theorem dispatch_return_code ctx text env w :
  let r := cmd_dispatch ctx text env w in
  (r = (0, w) \/ fst r = 1) /\
  (fst r = 1 <->
   peek text = "/"%char /\
   exists cmd args e,
     parse_command text 64 (bot_username ctx) = Some (cmd, args) /\
     e ∈ cmd_table /\ c_str cmd = name e).
Proof.
  cbn zeta. unfold cmd_dispatch.
  destruct (is_char "/" (peek text)) eqn:Hs; cbn [negb].
  2:{ split; [left; reflexivity|]. split; [discriminate|].
      intros [Hp _]. unfold is_char in Hs. rewrite Hp in Hs. discriminate. }
  assert (Hp : peek text = "/"%char) by (apply Ascii.eqb_eq; exact Hs).
  destruct (parse_command text 64 (bot_username ctx)) as [[cmd args]|].
  2:{ split; [left; reflexivity|]. split; [discriminate|].
      intros (_ & c & a & e & H & _). discriminate. }
  destruct (cmd_lookup cmd) as [entry|] eqn:Hl.
  - apply cmd_lookup_spec in Hl as [Hin Hnm].
    assert (H1 : forall x y, fst (match arg_type entry with
                                  | CMD_NOARG => (1, x)
                                  | CMD_HASARG => (1, y)
                                  end : Z * World) = 1)
      by (intros; destruct (arg_type entry); reflexivity).
    split; [right; apply H1|]. split; [|intros; apply H1].
    intros _. split; [exact Hp|]. exists cmd, args, entry. auto.
  - split; [left; reflexivity|]. split; [discriminate|].
    intros (_ & c & a & e & H & Hin & Hnm). injection H as <- <-.
    assert (Hs' : cmd_lookup cmd = Some e) by (apply cmd_lookup_spec; auto).
    congruence.
Qed.

Lemma push_keeps_wl u c m now w :
  wl (push u c m now w) = wl w /\ wl_file (push u c m now w) = wl_file w.
Proof. split; reflexivity. Qed.

(** X12. A sender who is not the administrator (or any sender when no
    administrator is configured) cannot change the access list: whatever
    the text, after [cmd_dispatch] the list and its file are as before. *)
Theorem non_admin_keeps_whitelist ctx text env w :
  not_admin ctx = true ->
  wl (snd (cmd_dispatch ctx text env w)) = wl w /\
  wl_file (snd (cmd_dispatch ctx text env w)) = wl_file w.
Proof.
  intros Hna. unfold cmd_dispatch.
  destruct (negb (is_char "/" (peek text))); [split; reflexivity|].
  destruct (parse_command text 64 (bot_username ctx)) as [[cmd args]|];
    [|split; reflexivity].
  destruct (cmd_lookup_cases cmd) as [H|[H|[H|[H|[H|H]]]]]; rewrite H;
    cbn [arg_type fn_arg fn_noarg entry_allow entry_help entry_revoke
         entry_start entry_status snd];
    try (split; reflexivity).
  - unfold cmd_allow. rewrite Hna. apply push_keeps_wl.
  - unfold cmd_revoke. rewrite Hna. apply push_keeps_wl.
  - unfold cmd_status. rewrite Hna. apply push_keeps_wl.
Qed.

Lemma non_admin_keeps_whitelist_witness :
  let ctx := {| cfg := {| admin_user_id := 1 |}; sender_id := 42; chat_id := 42;
                bot_username := None; boot_time := 0%float; worker_count := 1 |} in
  let env := {| now1 := 0%float; now2 := 0%float; uptime := 0; save_ok := true |} in
  let w := {| queue := Queue.queue_init 8; wl := {| Whitelist.ids := [5] |};
              wl_file := Some [] |} in
  wl (snd (cmd_dispatch ctx (lit "/revoke 5") env w)) = wl w /\
  wl_file (snd (cmd_dispatch ctx (lit "/revoke 5") env w)) = wl_file w.
Proof.
  intros ctx env w. apply (non_admin_keeps_whitelist ctx (lit "/revoke 5") env w).
  reflexivity.
Defined.

Lemma scan_until_app stop w r :
  Forall (fun c => is_nul c = false /\ stop c = false) w ->
  is_nul (peek r) || stop (peek r) = true ->
  scan_until stop (w ++ r) = (w, r).
Proof.
  intros Hw Hr. induction Hw as [|c w [Hc1 Hc2] _ IH].
  - destruct r as [|c r]; [reflexivity|]. simpl in *. now rewrite Hr.
  - cbn [app scan_until]. rewrite Hc1, Hc2, IH. reflexivity.
Qed.

Lemma c_str_app w r :
  Forall (fun c => is_nul c = false) w -> c_str (w ++ r) = w ++ c_str r.
Proof.
  induction 1 as [|c w Hc _ IH]; [reflexivity|].
  cbn [app]. rewrite c_str_cons, Hc, IH. reflexivity.
Qed.

Lemma is_nul_false c : c <> NUL -> is_nul c = false.
Proof.
  intros H. destruct (is_nul c) eqn:E; [|reflexivity].
  apply is_nul_spec in E. contradiction.
Qed.

Lemma is_char_false x c : c <> x -> is_char x c = false.
Proof. intros H. apply Ascii.eqb_neq. exact H. Qed.

#[local] Instance ascii_eq_decision : EqDecision ascii := Ascii.ascii_dec.

(** [parse_command] on a command with a bot suffix. *)
Lemma parse_command_suffix uname cmd suffix tail :
  cmd <> [] -> (length cmd < 64)%nat ->
  Forall (fun c => c <> NUL /\ c <> " "%char /\ c <> "@"%char) cmd ->
  Forall (fun c => c <> NUL /\ c <> " "%char) suffix ->
  peek tail = NUL \/ peek tail = " "%char ->
  parse_command (lit "/" ++ cmd ++ lit "@" ++ suffix ++ tail) 64 (Some uname) =
  if bool_decide (map tolower suffix = map tolower (c_str uname))
  then Some (cmd, skip_blanks tail) else None.
Proof.
  intros Hne Hlen Hcmd Hsuf Htail. unfold parse_command.
  change (peek (lit "/" ++ cmd ++ lit "@" ++ suffix ++ tail)) with "/"%char.
  change (is_char "/" "/") with true. cbn [negb].
  change (advance 1 (lit "/" ++ cmd ++ lit "@" ++ suffix ++ tail))
    with (cmd ++ "@"%char :: suffix ++ tail).
  rewrite (scan_until_app _ cmd ("@"%char :: suffix ++ tail)).
  2:{ eapply Forall_impl; [exact Hcmd|]. intros c (H1 & H2 & H3). simpl.
      now rewrite (is_nul_false c H1), (is_char_false _ c H2), (is_char_false _ c H3). }
  2:{ reflexivity. }
  destruct (Nat.eqb_spec (length cmd) 0) as [E|_].
  { destruct cmd; [congruence|discriminate E]. }
  destruct (Nat.leb_spec 64 (length cmd)) as [E|_]; [lia|]. cbn [orb].
  change (is_char "@" (peek ("@"%char :: suffix ++ tail))) with true. cbv iota.
  change (advance 1 ("@"%char :: suffix ++ tail)) with (suffix ++ tail).
  rewrite (scan_until_app _ suffix tail).
  2:{ eapply Forall_impl; [exact Hsuf|]. intros c (H1 & H2). simpl.
      now rewrite (is_nul_false c H1), (is_char_false _ c H2). }
  2:{ destruct Htail as [-> | ->]; reflexivity. }
  assert (Hcs : c_str (suffix ++ tail) = suffix ++ c_str tail).
  { apply c_str_app. eapply Forall_impl; [exact Hsuf|].
    intros c [H1 _]. now apply is_nul_false. }
  destruct (Nat.eqb_spec (length suffix) (strlen uname)) as [El|El]; cbn [andb].
  - destruct (Z.eqb_spec (strncasecmp (suffix ++ tail) uname (strlen uname)) 0)
      as [Ec|Ec].
    + rewrite bool_decide_eq_true_2; [reflexivity|].
      apply strncasecmp_eq in Ec. rewrite Hcs, <- El in Ec.
      rewrite take_app_length in Ec. rewrite Ec, El, <- strlen_c_str.
      now rewrite firstn_all.
    + rewrite bool_decide_eq_false_2; [reflexivity|]. intros Heq. apply Ec.
      apply strncasecmp_eq. rewrite Hcs, <- El, take_app_length, Heq, El.
      rewrite <- strlen_c_str. now rewrite firstn_all.
  - rewrite bool_decide_eq_false_2; [reflexivity|]. intros Heq. apply El.
    apply (f_equal (@length _)) in Heq. rewrite !length_map, strlen_c_str in Heq.
    exact Heq.
Qed.

(** X13. With the bot's user name known, a command with an [@] suffix is
    taken only when the suffix is that name in any letter case: then the
    suffix is skipped and the arguments follow; for any other suffix
    [parse_command] gives NULL and [cmd_dispatch] returns 0 without
    touching anything. *)
Theorem suffix_must_name_this_bot ctx uname cmd suffix tail env w :
  bot_username ctx = Some uname ->
  cmd <> [] -> (length cmd < 64)%nat ->
  Forall (fun c => c <> NUL /\ c <> " "%char /\ c <> "@"%char) cmd ->
  Forall (fun c => c <> NUL /\ c <> " "%char) suffix ->
  peek tail = NUL \/ peek tail = " "%char ->
  let text := lit "/" ++ cmd ++ lit "@" ++ suffix ++ tail in
  (map tolower suffix = map tolower (c_str uname) ->
   parse_command text 64 (bot_username ctx) = Some (cmd, skip_blanks tail)) /\
  (map tolower suffix <> map tolower (c_str uname) ->
   parse_command text 64 (bot_username ctx) = None /\
   cmd_dispatch ctx text env w = (0, w)).
Proof.
  intros Hbot Hne Hlen Hcmd Hsuf Htail text.
  pose proof (parse_command_suffix uname cmd suffix tail Hne Hlen Hcmd Hsuf Htail)
    as Hp. fold text in Hp. rewrite Hbot. split.
  - intros Heq. rewrite Hp. now rewrite bool_decide_eq_true_2.
  - intros Hneq. rewrite bool_decide_eq_false_2 in Hp by exact Hneq.
    split; [exact Hp|]. unfold cmd_dispatch. rewrite Hbot, Hp.
    destruct (negb (is_char "/" (peek text))); reflexivity.
Qed.

Lemma suffix_must_name_this_bot_witness :
  let ctx := {| cfg := {| admin_user_id := 1 |}; sender_id := 42; chat_id := 42;
                bot_username := Some (lit "TgBot"); boot_time := 0%float;
                worker_count := 1 |} in
  let env := {| now1 := 0%float; now2 := 0%float; uptime := 0; save_ok := true |} in
  let w := {| queue := Queue.queue_init 8; wl := {| Whitelist.ids := [] |};
              wl_file := Some [] |} in
  let text := lit "/" ++ lit "help" ++ lit "@" ++ lit "tgbot" ++ lit " now" in
  (map tolower (lit "tgbot") = map tolower (c_str (lit "TgBot")) ->
   parse_command text 64 (bot_username ctx) =
   Some (lit "help", skip_blanks (lit " now"))) /\
  (map tolower (lit "tgbot") <> map tolower (c_str (lit "TgBot")) ->
   parse_command text 64 (bot_username ctx) = None /\
   cmd_dispatch ctx text env w = (0, w)).
Proof.
  intros ctx env w.
  apply (suffix_must_name_this_bot ctx (lit "TgBot") (lit "help") (lit "tgbot")
           (lit " now") env w).
  - reflexivity.
  - discriminate.
  - simpl. lia.
  - repeat (constructor; [repeat split; discriminate|]). constructor.
  - repeat (constructor; [repeat split; discriminate|]). constructor.
  - right. reflexivity.
Defined.

Lemma digits_split_all ds : forall acc,
  Forall (fun c => isdigit c = true) ds ->
  digits_split ds acc = (Whitelist.digits_value ds acc, []).
Proof.
  induction ds as [|c ds IH]; intros acc H; [reflexivity|].
  apply Forall_cons in H as [Hc H]. cbn [digits_split]. rewrite Hc.
  rewrite IH by exact H. reflexivity.
Qed.

Lemma isdigit_not_nul c : isdigit c = true -> is_nul c = false.
Proof.
  intros H. destruct (is_nul c) eqn:E; [|reflexivity].
  apply is_nul_spec in E. subst c. discriminate H.
Qed.

(** The text [%ld] prints for a target is accepted by the argument check
    and gives the target back. *)
Lemma parse_target_print t :
  Whitelist.is_int64 t -> t <> 0 ->
  parse_target (Whitelist.print_i64 t) = Some t /\
  is_nul (peek (Whitelist.print_i64 t)) = false /\
  skip_blanks (Whitelist.print_i64 t) = Whitelist.print_i64 t.
Proof.
  unfold Whitelist.is_int64, Whitelist.INT64_MIN, Whitelist.INT64_MAX.
  intros Hv Hnz. unfold parse_target, strtoll, Whitelist.print_i64.
  destruct (Z.ltb_spec t 0) as [Hneg|Hpos].
  - assert (Hn : 0 <= - t <= 2 ^ 63) by lia.
    destruct (Whitelist.print_digits_head 20 (- t))
      as (c & rest & He & Hc & Hs & Hm & Hp); [lia..|].
    pose proof (Whitelist.print_digits_digits 20 (- t) (proj1 Hn)) as Hds.
    destruct (Whitelist.print_digits_value 20 (- t) 0 (Whitelist.int64_lt_pow _ Hn))
      as (k & Hk & _); [lia|].
    rewrite He in *. cbn [Whitelist.skip_space].
    change (isspace "-"%char) with false. cbv iota.
    change (is_char "-" "-") with true. cbv iota. cbn [peek]. rewrite Hc.
    rewrite digits_split_all
      by (eapply Forall_impl; [exact Hds|]; intros x [Hx _]; exact Hx).
    rewrite Hk. cbn [negb orb peek].
    unfold Whitelist.INT64_MIN, Whitelist.INT64_MAX.
    replace (0 * 10 ^ k + - t) with (- t) by lia.
    replace (- - t) with t by lia.
    destruct (Z.ltb_spec t (- 2 ^ 63)); [lia|].
    destruct (Z.ltb_spec (2 ^ 63 - 1) t); [lia|]. cbn [orb].
    replace (Z.max (- 2 ^ 63) (Z.min (2 ^ 63 - 1) t)) with t by lia.
    destruct (Z.eqb_spec t 0); [lia|]. change (is_nul NUL) with true.
    cbn [negb orb]. split; [reflexivity|]. split; reflexivity.
  - assert (Hn : 0 <= t <= 2 ^ 63) by lia.
    destruct (Whitelist.print_digits_head 20 t)
      as (c & rest & He & Hc & Hs & Hm & Hp); [lia..|].
    pose proof (Whitelist.print_digits_digits 20 t (proj1 Hn)) as Hds.
    destruct (Whitelist.print_digits_value 20 t 0 (Whitelist.int64_lt_pow _ Hn))
      as (k & Hk & _); [lia|].
    rewrite He in *. cbn [Whitelist.skip_space]. rewrite Hs.
    rewrite (is_char_false _ c Hm), (is_char_false _ c Hp). cbn [peek].
    rewrite Hc.
    rewrite digits_split_all
      by (eapply Forall_impl; [exact Hds|]; intros x [Hx _]; exact Hx).
    rewrite Hk. cbn [negb orb peek].
    unfold Whitelist.INT64_MIN, Whitelist.INT64_MAX.
    replace (0 * 10 ^ k + t) with t by lia.
    destruct (Z.ltb_spec t (- 2 ^ 63)); [lia|].
    destruct (Z.ltb_spec (2 ^ 63 - 1) t); [lia|]. cbn [orb].
    replace (Z.max (- 2 ^ 63) (Z.min (2 ^ 63 - 1) t)) with t by lia.
    destruct (Z.eqb_spec t 0); [lia|]. change (is_nul NUL) with true.
    cbn [negb orb]. split; [reflexivity|].
    split; [now apply isdigit_not_nul|].
    cbn [skip_blanks]. assert (Hsp : is_char " " c = false).
    { apply is_char_false. intros ->. discriminate Hs. }
    now rewrite Hsp.
Qed.

(** X14. [/allow <id>] from the administrator, for a non-zero identifier
    that is not yet listed while the list has room: [cmd_dispatch] returns
    1 and the identifier is on the list in memory afterwards.  When the
    save succeeds the file holds the new list and two messages are pushed,
    the confirmation for the administrator and then the welcome for the
    new user; when the save fails the file is as before and the one
    message pushed tells the administrator that adding failed. *)
Theorem allow_adds_and_notifies ctx t env w :
  admin_user_id (cfg ctx) <> 0 -> sender_id ctx = admin_user_id (cfg ctx) ->
  Whitelist.is_int64 t -> t <> 0 ->
  StronglySorted Z.le (Whitelist.ids (wl w)) ->
  t ∉ Whitelist.ids (wl w) ->
  Whitelist.count (wl w) < Whitelist.WHITELIST_MAX ->
  let r := cmd_dispatch ctx (lit "/allow " ++ Whitelist.print_i64 t) env w in
  fst r = 1 /\
  Whitelist.whitelist_contains (wl (snd r)) t = true /\
  Whitelist.ids (wl (snd r)) ≡ₚ t :: Whitelist.ids (wl w) /\
  (save_ok env = true ->
   wl_file (snd r) = Some (Whitelist.render (Whitelist.ids (wl (snd r)))) /\
   queue (snd r) =
     snd (Queue.queue_push t t (lit "You have been granted access to this bot.")
            (now2 env)
            (snd (Queue.queue_push (sender_id ctx) (chat_id ctx)
                    (lit "User " ++ Whitelist.print_i64 t ++
                     lit " added to whitelist.") (now1 env) (queue w))))) /\
  (save_ok env = false ->
   wl_file (snd r) = wl_file w /\
   queue (snd r) =
     snd (Queue.queue_push (sender_id ctx) (chat_id ctx)
            (lit "Failed to add user (whitelist full?).") (now1 env) (queue w))).
Proof.
  intros Hadm Hsender Hint Hnz Hsorted Hnew Hroom r. subst r.
  destruct (parse_target_print t Hint Hnz) as (Hpt & Hnn & Hsb).
  assert (Hparse : parse_command (lit "/allow " ++ Whitelist.print_i64 t) 64
                     (bot_username ctx) =
                   Some (lit "allow", Whitelist.print_i64 t)).
  { unfold parse_command.
    change (peek (lit "/allow " ++ Whitelist.print_i64 t)) with "/"%char.
    change (is_char "/" "/") with true. cbn [negb].
    change (advance 1 (lit "/allow " ++ Whitelist.print_i64 t))
      with (lit "allow" ++ " "%char :: Whitelist.print_i64 t).
    rewrite (scan_until_app _ (lit "allow") (" "%char :: Whitelist.print_i64 t));
      [|repeat (constructor; [split; reflexivity|]); constructor|reflexivity].
    change (is_char "@" (peek (" "%char :: Whitelist.print_i64 t))) with false.
    cbn [length lit list_ascii_of_string Nat.eqb Nat.leb orb]. cbv iota.
    cbn [skip_blanks]. change (is_char " " " ") with true. cbv iota.
    now rewrite Hsb. }
  unfold cmd_dispatch.
  change (peek (lit "/allow " ++ Whitelist.print_i64 t)) with "/"%char.
  change (is_char "/" "/") with true. cbn [negb]. rewrite Hparse.
  change (cmd_lookup (lit "allow")) with (Some entry_allow).
  cbn [arg_type fn_arg entry_allow fst snd].
  unfold cmd_allow.
  assert (Hna : not_admin ctx = false).
  { unfold not_admin. rewrite Hsender, Z.eqb_refl.
    destruct (Z.eqb_spec (admin_user_id (cfg ctx)) 0); [contradiction|reflexivity]. }
  rewrite Hna, Hnn, Hpt.
  pose proof (Whitelist.whitelist_add_spec (save_ok env) (wl w) (wl_file w) t
                Hsorted) as Hadd.
  cbn zeta in Hadd. destruct Hadd as (Hs' & _ & _ & Hok).
  destruct (Hok Hnew Hroom) as (Hrc & Hperm & _ & Hfile).
  destruct (Whitelist.whitelist_add (save_ok env) (wl w) (wl_file w) t)
    as [[rc wl'] f'].
  cbn [fst snd] in *. subst rc.
  destruct (save_ok env); cbn [Z.eqb]; cbv iota; cbn [push wl wl_file queue].
  - split; [reflexivity|]. split.
    { apply Whitelist.contains_spec; [exact Hs'|]. rewrite Hperm. constructor. }
    split; [exact Hperm|]. split; [intros _; split; [exact Hfile|reflexivity]|].
    discriminate.
  - split; [reflexivity|]. split.
    { apply Whitelist.contains_spec; [exact Hs'|]. rewrite Hperm. constructor. }
    split; [exact Hperm|]. split; [discriminate|].
    intros _. split; [exact Hfile|reflexivity].
Qed.

Lemma allow_adds_and_notifies_witness :
  let ctx := {| cfg := {| admin_user_id := 1 |}; sender_id := 1; chat_id := 10;
                bot_username := None; boot_time := 0%float; worker_count := 1 |} in
  let env := {| now1 := 0%float; now2 := 0%float; uptime := 0;
                save_ok := false |} in
  let w := {| queue := Queue.queue_init 8; wl := {| Whitelist.ids := [5] |};
              wl_file := Some [] |} in
  let r := cmd_dispatch ctx (lit "/allow " ++ Whitelist.print_i64 888) env w in
  fst r = 1 /\
  Whitelist.whitelist_contains (wl (snd r)) 888 = true /\
  Whitelist.ids (wl (snd r)) ≡ₚ 888 :: Whitelist.ids (wl w) /\
  (save_ok env = true ->
   wl_file (snd r) = Some (Whitelist.render (Whitelist.ids (wl (snd r)))) /\
   queue (snd r) =
     snd (Queue.queue_push 888 888 (lit "You have been granted access to this bot.")
            (now2 env)
            (snd (Queue.queue_push (sender_id ctx) (chat_id ctx)
                    (lit "User " ++ Whitelist.print_i64 888 ++
                     lit " added to whitelist.") (now1 env) (queue w))))) /\
  (save_ok env = false ->
   wl_file (snd r) = wl_file w /\
   queue (snd r) =
     snd (Queue.queue_push (sender_id ctx) (chat_id ctx)
            (lit "Failed to add user (whitelist full?).") (now1 env) (queue w))).
Proof.
  intros ctx env w.
  apply (allow_adds_and_notifies ctx 888 env w).
  - simpl. lia.
  - reflexivity.
  - unfold Whitelist.is_int64, Whitelist.INT64_MIN, Whitelist.INT64_MAX. lia.
  - lia.
  - simpl. repeat constructor.
  - simpl. intros H. apply elem_of_cons in H as [H|H]; [lia|].
    now apply not_elem_of_nil in H.
  - vm_compute. reflexivity.
Defined.

End Commands.

(** ** Reasoning-block stripping (src/llm.c) *)

Module Llm.
Import CStr.

Definition is_char (x : ascii) (c : ascii) : bool := Ascii.eqb c x.

(** [p < end && *p == x] for a pointer into the text. *)
Definition at_char (x : ascii) (p : list ascii) : bool :=
  match p with
  | [] => false
  | c :: _ => is_char x c
  end.

(** The inner search for the closing tag, from [close] on: the new [src],
    which is [end] when no closing tag is found. *)
Fixpoint find_close (close : list ascii) : list ascii :=
  match close with
  | [] => []
  | c :: rest =>
      if is_char "<" c && (8 <=? length close)%nat &&
         (strncasecmp close (lit "</think>") 8 =? 0)
      then advance 8 close
      else find_close rest
  end.

(** The copy loop of [llm_strip_think_tags] from [src] on: the bytes it
    writes through [dst].  Every iteration moves [src] forward, so [fuel] =
    length of the text is never used up. *)
Fixpoint strip_loop (fuel : nat) (src : list ascii) : list ascii :=
  match fuel with
  | O => []
  | S f =>
      match src with
      | [] => []
      | c :: rest =>
          if is_char "<" c && (7 <=? length src)%nat &&
             (strncasecmp src (lit "<think") 6 =? 0)
          then
            let after_tag := advance 6 src in
            (* self-closing: the tag followed by "/>" *)
            let slash := at_char "/" after_tag in
            let after_tag' := if slash then advance 1 after_tag else after_tag in
            if slash && at_char ">" after_tag' then strip_loop f (advance 1 after_tag')
            else if at_char " " after_tag' && at_char "/" (advance 1 after_tag') &&
                    at_char ">" (advance 2 after_tag')
            then strip_loop f (advance 3 after_tag')
            else if at_char ">" after_tag'
            then strip_loop f (find_close (advance 1 after_tag'))
            else c :: strip_loop f rest
          else c :: strip_loop f rest
      end
  end.

(** The white space the trimming loops pass over. *)
Definition is_ws (c : ascii) : bool :=
  is_char " " c || is_char "009" c || is_char "010" c || is_char "013" c.

Fixpoint trim_left (p : list ascii) : list ascii :=
  match p with
  | [] => []
  | c :: p' => if is_ws c then trim_left p' else p
  end.

Definition trim_right (p : list ascii) : list ascii :=
  rev (trim_left (rev p)).

(** [llm_strip_think_tags] on a non-NULL buffer: the text left in the
    buffer; the value returned is its length. *)
Definition llm_strip_think_tags (text : list ascii) : list ascii :=
  let s := c_str text in
  trim_right (trim_left (strip_loop (length s) s)).

Definition llm_strip_len (text : list ascii) : Z :=
  Z.of_nat (length (llm_strip_think_tags text)).


(** *** What the stripping leaves behind *)

(** C5 (the code breaks it). On a nested block the scan pairs the first
    opening tag with the first closing tag: the text left still ends in a
    closing tag (and holds the inner reasoning text [c]). *)
Theorem strip_nested_leaves_closing_tag :
  llm_strip_think_tags (lit "<think>a<think>b</think>c</think>") =
  lit "c</think>".
Proof. vm_compute. reflexivity. Qed.

(** Bytes around a self-closing tag join into a new opening tag, and a
    closing tag without an opening one is kept. *)
Lemma strip_joins_and_keeps_tags :
  llm_strip_think_tags (lit "<thi<think/>nk>x</think>") = lit "<think>x</think>" /\
  llm_strip_think_tags (lit "x</think>") = lit "x</think>".
Proof. split; vm_compute; reflexivity. Qed.

(** *** Length and trimming *)

Lemma find_close_length l : (length (find_close l) <= length l)%nat.
Proof.
  induction l as [|c l IH]; [reflexivity|]. cbn [find_close].
  destruct (_ && _ && _).
  - unfold advance. rewrite length_drop. lia.
  - simpl. lia.
Qed.

Lemma strip_loop_length fuel : forall src,
  (length (strip_loop fuel src) <= length src)%nat.
Proof.
  induction fuel as [|f IH]; intros src; [simpl; lia|].
  destruct src as [|c rest]; [reflexivity|]. cbn [strip_loop].
  assert (Hadv : forall k l, (length (strip_loop f (advance k l)) <= length l)%nat).
  { intros k l. specialize (IH (advance k l)). unfold advance in *.
    rewrite length_drop in IH. lia. }
  assert (Hcopy : (length (c :: strip_loop f rest) <= length (c :: rest))%nat).
  { simpl. specialize (IH rest). lia. }
  destruct (_ && _ && _); [|exact Hcopy].
  set (after_tag := advance 6 (c :: rest)).
  assert (Hat : (length after_tag <= length (c :: rest))%nat).
  { unfold after_tag, advance. rewrite length_drop. lia. }
  set (after_tag' := if at_char "/" after_tag then advance 1 after_tag
                     else after_tag).
  assert (Hat' : (length after_tag' <= length (c :: rest))%nat).
  { unfold after_tag'. destruct (at_char "/" after_tag); [|exact Hat].
    unfold advance. rewrite length_drop. lia. }
  destruct (_ && _).
  { specialize (Hadv 1%nat after_tag'). lia. }
  destruct (_ && _ && _).
  { specialize (Hadv 3%nat after_tag'). lia. }
  destruct (at_char ">" after_tag'); [|exact Hcopy].
  specialize (IH (find_close (advance 1 after_tag'))).
  pose proof (find_close_length (advance 1 after_tag')) as Hf.
  unfold advance in *. rewrite length_drop in Hf. lia.
Qed.

Lemma trim_left_length p : (length (trim_left p) <= length p)%nat.
Proof.
  induction p as [|c p IH]; [reflexivity|]. cbn [trim_left].
  destruct (is_ws c); simpl; lia.
Qed.

Lemma trim_left_idem p : trim_left (trim_left p) = trim_left p.
Proof.
  induction p as [|c p IH]; [reflexivity|]. cbn [trim_left].
  destruct (is_ws c) eqn:E; [exact IH|]. cbn [trim_left]. now rewrite E.
Qed.

Lemma trim_left_snoc l c :
  is_ws c = false -> trim_left (l ++ [c]) = trim_left l ++ [c].
Proof.
  intros Hc. induction l as [|a l IH].
  - simpl. now rewrite Hc.
  - cbn [app trim_left]. destruct (is_ws a); [exact IH|reflexivity].
Qed.

Lemma trim_right_keeps_head p :
  trim_left p = p -> trim_left (trim_right p) = trim_right p.
Proof.
  intros H. destruct p as [|c p]; [reflexivity|].
  cbn [trim_left] in H. destruct (is_ws c) eqn:E.
  - exfalso. pose proof (trim_left_length p) as Hl. rewrite H in Hl.
    simpl in Hl. lia.
  - unfold trim_right. cbn [rev]. rewrite trim_left_snoc by exact E.
    rewrite rev_app_distr. cbn [rev app trim_left]. now rewrite E.
Qed.

(** X15. The text left by [llm_strip_think_tags] is never longer than the
    string it was given, so the copy stays inside the buffer, and it has no
    white space at either end: it is unchanged by both trimming loops. *)
Theorem strip_result_bounded_and_trimmed text :
  (length (llm_strip_think_tags text) <= strlen text)%nat /\
  trim_left (llm_strip_think_tags text) = llm_strip_think_tags text /\
  trim_right (llm_strip_think_tags text) = llm_strip_think_tags text.
Proof.
  unfold llm_strip_think_tags.
  set (s := strip_loop (length (c_str text)) (c_str text)).
  split; [|split].
  - unfold trim_right. rewrite length_rev.
    pose proof (trim_left_length (rev (trim_left s))) as H1.
    rewrite length_rev in H1. pose proof (trim_left_length s) as H2.
    pose proof (strip_loop_length (length (c_str text)) (c_str text)) as H3.
    fold s in H3. rewrite strlen_c_str in H3. lia.
  - apply trim_right_keeps_head, trim_left_idem.
  - unfold trim_right. rewrite rev_involutive, trim_left_idem. reflexivity.
Qed.

(** *** Texts the scan copies *)

Lemma strip_loop_copy pre : forall fuel rest,
  Forall (fun c => c <> "<"%char) pre -> (length pre <= fuel)%nat ->
  strip_loop fuel (pre ++ rest) = pre ++ strip_loop (fuel - length pre) rest.
Proof.
  induction pre as [|c pre IH]; intros fuel rest Hpre Hf.
  - simpl. now rewrite Nat.sub_0_r.
  - apply Forall_cons in Hpre as [Hc Hpre]. destruct fuel as [|f]; [simpl in Hf; lia|].
    cbn [app strip_loop length Nat.sub].
    assert (E : is_char "<" c = false) by (apply Ascii.eqb_neq; exact Hc).
    rewrite E. cbn [andb]. rewrite IH; [reflexivity|exact Hpre|simpl in Hf; lia].
Qed.

Lemma strip_loop_plain fuel l :
  Forall (fun c => c <> "<"%char) l -> (length l <= fuel)%nat ->
  strip_loop fuel l = l.
Proof.
  intros Hl Hf. rewrite <- (app_nil_r l) at 1.
  rewrite strip_loop_copy by assumption.
  destruct (fuel - length l)%nat; simpl; now rewrite app_nil_r.
Qed.

(** X16. A text without [<] holds no tag: it comes back with only the
    white space at its ends removed. *)
Theorem strip_without_tags_only_trims text :
  Forall (fun c => c <> "<"%char) (c_str text) ->
  llm_strip_think_tags text = trim_right (trim_left (c_str text)).
Proof.
  intros H. unfold llm_strip_think_tags.
  now rewrite strip_loop_plain by (assumption || lia).
Qed.

Lemma strip_without_tags_only_trims_witness :
  llm_strip_think_tags (lit "  plain answer ") =
  trim_right (trim_left (c_str (lit "  plain answer "))).
Proof.
  apply (strip_without_tags_only_trims (lit "  plain answer ")).
  repeat (constructor; [discriminate|]). constructor.
Defined.

(** *** One reasoning block *)

Lemma tolower_fixed c x :
  tolower c = x -> byte_val x < 97 \/ 122 < byte_val x -> c = x.
Proof.
  unfold tolower. intros H Hx.
  destruct ((65 <=? byte_val c) && (byte_val c <=? 90)) eqn:E; [|exact H].
  apply andb_true_iff in E as [E1 E2]. apply Z.leb_le in E1, E2.
  exfalso. apply (f_equal byte_val) in H.
  rewrite byte_val_of_byte_val in H by lia. lia.
Qed.

Lemma tolower_not_nul c x : tolower c = x -> x <> NUL -> is_nul c = false.
Proof.
  intros H Hx. destruct (is_nul c) eqn:E; [|reflexivity].
  apply is_nul_spec in E. subst c. now subst x.
Qed.

Lemma c_str_plain l : Forall (fun c => is_nul c = false) l -> c_str l = l.
Proof.
  induction 1 as [|c l Hc _ IH]; [reflexivity|].
  now rewrite c_str_cons, Hc, IH.
Qed.

(** An opening tag in any letter case starts a block: the scan goes on
    behind the closing tag that [find_close] finds. *)
Lemma strip_loop_open f open rest :
  map tolower open = lit "<think>" ->
  strip_loop (S f) (open ++ rest) = strip_loop f (find_close rest) /\
  Forall (fun c => is_nul c = false) open /\ length open = 7%nat.
Proof.
  intros H.
  destruct open as [|o1 [|o2 [|o3 [|o4 [|o5 [|o6 [|o7 [|]]]]]]]]; try discriminate H.
  injection H as H1 H2 H3 H4 H5 H6 H7.
  assert (E1 : o1 = "<"%char) by (apply tolower_fixed; [exact H1|left; reflexivity]).
  assert (E7 : o7 = ">"%char) by (apply tolower_fixed; [exact H7|left; reflexivity]).
  subst o1 o7. split; [|split; [|reflexivity]].
  - cbn [app strip_loop]. change (is_char "<" "<") with true.
    cbn [length Nat.leb andb strncasecmp peek advance drop lit list_ascii_of_string].
    rewrite H2, H3, H4, H5, H6. reflexivity.
  - repeat (constructor; [first [reflexivity|eapply tolower_not_nul; [eassumption|discriminate]]|]).
    constructor.
Qed.

Lemma find_close_body body close post :
  Forall (fun c => c <> "<"%char) body ->
  map tolower close = lit "</think>" ->
  find_close (body ++ close ++ post) = post /\
  Forall (fun c => is_nul c = false) close /\ length close = 8%nat.
Proof.
  intros Hbody H.
  destruct close as [|c1 [|c2 [|c3 [|c4 [|c5 [|c6 [|c7 [|c8 [|]]]]]]]]];
    try discriminate H.
  injection H as H1 H2 H3 H4 H5 H6 H7 H8.
  assert (E1 : c1 = "<"%char) by (apply tolower_fixed; [exact H1|left; reflexivity]).
  subst c1. split; [|split; [|reflexivity]].
  - induction Hbody as [|c body Hc _ IH].
    + cbn [app find_close]. change (is_char "<" "<") with true.
      cbn [length Nat.leb andb strncasecmp peek advance drop lit
           list_ascii_of_string].
      change (tolower "<") with "<"%char.
      rewrite H2, H3, H4, H5, H6, H7, H8. reflexivity.
    + cbn [app find_close].
      assert (E : is_char "<" c = false) by (apply Ascii.eqb_neq; exact Hc).
      rewrite E. cbn [andb]. exact IH.
  - repeat (constructor; [first [reflexivity|eapply tolower_not_nul; [eassumption|discriminate]]|]).
    constructor.
Qed.

Lemma find_close_none l :
  Forall (fun c => c <> "<"%char) l -> find_close l = [].
Proof.
  induction 1 as [|c l Hc _ IH]; [reflexivity|]. cbn [find_close].
  assert (E : is_char "<" c = false) by (apply Ascii.eqb_neq; exact Hc).
  rewrite E. cbn [andb]. exact IH.
Qed.

Lemma not_nul_forall l :
  Forall (fun c => c <> NUL) l -> Forall (fun c => is_nul c = false) l.
Proof.
  intros H. eapply Forall_impl; [exact H|]. intros c Hc.
  destruct (is_nul c) eqn:E; [|reflexivity].
  apply is_nul_spec in E. contradiction.
Qed.

(** X17. One reasoning block is cut out: when the text has an opening
    and a closing tag, in any letter case, and no other [<], what is left
    is the text before the block joined to the text behind it, trimmed. *)
Theorem strip_removes_single_block pre open body close post :
  map tolower open = lit "<think>" ->
  map tolower close = lit "</think>" ->
  Forall (fun c => c <> "<"%char /\ c <> NUL) (pre ++ body ++ post) ->
  llm_strip_think_tags (pre ++ open ++ body ++ close ++ post) =
  trim_right (trim_left (pre ++ post)).
Proof.
  intros Hopen Hclose Hall.
  apply Forall_app in Hall as [Hpre Hall]. apply Forall_app in Hall as [Hbody Hpost].
  assert (Hlt : forall l, Forall (fun c => c <> "<"%char /\ c <> NUL) l ->
                          Forall (fun c => c <> "<"%char) l)
    by (intros l Hl; eapply Forall_impl; [exact Hl|]; simpl; tauto).
  assert (Hnn : forall l, Forall (fun c => c <> "<"%char /\ c <> NUL) l ->
                          Forall (fun c => is_nul c = false) l).
  { intros l Hl. apply not_nul_forall. eapply Forall_impl; [exact Hl|].
    simpl. tauto. }
  destruct (find_close_body body close post (Hlt _ Hbody) Hclose)
    as (Hfind & Hcn & Hcl).
  unfold llm_strip_think_tags.
  set (n := (6 + length body + 8 + length post)%nat).
  destruct (strip_loop_open n open (body ++ close ++ post) Hopen)
    as (Hstep & Hon & Hol).
  rewrite c_str_plain.
  2:{ repeat (apply Forall_app; split); auto. }
  rewrite strip_loop_copy; [|apply Hlt, Hpre|rewrite length_app; lia].
  replace (length (pre ++ open ++ body ++ close ++ post) - length pre)%nat
    with (S n) by (rewrite !length_app, Hol, Hcl; unfold n; lia).
  rewrite Hstep, Hfind.
  rewrite strip_loop_plain; [reflexivity|apply Hlt, Hpost|unfold n; lia].
Qed.

Lemma strip_removes_single_block_witness :
  llm_strip_think_tags (lit " The answer " ++ lit "<THINK>" ++ lit "let me see" ++
                        lit "</Think>" ++ lit "is 4. ") =
  trim_right (trim_left (lit " The answer " ++ lit "is 4. ")).
Proof.
  apply (strip_removes_single_block (lit " The answer ") (lit "<THINK>")
           (lit "let me see") (lit "</Think>") (lit "is 4. ")).
  - reflexivity.
  - reflexivity.
  - repeat (constructor; [split; discriminate|]). constructor.
Defined.

(** X18. An opening tag that is never closed takes the rest of the text
    with it: what is left is the text before the tag, trimmed. *)
Theorem strip_unclosed_block_drops_rest pre open rest :
  map tolower open = lit "<think>" ->
  Forall (fun c => c <> "<"%char /\ c <> NUL) (pre ++ rest) ->
  llm_strip_think_tags (pre ++ open ++ rest) = trim_right (trim_left pre).
Proof.
  intros Hopen Hall. apply Forall_app in Hall as [Hpre Hrest].
  assert (Hlt : forall l, Forall (fun c => c <> "<"%char /\ c <> NUL) l ->
                          Forall (fun c => c <> "<"%char) l)
    by (intros l Hl; eapply Forall_impl; [exact Hl|]; simpl; tauto).
  assert (Hnn : forall l, Forall (fun c => c <> "<"%char /\ c <> NUL) l ->
                          Forall (fun c => is_nul c = false) l).
  { intros l Hl. apply not_nul_forall. eapply Forall_impl; [exact Hl|].
    simpl. tauto. }
  unfold llm_strip_think_tags.
  set (n := (6 + length rest)%nat).
  destruct (strip_loop_open n open rest Hopen) as (Hstep & Hon & Hol).
  rewrite c_str_plain.
  2:{ repeat (apply Forall_app; split); auto. }
  rewrite strip_loop_copy; [|apply Hlt, Hpre|rewrite length_app; lia].
  replace (length (pre ++ open ++ rest) - length pre)%nat
    with (S n) by (rewrite !length_app, Hol; unfold n; lia).
  rewrite Hstep, find_close_none by (apply Hlt, Hrest).
  replace (strip_loop n []) with (@nil ascii) by (destruct n; reflexivity).
  now rewrite app_nil_r.
Qed.

Lemma strip_unclosed_block_drops_rest_witness :
  llm_strip_think_tags (lit "Done. " ++ lit "<think>" ++ lit "still thinking") =
  trim_right (trim_left (lit "Done. ")).
Proof.
  apply (strip_unclosed_block_drops_rest (lit "Done. ") (lit "<think>")
           (lit "still thinking")).
  - reflexivity.
  - repeat (constructor; [split; discriminate|]). constructor.
Defined.

End Llm.

(** ** Webhook endpoint (webhook.c) *)

Module Webhook.
Import CStr.

Definition PB_POOL_MAX : Z := 64.

(** [RESPONSE_BUF_MAX] of config.h: 512 KiB. *)
Definition RESPONSE_BUF_MAX : Z := 512 * 1024.

(** Constant-time comparison of the secret: [ct_byte s slen i] is the byte
    the loop reads from [s] in step [i]. *)
Definition ct_byte (s : list ascii) (slen i : nat) : Z :=
  if (i <? slen + 1)%nat then byte_val (peek (advance i s)) else 0.

Fixpoint ct_loop (steps i : nat) (a b : list ascii) (alen blen : nat)
    (result : Z) : Z :=
  match steps with
  | O => result
  | S steps' =>
      ct_loop steps' (S i) a b alen blen
              (Z.lor result (Z.lxor (ct_byte a alen i) (ct_byte b blen i)))
  end.

Definition ct_strcmp (a b : list ascii) : Z :=
  let alen := strlen a in
  let blen := strlen b in
  let maxlen := if (blen <? alen)%nat then alen else blen in
  let result := Z.lxor (Z.of_nat alen) (Z.of_nat blen) mod 256 in
  let result := ct_loop (S maxlen) 0 a b alen blen result in
  if result =? 0 then 0 else 1.

(** [PostBody]: [data] is [None] for a NULL pointer, else the bytes of the
    buffer before its terminator. *)
Record PostBody := mkPb {
  data : option (list ascii);
  len : Z;
  cap : Z
}.

Definition zero_pb : PostBody := {| data := None; len := 0; cap := 0 |}.

(** [g_pb_pool] without its mutex. *)
Record pb_pool := mkPool {
  pool : list PostBody;
  free_stack : list Z;
  free_top : Z;
  pool_size : Z
}.

(** The static pool before [pb_pool_init]. *)
Definition pool_zero : pb_pool :=
  {| pool := replicate (Z.to_nat PB_POOL_MAX) zero_pb;
     free_stack := replicate (Z.to_nat PB_POOL_MAX) 0;
     free_top := 0; pool_size := 0 |}.

(** The body of the loop of [pb_pool_init]. *)
Definition init_slot (g : pb_pool) (i : nat) : pb_pool :=
  {| pool := <[i := zero_pb]> (pool g);
     free_stack := <[i := Z.of_nat i]> (free_stack g);
     free_top := free_top g; pool_size := pool_size g |}.

Definition pb_pool_init (size : Z) (g : pb_pool) : pb_pool :=
  let size := if size <? 1 then 8 else size in
  let size := if PB_POOL_MAX <? size then PB_POOL_MAX else size in
  fold_left init_slot (seq 0 (Z.to_nat size))
    {| pool := pool g; free_stack := free_stack g;
       free_top := size; pool_size := size |}.

(** A [PostBody *]: a slot of the pool, or a buffer of its own from
    [calloc], which the pointer is the only reference to. *)
Inductive pb_ref :=
| InPool (idx : Z)
| OnHeap (pb : PostBody).

Definition pb_get (g : pb_pool) (r : pb_ref) : PostBody :=
  match r with
  | InPool idx => default zero_pb (pool g !! Z.to_nat idx)
  | OnHeap pb => pb
  end.

Definition pb_set (g : pb_pool) (r : pb_ref) (pb : PostBody) : pb_pool * pb_ref :=
  match r with
  | InPool idx =>
      ({| pool := <[Z.to_nat idx := pb]> (pool g); free_stack := free_stack g;
          free_top := free_top g; pool_size := pool_size g |}, r)
  | OnHeap _ => (g, OnHeap pb)
  end.

(** [pb_acquire]; the heap allocation is taken to succeed. *)
Definition pb_acquire (g : pb_pool) : pb_pool * pb_ref :=
  if 0 <? free_top g then
    let top := free_top g - 1 in
    let idx := default 0 (free_stack g !! Z.to_nat top) in
    let pb := default zero_pb (pool g !! Z.to_nat idx) in
    ({| pool := <[Z.to_nat idx := {| data := data pb; len := 0; cap := cap pb |}]> (pool g);
        free_stack := free_stack g; free_top := top; pool_size := pool_size g |},
     InPool idx)
  else (g, OnHeap zero_pb).

Definition pb_release (g : pb_pool) (r : pb_ref) : pb_pool :=
  match r with
  | InPool idx =>
      let pb := default zero_pb (pool g !! Z.to_nat idx) in
      if negb ((0 <=? idx) && (idx <? pool_size g)) then g else
      {| pool := <[Z.to_nat idx := {| data := data pb; len := 0; cap := cap pb |}]> (pool g);
         free_stack := <[Z.to_nat (free_top g) := idx]> (free_stack g);
         free_top := free_top g + 1; pool_size := pool_size g |}
  | OnHeap _ => g
  end.

Definition pb_pool_destroy (g : pb_pool) : pb_pool :=
  fold_left
    (fun g i =>
       let pb := default zero_pb (pool g !! i) in
       {| pool := <[i := {| data := None; len := len pb; cap := 0 |}]> (pool g);
          free_stack := free_stack g;
          free_top := free_top g; pool_size := pool_size g |})
    (seq 0 (Z.to_nat (pool_size g))) g.

(** The doubling loop [while (new_cap < need) new_cap *= 2]. *)
Fixpoint grow_cap (fuel : nat) (new_cap need : Z) : Z :=
  match fuel with
  | O => new_cap
  | S f => if new_cap <? need then grow_cap f (new_cap * 2) need else new_cap
  end.

(** The upload branch of [on_request] on the body buffer: [chunk] is
    [upload_data], its length [*upload_data_size]; [realloc] is taken to
    succeed. *)
Definition accumulate (pb : PostBody) (chunk : list ascii) : PostBody :=
  let size := Z.of_nat (length chunk) in
  let need := len pb + size + 1 in
  if RESPONSE_BUF_MAX <? need then
    {| data := data pb; len := RESPONSE_BUF_MAX + 1; cap := cap pb |}
  else
    let new_cap :=
      if cap pb <? need
      then grow_cap 64 (if cap pb =? 0 then 4096 else cap pb * 2) need
      else cap pb in
    {| data := Some (take (Z.to_nat (len pb)) (default [] (data pb)) ++ chunk);
       len := len pb + size; cap := new_cap |}.

(** What [on_request] reads of the connection. *)
Record Request := mkReq {
  method : list ascii;
  url : list ascii;
  secret_hdr : option (list ascii);     (* X-Telegram-Bot-Api-Secret-Token *)
  content_type : option (list ascii)    (* Content-Type *)
}.

Record Response := mkResp {
  status : Z;
  body : list ascii
}.

(** Up to its terminator a buffer reads as the string it denotes, and
    [ct_strcmp] reads 0 beyond. *)
Lemma ct_byte_c_str s i :
  ct_byte s (strlen s) i = byte_val (peek (advance i (c_str s))).
Proof.
  unfold ct_byte, advance. revert i. induction s as [|c s IH]; intros i.
  - rewrite c_str_nil. simpl strlen. rewrite !drop_nil. simpl.
    now destruct (i <? 1)%nat.
  - rewrite c_str_cons. simpl strlen. destruct (is_nul c) eqn:E.
    + apply is_nul_spec in E. subst c. rewrite drop_nil. simpl peek.
      destruct i as [|i]; [reflexivity|].
      destruct (S i <? 0 + 1)%nat eqn:L; [|reflexivity].
      apply Nat.ltb_lt in L. lia.
    + destruct i as [|i]; [reflexivity|]. simpl drop. rewrite <- IH.
      destruct (i <? strlen s + 1)%nat eqn:L.
      * apply Nat.ltb_lt in L.
        destruct (S i <? S (strlen s) + 1)%nat eqn:L'; [reflexivity|].
        apply Nat.ltb_ge in L'. lia.
      * apply Nat.ltb_ge in L.
        destruct (S i <? S (strlen s) + 1)%nat eqn:L'; [|reflexivity].
        apply Nat.ltb_lt in L'. lia.
Qed.

Lemma ct_loop_zero steps : forall i a b alen blen r,
  0 <= r ->
  (ct_loop steps i a b alen blen r = 0 <->
   r = 0 /\ forall j, (i <= j < i + steps)%nat ->
                      ct_byte a alen j = ct_byte b blen j).
Proof.
  assert (Hnn : forall s n j, 0 <= ct_byte s n j).
  { intros s n j. unfold ct_byte. destruct (j <? n + 1)%nat; [|lia].
    apply byte_val_range. }
  induction steps as [|steps IH]; intros i a b alen blen r Hr.
  - simpl. split; [intros ->; split; [reflexivity|intros; lia]|tauto].
  - simpl ct_loop. rewrite IH.
    2:{ apply Z.lor_nonneg. split; [assumption|].
        apply Z.lxor_nonneg. split; intros _; apply Hnn. }
    rewrite Z.lor_eq_0_iff, Z.lxor_eq_0_iff. split.
    + intros [[H0 Hi] Hj]. split; [assumption|]. intros j Hr'.
      destruct (decide (j = i)) as [->|Hne]; [assumption|]. apply Hj. lia.
    + intros [H0 Hj]. split; [split; [assumption|apply Hj; lia]|].
      intros j Hr'. apply Hj. lia.
Qed.

(** Two strings that read the same at every index up to the longer length
    are equal. *)
Lemma bytes_ext (x : list ascii) : forall y,
  Forall (fun c => is_nul c = false) x ->
  Forall (fun c => is_nul c = false) y ->
  (forall j, (j <= Nat.max (length x) (length y))%nat ->
             peek (drop j x) = peek (drop j y)) ->
  x = y.
Proof.
  induction x as [|c x IH]; intros y Hx Hy H.
  - destruct y as [|d y]; [reflexivity|]. exfalso.
    specialize (H 0%nat ltac:(lia)). simpl in H.
    apply Forall_cons in Hy. destruct Hy as [Hd _]. subst d. discriminate.
  - apply Forall_cons in Hx. destruct Hx as [Hc Hx].
    destruct y as [|d y].
    + specialize (H 0%nat ltac:(lia)). simpl in H. subst c. discriminate.
    + apply Forall_cons in Hy. destruct Hy as [Hd Hy].
      pose proof (H 0%nat ltac:(lia)) as H0. simpl in H0. subst d. f_equal.
      apply IH; [assumption..|]. intros j Hj.
      apply (H (S j)). simpl. lia.
Qed.

(** [ct_strcmp] gives the verdict of [strcmp]: 0 exactly for equal strings,
    1 otherwise. *)
Lemma ct_strcmp_eq a b : ct_strcmp a b = 0 <-> c_str a = c_str b.
Proof.
  unfold ct_strcmp.
  set (maxlen := if (strlen b <? strlen a)%nat then strlen a else strlen b).
  assert (Hmax : maxlen = Nat.max (strlen a) (strlen b)).
  { unfold maxlen. destruct (strlen b <? strlen a)%nat eqn:L.
    - apply Nat.ltb_lt in L. lia.
    - apply Nat.ltb_ge in L. lia. }
  match goal with
  | |- (if ?r =? 0 then 0 else 1) = 0 <-> _ =>
      assert (Hr : (if r =? 0 then 0 else 1) = 0 <-> r = 0)
        by (destruct (Z.eqb_spec r 0); split; (lia || discriminate || tauto));
      rewrite Hr; clear Hr
  end.
  rewrite ct_loop_zero by (apply Z.mod_pos_bound; lia). split.
  - intros [_ Hj]. rewrite <- (c_str_idem a), <- (c_str_idem b).
    f_equal. apply bytes_ext; try apply c_str_no_nul.
    intros j Hle. rewrite !strlen_c_str, <- Hmax in Hle.
    specialize (Hj j ltac:(lia)). rewrite !ct_byte_c_str in Hj.
    apply byte_val_inj in Hj. exact Hj.
  - intros Heq. assert (Hlen : strlen a = strlen b).
    { rewrite <- !strlen_c_str. now rewrite Heq. }
    split.
    + rewrite Hlen, Z.lxor_nilpotent. reflexivity.
    + intros j _. rewrite !ct_byte_c_str, Heq. reflexivity.
Qed.


#[global] Instance ascii_eq_dec : EqDecision ascii := Ascii.ascii_dec.

(** The pool as [pb_pool_init] leaves it and the handler keeps it: the live
    part of the free stack names slots of the pool. *)
Definition pool_wf (g : pb_pool) : Prop :=
  length (pool g) = Z.to_nat PB_POOL_MAX /\
  length (free_stack g) = Z.to_nat PB_POOL_MAX /\
  0 <= free_top g <= pool_size g /\ pool_size g <= PB_POOL_MAX /\
  forall i, 0 <= i < free_top g ->
    exists idx, free_stack g !! Z.to_nat i = Some idx /\ 0 <= idx < pool_size g.

(** A [PostBody *] that is valid for the pool. *)
Definition ref_ok (g : pb_pool) (r : pb_ref) : Prop :=
  match r with
  | InPool idx => 0 <= idx < pool_size g
  | OnHeap _ => True
  end.

Definition total_size (chunks : list (list ascii)) : Z :=
  Z.of_nat (length (concat chunks)).

Lemma pb_get_set g r pb :
  pool_wf g -> ref_ok g r ->
  pb_get (fst (pb_set g r pb)) (snd (pb_set g r pb)) = pb.
Proof.
  intros (Hl & _ & _ & Hs & _) Hr. destruct r as [idx|h]; [|reflexivity].
  simpl in *. rewrite list_lookup_insert_eq; [reflexivity|].
  rewrite Hl. unfold PB_POOL_MAX in *. lia.
Qed.

Lemma pb_set_wf g r pb :
  pool_wf g -> ref_ok g r ->
  pool_wf (fst (pb_set g r pb)) /\ ref_ok (fst (pb_set g r pb)) (snd (pb_set g r pb)).
Proof.
  intros (Hl & Hf & Ht & Hs & Hi) Hr. destruct r as [idx|h].
  - simpl. split; [|exact Hr]. unfold pool_wf. simpl.
    rewrite length_insert. auto.
  - simpl. split; [|exact I]. unfold pool_wf. auto.
Qed.

Lemma pb_acquire_ok g :
  pool_wf g ->
  pool_wf (fst (pb_acquire g)) /\ ref_ok (fst (pb_acquire g)) (snd (pb_acquire g)) /\
  len (pb_get (fst (pb_acquire g)) (snd (pb_acquire g))) = 0.
Proof.
  intros (Hl & Hf & Ht & Hs & Hi). unfold pb_acquire.
  destruct (Z.ltb_spec 0 (free_top g)) as [Hpos|Hnpos].
  - destruct (Hi (free_top g - 1)) as (idx & Hidx & Hrange); [lia|].
    rewrite Hidx. simpl. split; [|split].
    + unfold pool_wf. simpl. rewrite length_insert.
      split; [assumption|]. split; [assumption|]. split; [lia|].
      split; [assumption|]. intros i Hi'. apply Hi. lia.
    + exact Hrange.
    + rewrite list_lookup_insert_eq; [reflexivity|].
      rewrite Hl. unfold PB_POOL_MAX in *. lia.
  - simpl. split; [|split; [exact I|reflexivity]].
    unfold pool_wf. auto.
Qed.

Lemma pb_release_wf g r :
  pool_wf g -> free_top g < pool_size g -> pool_wf (pb_release g r).
Proof.
  intros (Hl & Hf & Ht & Hs & Hi) Hroom. destruct r as [idx|h].
  2:{ simpl. unfold pool_wf. auto. }
  unfold pb_release.
  destruct (Z.leb_spec 0 idx) as [H0|H0]; simpl andb;
    [destruct (Z.ltb_spec idx (pool_size g)) as [H1|H1]|]; simpl negb; cbv iota;
    try (unfold pool_wf; auto; fail).
  unfold pool_wf. simpl. rewrite !length_insert.
  split; [assumption|]. split; [assumption|]. split; [lia|].
  split; [assumption|]. intros i Hi'.
  destruct (Z.eq_dec i (free_top g)) as [->|Hne].
  - exists idx. split; [|lia]. apply list_lookup_insert_eq.
    rewrite Hf. unfold PB_POOL_MAX in *. lia.
  - rewrite list_lookup_insert_ne by lia. apply Hi. lia.
Qed.

Lemma init_loop_spec k : forall g0,
  length (pool g0) = Z.to_nat PB_POOL_MAX ->
  length (free_stack g0) = Z.to_nat PB_POOL_MAX ->
  (k <= Z.to_nat PB_POOL_MAX)%nat ->
  let g := fold_left init_slot (seq 0 k) g0 in
  length (pool g) = Z.to_nat PB_POOL_MAX /\
  length (free_stack g) = Z.to_nat PB_POOL_MAX /\
  free_top g = free_top g0 /\ pool_size g = pool_size g0 /\
  forall i, (i < k)%nat ->
    free_stack g !! i = Some (Z.of_nat i) /\ pool g !! i = Some zero_pb.
Proof.
  induction k as [|k IH]; intros g0 Hp Hf Hk; cbn zeta.
  - simpl. repeat (split; [assumption || reflexivity|]). intros i Hi. lia.
  - rewrite seq_S, fold_left_app. simpl fold_left.
    destruct (IH g0 Hp Hf ltac:(lia)) as (Hp' & Hf' & Ht & Hs & Hi).
    set (g := fold_left init_slot (seq 0 k) g0) in *. unfold init_slot. simpl.
    rewrite !length_insert.
    split; [assumption|]. split; [assumption|]. split; [assumption|].
    split; [assumption|]. intros i Hlt.
    destruct (decide (i = k)) as [->|Hne].
    + rewrite !list_lookup_insert_eq by lia. split; reflexivity.
    + rewrite !list_lookup_insert_ne by lia. apply Hi. lia.
Qed.

(** [pb_pool_init] leaves [size] free slots clamped to 1..64 (8 for a
    size below 1), each empty, the free stack naming slot [i] at index
    [i]. *)
Lemma pb_pool_init_spec size :
  let n := if size <? 1 then 8 else if PB_POOL_MAX <? size then PB_POOL_MAX else size in
  let g := pb_pool_init size pool_zero in
  pool_size g = n /\ free_top g = n /\ 1 <= n <= PB_POOL_MAX /\
  length (pool g) = Z.to_nat PB_POOL_MAX /\
  length (free_stack g) = Z.to_nat PB_POOL_MAX /\
  forall i, 0 <= i < n ->
    free_stack g !! Z.to_nat i = Some i /\ pool g !! Z.to_nat i = Some zero_pb.
Proof.
  cbn zeta. unfold pb_pool_init.
  set (n := if size <? 1 then 8 else if PB_POOL_MAX <? size then PB_POOL_MAX else size).
  assert (Hn : (if PB_POOL_MAX <? (if size <? 1 then 8 else size)
                then PB_POOL_MAX else if size <? 1 then 8 else size) = n).
  { unfold n, PB_POOL_MAX. destruct (Z.ltb_spec size 1); [reflexivity|].
    reflexivity. }
  rewrite Hn.
  assert (Hr : 1 <= n <= PB_POOL_MAX).
  { unfold n, PB_POOL_MAX. destruct (Z.ltb_spec size 1); [lia|].
    destruct (Z.ltb_spec 64 size); lia. }
  match goal with
  | |- context [fold_left init_slot _ ?g0] =>
      destruct (init_loop_spec (Z.to_nat n) g0) as (Hp & Hf & Ht & Hs & Hi)
  end; [reflexivity|reflexivity|unfold PB_POOL_MAX in *; lia|].
  simpl in Ht, Hs.
  split; [exact Hs|]. split; [exact Ht|]. split; [exact Hr|].
  split; [exact Hp|]. split; [exact Hf|].
  intros i Hi'. destruct (Hi (Z.to_nat i) ltac:(lia)) as [H1 H2].
  rewrite Z2Nat.id in H1 by lia. split; assumption.
Qed.

Lemma pb_pool_init_wf size : pool_wf (pb_pool_init size pool_zero).
Proof.
  destruct (pb_pool_init_spec size) as (Hs & Ht & Hr & Hp & Hf & Hi).
  unfold pool_wf. rewrite Hs, Ht.
  split; [exact Hp|]. split; [exact Hf|]. split; [lia|]. split; [lia|].
  intros i Hi'. exists i. split; [apply Hi; assumption|lia].
Qed.

Lemma accumulate_over pb chunk :
  len pb = RESPONSE_BUF_MAX + 1 ->
  len (accumulate pb chunk) = RESPONSE_BUF_MAX + 1.
Proof.
  intros H. unfold accumulate.
  destruct (Z.ltb_spec RESPONSE_BUF_MAX (len pb + Z.of_nat (length chunk) + 1));
    [reflexivity|lia].
Qed.

Lemma accumulate_fit pb chunk :
  len pb + Z.of_nat (length chunk) + 1 <= RESPONSE_BUF_MAX ->
  len (accumulate pb chunk) = len pb + Z.of_nat (length chunk) /\
  data (accumulate pb chunk) =
    Some (take (Z.to_nat (len pb)) (default [] (data pb)) ++ chunk).
Proof.
  intros H. unfold accumulate.
  destruct (Z.ltb_spec RESPONSE_BUF_MAX (len pb + Z.of_nat (length chunk) + 1));
    [lia|]. split; reflexivity.
Qed.

Lemma fold_accumulate_over chunks : forall pb,
  len pb = RESPONSE_BUF_MAX + 1 ->
  len (fold_left accumulate chunks pb) = RESPONSE_BUF_MAX + 1.
Proof.
  induction chunks as [|c cs IH]; intros pb H; [exact H|].
  simpl. apply IH. now apply accumulate_over.
Qed.

(** The buffer after the upload calls: the length and the bytes of the
    whole body while it stays below the limit, the oversize mark from the
    first piece that reaches it. *)
Lemma fold_accumulate chunks : forall pb d,
  len pb = Z.of_nat (length d) ->
  len pb = 0 \/ data pb = Some d ->
  len pb < RESPONSE_BUF_MAX ->
  let pb' := fold_left accumulate chunks pb in
  if RESPONSE_BUF_MAX <=? len pb + total_size chunks
  then len pb' = RESPONSE_BUF_MAX + 1
  else len pb' = len pb + total_size chunks /\
       (chunks <> [] -> data pb' = Some (d ++ concat chunks)).
Proof.
  unfold total_size.
  induction chunks as [|c cs IH]; intros pb d Hlen Hdata Hlt; cbn zeta.
  - simpl. rewrite Z.add_0_r.
    destruct (Z.leb_spec RESPONSE_BUF_MAX (len pb)); [lia|].
    split; [lia|]. congruence.
  - simpl fold_left. simpl concat. rewrite length_app, Nat2Z.inj_add.
    destruct (Z.ltb_spec RESPONSE_BUF_MAX (len pb + Z.of_nat (length c) + 1))
      as [Hov|Hfit].
    + rewrite fold_accumulate_over.
      2:{ unfold accumulate.
          destruct (Z.ltb_spec RESPONSE_BUF_MAX
                      (len pb + Z.of_nat (length c) + 1)); [reflexivity|lia]. }
      destruct (Z.leb_spec RESPONSE_BUF_MAX
                  (len pb + (Z.of_nat (length c) + Z.of_nat (length (concat cs)))));
        [reflexivity|lia].
    + assert (Htake : take (Z.to_nat (len pb)) (default [] (data pb)) = d).
      { destruct Hdata as [H0|Hd].
        - rewrite H0. simpl. destruct d; [reflexivity|]. simpl in Hlen. lia.
        - rewrite Hd. simpl. rewrite Hlen, Nat2Z.id. apply firstn_all. }
      pose proof (accumulate_fit pb c Hfit) as [H1 H2]. rewrite Htake in H2.
      specialize (IH (accumulate pb c) (d ++ c)). cbn zeta in IH.
      rewrite H1 in IH.
      replace (len pb + (Z.of_nat (length c) + Z.of_nat (length (concat cs))))
        with (len pb + Z.of_nat (length c) + Z.of_nat (length (concat cs))) by lia.
      destruct (Z.leb_spec RESPONSE_BUF_MAX
                  (len pb + Z.of_nat (length c) + Z.of_nat (length (concat cs)))).
      * apply IH; [rewrite length_app; lia|right; exact H2|lia].
      * destruct IH as [IH1 IH2];
          [rewrite length_app; lia|right; exact H2|lia|].
        split; [exact IH1|]. intros _.
        destruct cs as [|c' cs'].
        -- simpl. rewrite app_nil_r. exact H2.
        -- rewrite IH2 by discriminate. now rewrite <- app_assoc.
Qed.

Section Handler.

(** The parsed tree and [cJSON_Parse], from the cJSON library. *)
Variable json : Type.
Variable cJSON_Parse : list ascii -> option json.

(** [g_webhook] and [g_pb_pool]; [update_cb] tells whether a callback is
    set. *)
Record Server := mkServer {
  pb_pool_st : pb_pool;
  secret : list ascii;
  update_cb : bool
}.

(** The last part of [on_request], from the method check to [send]: the
    response queued and the tree handed to the update callback, if any. *)
Definition respond (srv : Server) (req : Request) (pb : PostBody)
  : Response * option json :=
  if negb (strcmp (method req) (lit "POST") =? 0) ||
     negb (strcmp (url req) (lit "/webhook") =? 0)
  then ({| status := 404; body := lit "not found" |}, None)
  else if negb (is_nul (peek (secret srv))) &&
          match secret_hdr req with
          | None => true
          | Some hdr => negb (ct_strcmp hdr (secret srv) =? 0)
          end
  then ({| status := 403; body := lit "forbidden" |}, None)
  else if match content_type req with
          | None => true
          | Some ct => negb (strncasecmp ct (lit "application/json") 16 =? 0)
          end
  then ({| status := 415; body := lit "unsupported media type" |}, None)
  else if RESPONSE_BUF_MAX <? len pb
  then ({| status := 413; body := lit "payload too large" |}, None)
  else
    let delivered :=
      match data pb with
      | Some d =>
          if 0 <? len pb then
            match cJSON_Parse (c_str d) with
            | Some root => if update_cb srv then Some root else None
            | None => None
            end
          else None
      | None => None
      end in
    ({| status := 200; body := lit "ok" |}, delivered).

Inductive MHD_Result := MHD_NO | MHD_YES.

(** One call of [on_request]: the value returned, [*req_cls] afterwards,
    the response queued, the tree given to the callback and the server
    state. *)
Record Outcome := mkOut {
  ret : MHD_Result;
  req_cls : option pb_ref;
  response : option Response;
  delivered : option json;
  server_after : Server
}.

Definition set_pool (srv : Server) (g : pb_pool) : Server :=
  {| pb_pool_st := g; secret := secret srv; update_cb := update_cb srv |}.

Definition on_request (srv : Server) (req : Request) (upload : list ascii)
    (cls : option pb_ref) : Outcome :=
  match cls with
  | None =>
      let '(g, r) := pb_acquire (pb_pool_st srv) in
      {| ret := MHD_YES; req_cls := Some r; response := None; delivered := None;
         server_after := set_pool srv g |}
  | Some r =>
      let pb := pb_get (pb_pool_st srv) r in
      if (0 <? length upload)%nat then
        let '(g, r') := pb_set (pb_pool_st srv) r (accumulate pb upload) in
        {| ret := MHD_YES; req_cls := Some r'; response := None; delivered := None;
           server_after := set_pool srv g |}
      else
        let '(resp, root) := respond srv req pb in
        {| ret := MHD_YES; req_cls := None; response := Some resp;
           delivered := root;
           server_after := set_pool srv (pb_release (pb_pool_st srv) r) |}
  end.

(** The calls the HTTP library makes for one request: one when the headers
    are in, one for each piece of the body, one when the body is complete. *)
Fixpoint feed (srv : Server) (req : Request) (chunks : list (list ascii))
    (cls : option pb_ref) : Server * option pb_ref :=
  match chunks with
  | [] => (srv, cls)
  | ch :: rest =>
      let o := on_request srv req ch cls in
      feed (server_after o) req rest (req_cls o)
  end.

Definition serve (srv : Server) (req : Request) (chunks : list (list ascii))
  : Outcome :=
  let o1 := on_request srv req [] None in
  let '(srv2, cls2) := feed (server_after o1) req chunks (req_cls o1) in
  on_request srv2 req [] cls2.


(** The conditions of the endpoint in the words of its description. *)
Definition wrong_endpoint (req : Request) : bool :=
  negb (bool_decide (c_str (method req) = lit "POST")) ||
  negb (bool_decide (c_str (url req) = lit "/webhook")).

Definition secret_rejected (srv : Server) (req : Request) : bool :=
  negb (bool_decide (c_str (secret srv) = [])) &&
  match secret_hdr req with
  | None => true
  | Some hdr => negb (bool_decide (c_str hdr = c_str (secret srv)))
  end.

Definition wrong_content_type (req : Request) : bool :=
  match content_type req with
  | None => true
  | Some ct =>
      negb (bool_decide (map tolower (take 16 (c_str ct)) = lit "application/json"))
  end.

Definition expected_status (srv : Server) (req : Request)
    (chunks : list (list ascii)) : Z :=
  if wrong_endpoint req then 404
  else if secret_rejected srv req then 403
  else if wrong_content_type req then 415
  else if RESPONSE_BUF_MAX <=? total_size chunks then 413
  else 200.

Lemma eqb0_decide (z : Z) (P : Prop) `{Decision P} :
  (z = 0 <-> P) -> negb (z =? 0) = negb (bool_decide P).
Proof.
  intros Hz. f_equal. destruct (Z.eqb_spec z 0) as [E|E].
  - symmetry. apply bool_decide_eq_true. tauto.
  - symmetry. apply bool_decide_eq_false. tauto.
Qed.

Lemma is_nul_peek_decide s :
  negb (is_nul (peek s)) = negb (bool_decide (c_str s = [])).
Proof.
  f_equal. destruct (is_nul (peek s)) eqn:E.
  - symmetry. apply bool_decide_eq_true. apply c_str_empty.
    now apply is_nul_spec.
  - symmetry. apply bool_decide_eq_false. intros H. apply c_str_empty in H.
    apply is_nul_spec in H. congruence.
Qed.

Lemma respond_status srv req pb :
  status (fst (respond srv req pb)) =
  if wrong_endpoint req then 404
  else if secret_rejected srv req then 403
  else if wrong_content_type req then 415
  else if RESPONSE_BUF_MAX <? len pb then 413
  else 200.
Proof.
  unfold respond, wrong_endpoint, secret_rejected, wrong_content_type.
  rewrite (eqb0_decide _ _ (strcmp_eq (method req) (lit "POST"))).
  rewrite (eqb0_decide _ _ (strcmp_eq (url req) (lit "/webhook"))).
  change (c_str (lit "POST")) with (lit "POST").
  change (c_str (lit "/webhook")) with (lit "/webhook").
  destruct (negb (bool_decide (c_str (method req) = lit "POST")) ||
            negb (bool_decide (c_str (url req) = lit "/webhook")));
    [reflexivity|].
  rewrite is_nul_peek_decide.
  assert (Hs : match secret_hdr req with
               | Some hdr => negb (ct_strcmp hdr (secret srv) =? 0)
               | None => true
               end =
               match secret_hdr req with
               | Some hdr => negb (bool_decide (c_str hdr = c_str (secret srv)))
               | None => true
               end).
  { destruct (secret_hdr req) as [hdr|]; [|reflexivity].
    apply eqb0_decide, ct_strcmp_eq. }
  rewrite Hs. clear Hs.
  match goal with |- context [if ?c then (_, None) else _] =>
    destruct c; [reflexivity|] end.
  assert (Hc : match content_type req with
               | Some ct => negb (strncasecmp ct (lit "application/json") 16 =? 0)
               | None => true
               end =
               match content_type req with
               | Some ct =>
                   negb (bool_decide (map tolower (take 16 (c_str ct)) =
                                      lit "application/json"))
               | None => true
               end).
  { destruct (content_type req) as [ct|]; [|reflexivity].
    apply eqb0_decide. rewrite strncasecmp_eq. reflexivity. }
  rewrite Hc. clear Hc.
  match goal with |- context [if ?c then (_, None) else _] =>
    destruct c; [reflexivity|] end.
  destruct (RESPONSE_BUF_MAX <? len pb); reflexivity.
Qed.

Lemma respond_delivered srv req pb :
  status (fst (respond srv req pb)) <> 200 -> snd (respond srv req pb) = None.
Proof.
  unfold respond.
  repeat match goal with
         | |- context [if ?c then (_, None) else _] => destruct c; [reflexivity|]
         end.
  simpl. congruence.
Qed.

Lemma respond_ok srv req pb :
  status (fst (respond srv req pb)) = 200 ->
  snd (respond srv req pb) =
  match data pb with
  | Some d =>
      if 0 <? len pb then
        match cJSON_Parse (c_str d) with
        | Some root => if update_cb srv then Some root else None
        | None => None
        end
      else None
  | None => None
  end.
Proof.
  unfold respond.
  repeat match goal with
         | |- context [if ?c then (_, None) else _] =>
             destruct c; [simpl; discriminate|]
         end.
  reflexivity.
Qed.

Lemma feed_spec chunks : forall srv req r,
  pool_wf (pb_pool_st srv) -> ref_ok (pb_pool_st srv) r ->
  Forall (fun c => c <> []) chunks ->
  exists srv' r',
    feed srv req chunks (Some r) = (srv', Some r') /\
    pool_wf (pb_pool_st srv') /\ ref_ok (pb_pool_st srv') r' /\
    secret srv' = secret srv /\ update_cb srv' = update_cb srv /\
    free_top (pb_pool_st srv') = free_top (pb_pool_st srv) /\
    pool_size (pb_pool_st srv') = pool_size (pb_pool_st srv) /\
    pb_get (pb_pool_st srv') r' =
    fold_left accumulate chunks (pb_get (pb_pool_st srv) r).
Proof.
  induction chunks as [|c cs IH]; intros srv req r Hwf Hr Hne.
  - exists srv, r. simpl. auto 10.
  - apply Forall_cons in Hne. destruct Hne as [Hc Hcs].
    simpl feed. unfold on_request.
    assert (Hpos : (0 <? length c)%nat = true).
    { apply Nat.ltb_lt. destruct c; [congruence|simpl; lia]. }
    rewrite Hpos.
    pose proof (pb_get_set (pb_pool_st srv) r
                  (accumulate (pb_get (pb_pool_st srv) r) c) Hwf Hr) as Hgs.
    pose proof (pb_set_wf (pb_pool_st srv) r
                  (accumulate (pb_get (pb_pool_st srv) r) c) Hwf Hr) as [Hwf' Hr'].
    assert (Hkeep : free_top (fst (pb_set (pb_pool_st srv) r
                      (accumulate (pb_get (pb_pool_st srv) r) c))) =
                    free_top (pb_pool_st srv) /\
                    pool_size (fst (pb_set (pb_pool_st srv) r
                      (accumulate (pb_get (pb_pool_st srv) r) c))) =
                    pool_size (pb_pool_st srv)).
    { destruct r; simpl; auto. }
    destruct (pb_set (pb_pool_st srv) r
                (accumulate (pb_get (pb_pool_st srv) r) c)) as [g r1].
    simpl in Hgs, Hwf', Hr', Hkeep. cbn [req_cls server_after].
    destruct (IH (set_pool srv g) req r1 Hwf' Hr' Hcs)
      as (srv' & r' & Hfeed & Hw & Hro & Hsec & Hcb & Hft & Hps & Hget).
    exists srv', r'. simpl in *. rewrite Hgs in Hget.
    destruct Hkeep as [Hk1 Hk2].
    split; [exact Hfeed|]. split; [exact Hw|]. split; [exact Hro|].
    split; [exact Hsec|]. split; [exact Hcb|].
    split; [congruence|]. split; [congruence|]. exact Hget.
Qed.

Lemma total_size_pos chunks :
  Forall (fun c : list ascii => c <> []) chunks -> chunks <> [] ->
  0 < total_size chunks.
Proof.
  intros H Hne. destruct chunks as [|c cs]; [congruence|].
  apply Forall_cons in H. destruct H as [Hc _]. unfold total_size. simpl.
  rewrite length_app. destruct c; [congruence|simpl; lia].
Qed.

Lemma on_request_first srv req :
  on_request srv req [] None =
  {| ret := MHD_YES; req_cls := Some (snd (pb_acquire (pb_pool_st srv)));
     response := None; delivered := None;
     server_after := set_pool srv (fst (pb_acquire (pb_pool_st srv))) |}.
Proof.
  unfold on_request. now destruct (pb_acquire (pb_pool_st srv)).
Qed.

(** One request from its first call to the response. *)
Lemma serve_spec srv req chunks :
  pool_wf (pb_pool_st srv) ->
  Forall (fun c => c <> []) chunks ->
  let o := serve srv req chunks in
  ret o = MHD_YES /\ req_cls o = None /\
  secret (server_after o) = secret srv /\
  update_cb (server_after o) = update_cb srv /\
  exists resp,
    response o = Some resp /\
    status resp = expected_status srv req chunks /\
    delivered o =
      if (status resp =? 200) && negb (bool_decide (chunks = [])) then
        match cJSON_Parse (c_str (concat chunks)) with
        | Some root => if update_cb srv then Some root else None
        | None => None
        end
      else None.
Proof.
  intros Hwf Hne o. subst o. unfold serve.
  rewrite on_request_first. cbn [req_cls server_after].
  destruct (pb_acquire_ok _ Hwf) as (Hwf1 & Hr1 & Hlen1).
  destruct (pb_acquire (pb_pool_st srv)) as [g1 r1]. simpl in Hwf1, Hr1, Hlen1.
  cbn [fst snd].
  destruct (feed_spec chunks (set_pool srv g1) req r1 Hwf1 Hr1 Hne)
    as (srv2 & r2 & Hfeed & Hwf2 & Hr2 & Hsec & Hcb & _ & _ & Hget).
  rewrite Hfeed. simpl in Hsec, Hcb, Hget.
  unfold on_request. change (0 <? length [])%nat with false. cbv iota.
  set (pb := pb_get (pb_pool_st srv2) r2) in *.
  pose proof (respond_status srv2 req pb) as Hst.
  pose proof (respond_delivered srv2 req pb) as Hnd.
  pose proof (respond_ok srv2 req pb) as Hok.
  destruct (respond srv2 req pb) as [resp root]. simpl in Hst, Hnd, Hok. simpl.
  split; [reflexivity|]. split; [reflexivity|].
  split; [assumption|]. split; [assumption|].
  exists resp. split; [reflexivity|].
  pose proof (fold_accumulate chunks (pb_get g1 r1) [] Hlen1 (or_introl Hlen1))
    as Hacc.
  cbn zeta in Hacc. rewrite <- Hget, Hlen1 in Hacc.
  rewrite !Z.add_0_l in Hacc.
  specialize (Hacc ltac:(unfold RESPONSE_BUF_MAX; lia)).
  assert (Hover : (RESPONSE_BUF_MAX <? len pb) =
                  (RESPONSE_BUF_MAX <=? total_size chunks)).
  { revert Hacc. destruct (Z.leb_spec RESPONSE_BUF_MAX (total_size chunks));
      intros Hacc.
    - rewrite Hacc. apply Z.ltb_lt. lia.
    - destruct Hacc as [-> _]. apply Z.ltb_ge. lia. }
  assert (Hstatus : status resp = expected_status srv req chunks).
  { rewrite Hst. unfold expected_status, secret_rejected. rewrite Hsec, Hover.
    reflexivity. }
  split; [exact Hstatus|].
  destruct (Z.eqb_spec (status resp) 200) as [E200|E200].
  2:{ simpl. now apply Hnd. }
  rewrite (Hok E200). simpl andb.
  assert (Hfit : total_size chunks < RESPONSE_BUF_MAX).
  { rewrite Hstatus in E200. unfold expected_status in E200.
    destruct (wrong_endpoint req); [discriminate|].
    destruct (secret_rejected srv req); [discriminate|].
    destruct (wrong_content_type req); [discriminate|].
    destruct (Z.leb_spec RESPONSE_BUF_MAX (total_size chunks));
      [discriminate|assumption]. }
  revert Hacc. destruct (Z.leb_spec RESPONSE_BUF_MAX (total_size chunks));
    [lia|]. intros [Hlen Hdata].
  destruct (decide (chunks = [])) as [->|Hnil].
  - rewrite bool_decide_eq_true_2 by reflexivity. simpl.
    rewrite Hlen. change (total_size []) with 0. change (0 <? 0) with false.
    now destruct (data pb).
  - rewrite bool_decide_eq_false_2 by assumption. simpl.
    rewrite (Hdata Hnil). simpl app.
    pose proof (total_size_pos chunks Hne Hnil) as Hpos.
    rewrite Hlen. destruct (Z.ltb_spec 0 (total_size chunks)); [|lia].
    now rewrite Hcb.
Qed.


(** C6 (amended): for every completed request the handler answers 404 for
    a method other than POST or a path other than /webhook; else 403 when
    the configured secret is not empty and the secret header is missing or
    differs; else 415 when Content-Type is missing or its first 16 bytes
    are not application/json in any letter case; else 413 when the whole
    body has 512 KiB or more bytes; else 200.  The update callback gets
    nothing unless the status is 200, and nothing when the body does not
    parse. *)
Theorem ingress_status_codes srv req chunks :
  pool_wf (pb_pool_st srv) ->
  Forall (fun c => c <> []) chunks ->
  let o := serve srv req chunks in
  exists resp,
    response o = Some resp /\
    status resp =
      (if wrong_endpoint req then 404
       else if secret_rejected srv req then 403
       else if wrong_content_type req then 415
       else if 512 * 1024 <=? Z.of_nat (length (concat chunks)) then 413
       else 200) /\
    (status resp <> 200 -> delivered o = None) /\
    (cJSON_Parse (c_str (concat chunks)) = None -> delivered o = None).
Proof.
  intros Hwf Hne o.
  destruct (serve_spec srv req chunks Hwf Hne)
    as (_ & _ & _ & _ & resp & Hresp & Hst & Hdel).
  fold o in Hresp, Hdel. exists resp.
  split; [exact Hresp|]. split; [exact Hst|]. split.
  - intros H200. rewrite Hdel.
    destruct (Z.eqb_spec (status resp) 200); [contradiction|reflexivity].
  - intros Hparse. rewrite Hdel, Hparse.
    now destruct ((status resp =? 200) && negb (bool_decide (chunks = []))).
Qed.

End Handler.

Definition example_server (s : list ascii) : Server :=
  {| pb_pool_st := pb_pool_init 8 pool_zero; secret := s; update_cb := true |}.

Definition example_request (hdr ct : option (list ascii)) : Request :=
  {| method := lit "POST"; url := lit "/webhook";
     secret_hdr := hdr; content_type := ct |}.

Lemma ingress_status_codes_witness :
  exists resp,
    response unit
      (serve unit (fun _ => Some tt) (example_server (lit "s3cret"))
         (example_request (Some (lit "s3cret"))
                          (Some (lit "Application/JSON; charset=utf-8")))
         [lit "{"; lit "}"]) = Some resp /\
    status resp = 200.
Proof.
  destruct (ingress_status_codes unit (fun _ => Some tt)
              (example_server (lit "s3cret"))
              (example_request (Some (lit "s3cret"))
                               (Some (lit "Application/JSON; charset=utf-8")))
              [lit "{"; lit "}"])
    as (resp & Hresp & Hst & _).
  - apply pb_pool_init_wf.
  - repeat constructor; discriminate.
  - exists resp. split; [exact Hresp|]. rewrite Hst. reflexivity.
Defined.

(** A body of exactly 512 KiB, which is not larger than 512 KiB, is
    answered 413. *)
Lemma status_at_limit_counterexample :
  let body := replicate (Z.to_nat (512 * 1024)) "a"%char in
  Z.of_nat (length body) = 512 * 1024 /\
  option_map status
    (response unit
       (serve unit (fun _ => None) (example_server [])
          (example_request None (Some (lit "application/json"))) [body]))
  = Some 413.
Proof.
  cbn zeta. split; [rewrite length_replicate; apply Z2Nat.id; lia|].
  destruct (serve_spec unit (fun _ => None) (example_server [])
              (example_request None (Some (lit "application/json")))
              [replicate (Z.to_nat (512 * 1024)) "a"%char])
    as (_ & _ & _ & _ & resp & Hresp & Hst & _).
  - apply pb_pool_init_wf.
  - constructor; [|constructor]. intros H. apply (f_equal length) in H.
    rewrite length_replicate in H. apply (f_equal Z.of_nat) in H.
    rewrite Z2Nat.id in H by lia. discriminate H.
  - rewrite Hresp. cbn [option_map]. rewrite Hst.
    unfold expected_status, total_size.
    cbn [concat]. rewrite app_nil_r, length_replicate, Z2Nat.id by lia.
    reflexivity.
Qed.

(** *** Further properties of the endpoint *)

(** X19. [ct_strcmp] returns 0 or 1, and 0 exactly when the two strings
    are equal: the verdict of [strcmp], whatever the lengths. *)
Theorem ct_strcmp_verdict a b :
  (ct_strcmp a b = 0 \/ ct_strcmp a b = 1) /\
  (ct_strcmp a b = 0 <-> c_str a = c_str b) /\
  (ct_strcmp a b = 0 <-> strcmp a b = 0).
Proof.
  split; [|split].
  - unfold ct_strcmp. destruct (_ =? 0); auto.
  - apply ct_strcmp_eq.
  - rewrite ct_strcmp_eq, strcmp_eq. reflexivity.
Qed.

(** X20. [pb_pool_init] sets the pool size to the argument clamped to
    1..64, with 8 for an argument below 1; all these slots are free and
    empty, and the free stack names slot [i] at index [i]. *)
Theorem pb_pool_init_clamps size :
  let n := if size <? 1 then 8
           else (if PB_POOL_MAX <? size then PB_POOL_MAX else size) in
  let g := pb_pool_init size pool_zero in
  pool_size g = n /\ free_top g = n /\ 1 <= n <= PB_POOL_MAX /\
  forall i, 0 <= i < n ->
    free_stack g !! Z.to_nat i = Some i /\ pool g !! Z.to_nat i = Some zero_pb.
Proof.
  cbn zeta. destruct (pb_pool_init_spec size) as (H1 & H2 & H3 & _ & _ & H4).
  auto.
Qed.

(** The slots on the free stack. *)
Definition free_slots (g : pb_pool) : list Z :=
  take (Z.to_nat (free_top g)) (free_stack g).

(** X21. While the pool has a free slot, [pb_acquire] hands out the slot
    on top of the free stack, with its length reset and its old buffer
    kept, and takes it off the stack: with no slot named twice on the
    stack it cannot be handed out again before it is released.  With no
    free slot the buffer comes from the heap and the pool is untouched. *)
Theorem pb_acquire_takes_free_slot g :
  pool_wf g -> NoDup (free_slots g) ->
  let g' := fst (pb_acquire g) in
  let r := snd (pb_acquire g) in
  (0 < free_top g ->
   exists idx old,
     r = InPool idx /\ 0 <= idx < pool_size g /\
     free_slots g = free_slots g' ++ [idx] /\ (idx ∉ free_slots g') /\
     NoDup (free_slots g') /\
     pool g !! Z.to_nat idx = Some old /\
     pb_get g' r = {| data := data old; len := 0; cap := cap old |}) /\
  (free_top g = 0 -> g' = g /\ r = OnHeap zero_pb).
Proof.
  intros (Hl & Hf & Ht & Hs & Hi) Hnd. cbn zeta. unfold pb_acquire.
  destruct (Z.ltb_spec 0 (free_top g)) as [Hpos|Hnpos].
  2:{ cbn [fst snd]. split; [lia|]. auto. }
  split; [|lia]. intros _.
  destruct (Hi (free_top g - 1)) as (idx & Hidx & Hrange); [lia|].
  rewrite Hidx. cbn [default from_option id fst snd].
  assert (Hin : (Z.to_nat idx < length (pool g))%nat).
  { rewrite Hl. unfold PB_POOL_MAX in *. lia. }
  destruct (lookup_lt_is_Some_2 _ _ Hin) as [old Hold].
  rewrite Hold. cbn [default from_option id].
  assert (Hsplit : free_slots g =
            take (Z.to_nat (free_top g - 1)) (free_stack g) ++ [idx]).
  { unfold free_slots.
    replace (Z.to_nat (free_top g)) with (S (Z.to_nat (free_top g - 1))) by lia.
    now apply take_S_r. }
  exists idx, old. unfold free_slots at 2 3 4. cbn [free_top free_stack].
  rewrite Hsplit in Hnd. apply NoDup_app in Hnd as (Hnd1 & Hnd2 & _).
  split; [reflexivity|]. split; [exact Hrange|]. split; [exact Hsplit|].
  split.
  { intros Hx. apply (Hnd2 _ Hx). constructor. }
  split; [exact Hnd1|]. split; [exact Hold|].
  cbn [pb_get pool]. rewrite list_lookup_insert_eq by exact Hin. reflexivity.
Qed.

Lemma pb_acquire_takes_free_slot_witness :
  let g := pb_pool_init 2 pool_zero in
  let g' := fst (pb_acquire g) in
  let r := snd (pb_acquire g) in
  (0 < free_top g ->
   exists idx old,
     r = InPool idx /\ 0 <= idx < pool_size g /\
     free_slots g = free_slots g' ++ [idx] /\ (idx ∉ free_slots g') /\
     NoDup (free_slots g') /\
     pool g !! Z.to_nat idx = Some old /\
     pb_get g' r = {| data := data old; len := 0; cap := cap old |}) /\
  (free_top g = 0 -> g' = g /\ r = OnHeap zero_pb).
Proof.
  apply (pb_acquire_takes_free_slot (pb_pool_init 2 pool_zero)).
  - apply pb_pool_init_wf.
  - change (free_slots (pb_pool_init 2 pool_zero)) with [0; 1].
    apply NoDup_cons. split; [|apply NoDup_singleton].
    intros H. apply list_elem_of_singleton in H. discriminate H.
Defined.

(** X22. [pb_release] puts a pool slot back on top of the free stack with
    its length reset and its buffer kept; a heap buffer leaves the pool as
    it is. *)
Theorem pb_release_returns_slot g idx :
  pool_wf g -> 0 <= idx < pool_size g -> free_top g < pool_size g ->
  let g' := pb_release g (InPool idx) in
  free_slots g' = free_slots g ++ [idx] /\
  free_top g' = free_top g + 1 /\ pool_wf g' /\
  len (pb_get g' (InPool idx)) = 0 /\
  data (pb_get g' (InPool idx)) = data (pb_get g (InPool idx)) /\
  cap (pb_get g' (InPool idx)) = cap (pb_get g (InPool idx)) /\
  forall h, pb_release g (OnHeap h) = g.
Proof.
  intros Hwf Hidx Hroom. pose proof (pb_release_wf g (InPool idx) Hwf Hroom) as Hwf'.
  destruct Hwf as (Hl & Hf & Ht & Hs & Hi). cbn zeta. unfold pb_release in *.
  destruct (Z.leb_spec 0 idx); [|lia].
  destruct (Z.ltb_spec idx (pool_size g)); [|lia]. cbn [andb negb] in *.
  assert (Hin : (Z.to_nat idx < length (pool g))%nat).
  { rewrite Hl. unfold PB_POOL_MAX in *. lia. }
  split; [|split; [reflexivity|split; [exact Hwf'|]]].
  - unfold free_slots. cbn [free_top free_stack].
    replace (Z.to_nat (free_top g + 1)) with (S (Z.to_nat (free_top g))) by lia.
    rewrite (take_S_r _ _ idx).
    + f_equal. apply take_insert_ge. lia.
    + apply list_lookup_insert_eq. rewrite Hf. unfold PB_POOL_MAX in *. lia.
  - cbn [pb_get pool]. rewrite list_lookup_insert_eq by exact Hin.
    cbn [default from_option id len data cap]. auto.
Qed.

Lemma pb_release_returns_slot_witness :
  let g := fst (pb_acquire (pb_pool_init 2 pool_zero)) in
  let g' := pb_release g (InPool 1) in
  free_slots g' = free_slots g ++ [1] /\
  free_top g' = free_top g + 1 /\ pool_wf g' /\
  len (pb_get g' (InPool 1)) = 0 /\
  data (pb_get g' (InPool 1)) = data (pb_get g (InPool 1)) /\
  cap (pb_get g' (InPool 1)) = cap (pb_get g (InPool 1)) /\
  forall h, pb_release g (OnHeap h) = g.
Proof.
  apply (pb_release_returns_slot (fst (pb_acquire (pb_pool_init 2 pool_zero))) 1).
  - apply pb_acquire_ok, pb_pool_init_wf.
  - vm_compute. split; [discriminate|reflexivity].
  - vm_compute. reflexivity.
Defined.

Lemma feed_free_stack json parse chunks : forall srv req r,
  Forall (fun c : list ascii => c <> []) chunks ->
  free_stack (pb_pool_st (fst (feed json parse srv req chunks (Some r)))) =
    free_stack (pb_pool_st srv) /\
  match r with
  | InPool idx => snd (feed json parse srv req chunks (Some r)) = Some (InPool idx)
  | OnHeap _ =>
      (exists h, snd (feed json parse srv req chunks (Some r)) = Some (OnHeap h)) /\
      pb_pool_st (fst (feed json parse srv req chunks (Some r))) = pb_pool_st srv
  end.
Proof.
  induction chunks as [|c cs IH]; intros srv req r Hne.
  - simpl. split; [reflexivity|]. destruct r; eauto.
  - apply Forall_cons in Hne as [Hc Hcs]. cbn [feed]. unfold on_request.
    assert (Hpos : (0 <? length c)%nat = true).
    { apply Nat.ltb_lt. destruct c; [congruence|simpl; lia]. }
    rewrite Hpos. destruct r as [idx|h]; cbn [pb_set req_cls server_after].
    + destruct (IH (set_pool srv
                      {| pool := <[Z.to_nat idx := accumulate (pb_get (pb_pool_st srv) (InPool idx)) c]>
                                   (pool (pb_pool_st srv));
                         free_stack := free_stack (pb_pool_st srv);
                         free_top := free_top (pb_pool_st srv);
                         pool_size := pool_size (pb_pool_st srv) |})
                   req (InPool idx) Hcs) as [H1 H2].
      split; [rewrite H1; reflexivity|exact H2].
    + destruct (IH (set_pool srv (pb_pool_st srv)) req
                   (OnHeap (accumulate (pb_get (pb_pool_st srv) (OnHeap h)) c)) Hcs)
        as [H1 [H2 H3]].
      split; [rewrite H1; reflexivity|]. split; [exact H2|].
      rewrite H3. reflexivity.
Qed.

(** X23. A request gives its body buffer back: after the response the
    free stack and its top are as before the request, the pool is still
    well formed, and a request served from the heap because no slot was
    free leaves the pool as it was. *)
Theorem serve_returns_buffer (json : Type) (parse : list ascii -> option json)
    srv req chunks :
  pool_wf (pb_pool_st srv) ->
  Forall (fun c : list ascii => c <> []) chunks ->
  let g := pb_pool_st srv in
  let g' := pb_pool_st (server_after json (serve json parse srv req chunks)) in
  free_top g' = free_top g /\ free_stack g' = free_stack g /\
  pool_size g' = pool_size g /\ pool_wf g' /\
  (free_top g = 0 -> g' = g).
Proof.
  intros Hwf Hne. cbn zeta. unfold serve. rewrite on_request_first.
  cbn [req_cls server_after].
  destruct (pb_acquire_ok _ Hwf) as (Hwf1 & Hr1 & _).
  assert (Hacq : (0 < free_top (pb_pool_st srv) /\
                  exists idx, snd (pb_acquire (pb_pool_st srv)) = InPool idx /\
                    free_stack (pb_pool_st srv)
                      !! Z.to_nat (free_top (pb_pool_st srv) - 1) = Some idx /\
                    free_top (fst (pb_acquire (pb_pool_st srv))) =
                      free_top (pb_pool_st srv) - 1 /\
                    free_stack (fst (pb_acquire (pb_pool_st srv))) =
                      free_stack (pb_pool_st srv) /\
                    pool_size (fst (pb_acquire (pb_pool_st srv))) =
                      pool_size (pb_pool_st srv)) \/
                 (free_top (pb_pool_st srv) = 0 /\
                  pb_acquire (pb_pool_st srv) = (pb_pool_st srv, OnHeap zero_pb))).
  { destruct Hwf as (_ & _ & Ht & _ & Hi). unfold pb_acquire.
    destruct (Z.ltb_spec 0 (free_top (pb_pool_st srv))) as [Hpos|Hnpos].
    - left. split; [exact Hpos|].
      destruct (Hi (free_top (pb_pool_st srv) - 1)) as (idx & Hidx & _); [lia|].
      exists idx. rewrite Hidx. cbn [fst snd default from_option id
                                     free_top free_stack pool_size]. auto.
    - right. split; [lia|reflexivity]. }
  destruct (pb_acquire (pb_pool_st srv)) as [g1 r1]. cbn [fst snd] in *.
  destruct (feed_spec json parse chunks (set_pool srv g1) req r1 Hwf1 Hr1 Hne)
    as (srv2 & r2 & Hfeed & Hwf2 & Hr2 & _ & _ & Hft & Hps & _).
  destruct (feed_free_stack json parse chunks (set_pool srv g1) req r1 Hne)
    as [Hfs Hkind].
  rewrite Hfeed in Hfs, Hkind |- *. cbn [fst snd set_pool pb_pool_st] in *.
  unfold on_request. change (0 <? length (@nil ascii))%nat with false. cbv iota.
  destruct (respond json parse srv2 req (pb_get (pb_pool_st srv2) r2)) as [resp root].
  cbn [server_after set_pool pb_pool_st].
  destruct Hacq as [(Hpos & idx & -> & Hidx & Htop & Hstack & Hsize)|(H0 & Heq)].
  - injection Hkind as ->. cbn [ref_ok] in Hr2.
    pose proof Hwf2 as (Hl2 & Hf2 & _).
    assert (Hroom : free_top (pb_pool_st srv2) < pool_size (pb_pool_st srv2)).
    { destruct Hwf as (_ & _ & Ht & _). lia. }
    pose proof (pb_release_wf _ (InPool idx) Hwf2 Hroom) as Hwf3.
    unfold pb_release in *.
    destruct (Z.leb_spec 0 idx); [|lia].
    destruct (Z.ltb_spec idx (pool_size (pb_pool_st srv2))); [|lia].
    cbn [andb negb free_top free_stack pool_size] in *.
    split; [lia|]. split.
    { rewrite Hfs, Hft, Htop, Hstack. now apply list_insert_id. }
    split; [lia|]. split; [exact Hwf3|]. lia.
  - injection Heq as -> ->. destruct Hkind as [[h Hh] Hsame].
    injection Hh as ->.
    cbn [pb_release]. rewrite Hsame.
    split; [reflexivity|]. split; [reflexivity|]. split; [reflexivity|].
    split; [exact Hwf|]. reflexivity.
Qed.

Lemma serve_returns_buffer_witness :
  let srv := example_server (lit "s3cret") in
  let req := example_request (Some (lit "s3cret")) (Some (lit "application/json")) in
  let g := pb_pool_st srv in
  let g' := pb_pool_st (server_after unit
                          (serve unit (fun _ => Some tt) srv req
                             [lit "{"; lit "}"])) in
  free_top g' = free_top g /\ free_stack g' = free_stack g /\
  pool_size g' = pool_size g /\ pool_wf g' /\
  (free_top g = 0 -> g' = g).
Proof.
  apply (serve_returns_buffer unit (fun _ => Some tt)
           (example_server (lit "s3cret"))
           (example_request (Some (lit "s3cret")) (Some (lit "application/json")))
           [lit "{"; lit "}"]).
  - apply pb_pool_init_wf.
  - repeat constructor; discriminate.
Defined.

(** Capacities the doubling reaches: none yet, or a power of two from
    4096 to 512 KiB. *)
Definition cap_ok (c : Z) : Prop :=
  c = 0 \/ exists k, 12 <= k <= 19 /\ c = 2 ^ k.

Lemma grow_cap_spec fuel : forall j need,
  12 <= j <= 19 -> need <= 2 ^ 19 -> 19 - j < Z.of_nat fuel ->
  exists k, j <= k <= 19 /\ grow_cap fuel (2 ^ j) need = 2 ^ k /\ need <= 2 ^ k.
Proof.
  induction fuel as [|f IH]; intros j need Hj Hneed Hf; [lia|].
  cbn [grow_cap]. destruct (Z.ltb_spec (2 ^ j) need) as [Hlt|Hge].
  - assert (Hj19 : j < 19).
    { destruct (Z.eq_dec j 19) as [->|]; [lia|lia]. }
    replace (2 ^ j * 2) with (2 ^ (j + 1))
      by (rewrite Z.pow_add_r by lia; lia).
    destruct (IH (j + 1) need) as (k & Hk & Hg & Hn); [lia|lia|lia|].
    exists k. split; [lia|]. split; assumption.
  - exists j. split; [lia|]. split; [reflexivity|lia].
Qed.

Lemma accumulate_cap pb chunk :
  cap_ok (cap pb) -> 0 <= len pb ->
  cap_ok (cap (accumulate pb chunk)) /\ 0 <= len (accumulate pb chunk) /\
  (len (accumulate pb chunk) = RESPONSE_BUF_MAX + 1 \/
   len (accumulate pb chunk) < cap (accumulate pb chunk)).
Proof.
  intros Hcap Hlen. unfold accumulate.
  destruct (Z.ltb_spec RESPONSE_BUF_MAX (len pb + Z.of_nat (length chunk) + 1))
    as [Hov|Hfit]; cbn [cap len].
  - split; [exact Hcap|]. unfold RESPONSE_BUF_MAX. split; [lia|]. left. reflexivity.
  - change RESPONSE_BUF_MAX with (2 ^ 19) in Hfit.
    destruct (Z.ltb_spec (cap pb) (len pb + Z.of_nat (length chunk) + 1))
      as [Hgrow|Hroom].
    + assert (Hstart : exists j, 12 <= j <= 19 /\
                (if cap pb =? 0 then 4096 else cap pb * 2) = 2 ^ j).
      { destruct Hcap as [Hc|(k & Hk & Hc)]; rewrite Hc in *.
        - exists 12. split; [lia|reflexivity].
        - assert (Hk19 : k < 19).
          { destruct (Z.eq_dec k 19) as [->|]; [|lia].
            change (2 ^ 19) with 524288 in *. lia. }
          exists (k + 1). split; [lia|].
          assert (0 < 2 ^ k) by (apply Z.pow_pos_nonneg; lia).
          destruct (Z.eqb_spec (2 ^ k) 0); [lia|].
          rewrite Z.pow_add_r by lia. lia. }
      destruct Hstart as (j & Hj & ->).
      destruct (grow_cap_spec 64 j (len pb + Z.of_nat (length chunk) + 1) Hj Hfit)
        as (k & Hk & -> & Hn); [lia|].
      split; [right; exists k; split; [lia|reflexivity]|]. split; [lia|].
      right. lia.
    + split; [exact Hcap|]. split; [lia|]. right. lia.
Qed.

(** X24. The body buffer never grows beyond 512 KiB: from a buffer that
    has no storage yet or one of the capacities the doubling reaches,
    after any upload the capacity is again such a capacity, and either the
    body is marked as oversized or its bytes and the terminator fit the
    capacity. *)
Theorem upload_buffer_bounded chunks : forall pb,
  cap_ok (cap pb) -> len pb = 0 -> chunks <> [] ->
  let pb' := fold_left accumulate chunks pb in
  cap_ok (cap pb') /\ cap pb' <= RESPONSE_BUF_MAX /\
  (len pb' = RESPONSE_BUF_MAX + 1 \/ 0 <= len pb' < cap pb').
Proof.
  assert (Hgen : forall cs pb,
            cap_ok (cap pb) -> 0 <= len pb ->
            (len pb = RESPONSE_BUF_MAX + 1 \/ len pb < cap pb) ->
            cap_ok (cap (fold_left accumulate cs pb)) /\
            0 <= len (fold_left accumulate cs pb) /\
            (len (fold_left accumulate cs pb) = RESPONSE_BUF_MAX + 1 \/
             len (fold_left accumulate cs pb) < cap (fold_left accumulate cs pb))).
  { induction cs as [|c cs IH]; intros pb Hc Hl Hs; [auto|].
    cbn [fold_left]. destruct (accumulate_cap pb c Hc Hl) as (Hc' & Hl' & Hs').
    now apply IH. }
  intros pb Hc Hl Hne. destruct chunks as [|c cs]; [congruence|].
  cbn zeta. cbn [fold_left].
  destruct (accumulate_cap pb c Hc ltac:(lia)) as (Hc' & Hl' & Hs').
  destruct (Hgen cs _ Hc' Hl' Hs') as (H1 & H2 & H3).
  split; [exact H1|]. split.
  - destruct H1 as [->|(k & Hk & ->)]; [unfold RESPONSE_BUF_MAX; lia|].
    change RESPONSE_BUF_MAX with (2 ^ 19). apply Z.pow_le_mono_r; lia.
  - destruct H3; [left; assumption|right; lia].
Qed.

Lemma upload_buffer_bounded_witness :
  let pb' := fold_left accumulate [lit "{"; lit "}"] zero_pb in
  cap_ok (cap pb') /\ cap pb' <= RESPONSE_BUF_MAX /\
  (len pb' = RESPONSE_BUF_MAX + 1 \/ 0 <= len pb' < cap pb').
Proof.
  apply (upload_buffer_bounded [lit "{"; lit "}"] zero_pb).
  - left. reflexivity.
  - reflexivity.
  - discriminate.
Defined.

(** X25. A request that passes the checks, with a body below the limit,
    is answered 200 and its body, as the string up to its first NUL byte,
    is given to [cJSON_Parse]; the update callback is invoked with the
    tree exactly when the body parses and a callback is set.  A request
    without a body is answered 200 without a parse. *)
Theorem valid_request_is_delivered (json : Type)
    (parse : list ascii -> option json) srv req chunks :
  pool_wf (pb_pool_st srv) ->
  Forall (fun c : list ascii => c <> []) chunks ->
  wrong_endpoint req = false -> secret_rejected srv req = false ->
  wrong_content_type req = false -> total_size chunks < RESPONSE_BUF_MAX ->
  let o := serve json parse srv req chunks in
  option_map status (response json o) = Some 200 /\
  delivered json o =
    match chunks with
    | [] => None
    | _ => match parse (c_str (concat chunks)) with
           | Some root => if update_cb srv then Some root else None
           | None => None
           end
    end.
Proof.
  intros Hwf Hne H1 H2 H3 Hsize o.
  destruct (serve_spec json parse srv req chunks Hwf Hne)
    as (_ & _ & _ & _ & resp & Hresp & Hst & Hdel).
  fold o in Hresp, Hdel. rewrite Hresp, Hdel. cbn [option_map].
  rewrite Hst. unfold expected_status.
  rewrite H1, H2, H3.
  destruct (Z.leb_spec RESPONSE_BUF_MAX (total_size chunks)); [lia|].
  split; [reflexivity|]. cbn [Z.eqb andb].
  destruct chunks as [|c cs].
  - rewrite bool_decide_eq_true_2 by reflexivity. reflexivity.
  - rewrite bool_decide_eq_false_2 by discriminate. reflexivity.
Qed.

Lemma valid_request_is_delivered_witness :
  let srv := example_server (lit "s3cret") in
  let req := example_request (Some (lit "s3cret"))
                             (Some (lit "application/json; charset=utf-8")) in
  let o := serve unit (fun _ => Some tt) srv req [lit "{"; lit "}"] in
  option_map status (response unit o) = Some 200 /\
  delivered unit o =
    match (fun _ : list ascii => Some tt) (c_str (concat [lit "{"; lit "}"])) with
    | Some root => if update_cb srv then Some root else None
    | None => None
    end.
Proof.
  apply (valid_request_is_delivered unit (fun _ => Some tt)
           (example_server (lit "s3cret"))
           (example_request (Some (lit "s3cret"))
                            (Some (lit "application/json; charset=utf-8")))
           [lit "{"; lit "}"]).
  - apply pb_pool_init_wf.
  - repeat constructor; discriminate.
  - reflexivity.
  - vm_compute. reflexivity.
  - vm_compute. reflexivity.
  - vm_compute. reflexivity.
Defined.

End Webhook.

(** ** Circular log file (src/logger.c) *)

Module Logger.
Import CStr.

Definition NL : ascii := "010"%char.

Definition MARKER : list ascii := lit "---^-OVERWRITE-^---" ++ [NL].
Definition MARKER_LEN : Z := 20.
Definition LINE_BUF_MAX : Z := 4096.
Definition MIN_FILE_CAP : Z := 256.
Definition TIMESTAMP_BUF : Z := 32.

Inductive LogLevel := LOG_DEBUG | LOG_INFO | LOG_WARN | LOG_ERROR.

Definition level_val (l : LogLevel) : Z :=
  match l with
  | LOG_DEBUG => 0
  | LOG_INFO => 1
  | LOG_WARN => 2
  | LOG_ERROR => 3
  end.

Definition g_level_tags (l : LogLevel) : list ascii :=
  match l with
  | LOG_DEBUG => lit "DEBUG"
  | LOG_INFO => lit "INFO"
  | LOG_WARN => lit "WARN"
  | LOG_ERROR => lit "ERROR"
  end.

(** The fields of [struct tm] that [fmt_timestamp] reads. *)
Record tm := mkTm {
  tm_year : Z;
  tm_mon : Z;
  tm_mday : Z;
  tm_hour : Z;
  tm_min : Z;
  tm_sec : Z
}.

(** The logger's statics, the log file and what went to stderr.  [disk] is
    the file at the log path, [None] while it does not exist; [g_fp] tells
    whether the stream is open. *)
Record Logger := mkLogger {
  disk : option (list ascii);
  g_fp : bool;
  g_max_bytes : Z;
  g_write_pos : Z;
  g_overwriting : bool;
  g_initialised : bool;
  g_min_level : LogLevel;
  stderr : list ascii
}.

(** The statics at program start. *)
Definition logger_start (d : option (list ascii)) : Logger :=
  {| disk := d; g_fp := false; g_max_bytes := 0; g_write_pos := 0;
     g_overwriting := false; g_initialised := false; g_min_level := LOG_INFO;
     stderr := [] |}.

(** [printf]'s [%0Nd]. *)
Definition fmt_0d (width : nat) (z : Z) : list ascii :=
  if z <? 0 then
    let ds := Whitelist.print_digits 20 (- z) [] in
    "-"%char :: replicate (width - 1 - length ds) "0"%char ++ ds
  else
    let ds := Whitelist.print_digits 20 z [] in
    replicate (width - length ds) "0"%char ++ ds.

(** [printf]'s [%-5s]. *)
Definition fmt_left (width : nat) (s : list ascii) : list ascii :=
  s ++ replicate (width - length s) " "%char.

(** [fmt_timestamp] for the broken-down time [t] that [gmtime_r] gave. *)
Definition fmt_timestamp (t : tm) (cap : Z) : list ascii :=
  let year := tm_year t + 1900 in
  let year := if year <? 0 then 0 else year in
  let year := if 9999 <? year then 9999 else year in
  take (Z.to_nat (cap - 1))
    (lit "[" ++ fmt_0d 4 year ++ lit "-" ++
     fmt_0d 2 (Z.rem (tm_mon t + 1) 100) ++ lit "-" ++
     fmt_0d 2 (Z.rem (tm_mday t) 100) ++ lit " " ++
     fmt_0d 2 (Z.rem (tm_hour t) 100) ++ lit ":" ++
     fmt_0d 2 (Z.rem (tm_min t) 100) ++ lit ":" ++
     fmt_0d 2 (Z.rem (tm_sec t) 100) ++ lit "] ").

(** [fseek] to [pos] and [fwrite] of [data]: bytes in place are replaced,
    the file grows as needed, a gap reads as zero bytes. *)
Definition fwrite_at (f : list ascii) (pos : Z) (data : list ascii) : list ascii :=
  let p := Z.to_nat pos in
  take p f ++ replicate (p - length f) NUL ++ data ++ drop (p + length data) f.

Definition set_file (st : Logger) (f : list ascii) (pos : Z) (ow : bool) : Logger :=
  {| disk := Some f; g_fp := g_fp st; g_max_bytes := g_max_bytes st;
     g_write_pos := pos; g_overwriting := ow;
     g_initialised := g_initialised st; g_min_level := g_min_level st;
     stderr := stderr st |}.

Definition file_of (st : Logger) : list ascii := default [] (disk st).

(** [memchr(p, '\n', n)] over the rest of the buffer. *)
Fixpoint memchr_nl (p : list ascii) : option nat :=
  match p with
  | [] => None
  | c :: p' => if Ascii.eqb c NL then Some O else option_map S (memchr_nl p')
  end.

(** The scan of [find_marker]: [p] and [e] are offsets into [buf]. *)
Fixpoint find_loop (fuel : nat) (buf : list ascii) (p : nat) (e : Z) : Z :=
  match fuel with
  | O => -1
  | S fuel' =>
      if Z.of_nat p <=? e then
        if bool_decide (take (Z.to_nat MARKER_LEN) (drop p buf) = MARKER)
        then Z.of_nat p
        else match memchr_nl (drop p buf) with
             | None => -1
             | Some k => find_loop fuel' buf (p + k + 1) e
             end
      else -1
  end.

Definition find_marker (buf : list ascii) : Z :=
  let file_size := Z.of_nat (length buf) in
  if file_size <? MARKER_LEN then -1
  else find_loop (S (length buf)) buf 0 (file_size - MARKER_LEN).

(** [raw_write(data, len)]. *)
Definition raw_write (data : list ascii) (st : Logger) : Logger :=
  if negb (g_fp st) || (length data =? 0)%nat then st
  else set_file st (fwrite_at (file_of st) (g_write_pos st) data)
                (g_write_pos st + Z.of_nat (length data)) (g_overwriting st).

Definition write_marker (st : Logger) : Logger :=
  if negb (g_overwriting st) || negb (g_fp st) then st
  else set_file st (fwrite_at (file_of st) (g_write_pos st) MARKER)
                (g_write_pos st) (g_overwriting st).

(** [log_init(path, max_bytes)] with the file at [path] in [disk]: the
    value returned and the state. *)
Definition log_init (max_bytes : Z) (st : Logger) : Z * Logger :=
  if max_bytes <? MIN_FILE_CAP then (-1, st)
  else
    let f := default [] (disk st) in
    let file_size := Z.of_nat (length f) in
    let '(pos, ow) :=
      if 0 <? file_size then
        let marker_off := find_marker f in
        if 0 <=? marker_off then (marker_off, true)
        else if max_bytes <=? file_size then (0, true)
        else (file_size, false)
      else (0, false) in
    (0, {| disk := Some f; g_fp := true; g_max_bytes := max_bytes;
           g_write_pos := pos; g_overwriting := ow; g_initialised := true;
           g_min_level := g_min_level st; stderr := stderr st |}).

Definition log_close (st : Logger) : Logger :=
  {| disk := disk st; g_fp := false; g_max_bytes := g_max_bytes st;
     g_write_pos := g_write_pos st; g_overwriting := g_overwriting st;
     g_initialised := false; g_min_level := g_min_level st;
     stderr := stderr st |}.

Definition log_set_level (level : LogLevel) (st : Logger) : Logger :=
  {| disk := disk st; g_fp := g_fp st; g_max_bytes := g_max_bytes st;
     g_write_pos := g_write_pos st; g_overwriting := g_overwriting st;
     g_initialised := g_initialised st; g_min_level := level;
     stderr := stderr st |}.

(** The bytes of [line] and [total] after formatting: [msg] is the text
    the format and its arguments expand to. *)
Definition format_line (level : LogLevel) (t : tm) (msg : list ascii) : list ascii :=
  let ts := fmt_timestamp t TIMESTAMP_BUF in
  let prefix := ts ++ lit "[" ++ fmt_left 5 (g_level_tags level) ++ lit "] " in
  let buf := take (Z.to_nat (LINE_BUF_MAX - 1)) (prefix ++ msg) in
  let total := Z.of_nat (length prefix) + Z.of_nat (length msg) in
  let total := if LINE_BUF_MAX - 1 <=? total then LINE_BUF_MAX - 2 else total in
  let line := take (Z.to_nat total) buf in
  if (total =? 0) ||
     negb (Ascii.eqb (default NUL (buf !! Z.to_nat (total - 1))) NL)
  then line ++ [NL]
  else line.

Definition blanks : list ascii :=
  replicate (Z.to_nat (MARKER_LEN - 1)) " "%char ++ [NL].

Definition to_stderr (st : Logger) (line : list ascii) : Logger :=
  {| disk := disk st; g_fp := g_fp st; g_max_bytes := g_max_bytes st;
     g_write_pos := g_write_pos st; g_overwriting := g_overwriting st;
     g_initialised := g_initialised st; g_min_level := g_min_level st;
     stderr := stderr st ++ c_str line |}.

(** [log_write(level, fmt, ...)] at time [t]. *)
Definition log_write (level : LogLevel) (t : tm) (msg : list ascii)
    (st : Logger) : Logger :=
  if level_val level <? level_val (g_min_level st) then st
  else
    let line := format_line level t msg in
    let st := to_stderr st line in
    if negb (g_fp st) then st
    else
      let line_len := Z.of_nat (length line) in
      let usable := g_max_bytes st - MARKER_LEN in
      let line_len := if usable <? line_len then usable else line_len in
      let space_needed :=
        line_len + (if g_overwriting st then MARKER_LEN else 0) in
      let st :=
        if g_max_bytes st <? g_write_pos st + space_needed then
          let f :=
            if g_overwriting st &&
               (g_write_pos st + MARKER_LEN <=? g_max_bytes st)
            then fwrite_at (file_of st) (g_write_pos st) blanks
            else file_of st in
          set_file st f 0 true
        else st in
      write_marker (raw_write (take (Z.to_nat line_len) line) st).

(** Number of places where the overwrite marker occurs in the file. *)
Definition count_marker (f : list ascii) : nat :=
  length (filter (fun o => take (Z.to_nat MARKER_LEN) (drop o f) = MARKER)
                 (seq 0 (length f))).


(** *** Occurrences of a pattern in a file *)

Definition occurs_at (pat f : list ascii) (o : nat) : Prop :=
  take (length pat) (drop o f) = pat.

Lemma occurs_at_lookup pat f o :
  occurs_at pat f o <->
  forall j, (j < length pat)%nat -> f !! (o + j)%nat = pat !! j.
Proof.
  unfold occurs_at. split.
  - intros H j Hj.
    transitivity (take (length pat) (drop o f) !! j); [|now rewrite H].
    rewrite lookup_take_lt by assumption. now rewrite lookup_drop.
  - intros H. apply list_eq. intros j.
    destruct (decide (j < length pat)%nat) as [Hj|Hj].
    + rewrite lookup_take_lt by assumption. rewrite lookup_drop. now apply H.
    + rewrite lookup_take_ge by lia. symmetry. apply lookup_ge_None. lia.
Qed.

Lemma length_fwrite_at f p d :
  length (fwrite_at f p d) =
  Nat.max (length f) (Z.to_nat p + length d).
Proof.
  unfold fwrite_at. rewrite !length_app, length_take, length_replicate, length_drop.
  lia.
Qed.

Lemma lookup_fwrite_at f p d i :
  (Z.to_nat p <= length f)%nat ->
  fwrite_at f p d !! i =
  if (i <? Z.to_nat p)%nat then f !! i
  else if (i <? Z.to_nat p + length d)%nat then d !! (i - Z.to_nat p)%nat
  else f !! i.
Proof.
  intros Hp. unfold fwrite_at.
  replace (Z.to_nat p - length f)%nat with 0%nat by lia. simpl replicate.
  rewrite app_nil_l.
  destruct (Nat.ltb_spec i (Z.to_nat p)) as [H1|H1].
  - rewrite lookup_app_l by (rewrite length_take; lia).
    now rewrite lookup_take_lt.
  - rewrite lookup_app_r by (rewrite length_take; lia).
    rewrite length_take. replace (Z.to_nat p `min` length f)%nat with (Z.to_nat p) by lia.
    destruct (Nat.ltb_spec i (Z.to_nat p + length d)) as [H2|H2].
    + now rewrite lookup_app_l by lia.
    + rewrite lookup_app_r by lia. rewrite lookup_drop. f_equal. lia.
Qed.

(** *** The marker *)

Lemma marker_length : length MARKER = 20%nat.
Proof. reflexivity. Qed.

Lemma marker_chars j c :
  MARKER !! j = Some c -> c <> " "%char /\ c <> "["%char /\ (c = NL -> j = 19%nat).
Proof.
  do 20 (destruct j as [|j];
         [intros [= <-]; repeat split; discriminate || reflexivity|]).
  discriminate.
Qed.

Lemma marker_last : MARKER !! 19%nat = Some NL.
Proof. reflexivity. Qed.

Lemma marker_lookup j : (j < 20)%nat -> exists c, MARKER !! j = Some c.
Proof.
  intros H. apply lookup_lt_is_Some. rewrite marker_length. exact H.
Qed.

(** A file in which the marker does not occur. *)
Definition marker_free (f : list ascii) : Prop :=
  forall o, ~ occurs_at MARKER f o.

(** After a line that starts with [[] and holds no marker is written at
    [p] and the marker behind it, the marker occurs there and nowhere else,
    when it occurred nowhere outside the bytes replaced. *)
Lemma occurs_after_line_marker g p L o :
  0 <= p -> (Z.to_nat p <= length g)%nat ->
  L !! 0%nat = Some "["%char -> marker_free L ->
  (forall o', occurs_at MARKER g o' ->
              (Z.to_nat p <= o' < Z.to_nat p + length L + 20)%nat) ->
  occurs_at MARKER
    (fwrite_at (fwrite_at g p L) (p + Z.of_nat (length L)) MARKER) o <->
  o = (Z.to_nat p + length L)%nat.
Proof.
  intros Hp0 Hp HL0 HLfree Hg.
  set (q := (Z.to_nat p + length L)%nat).
  assert (Hq : Z.to_nat (p + Z.of_nat (length L)) = q) by (unfold q; lia).
  assert (Hlen1 : (q <= length (fwrite_at g p L))%nat).
  { rewrite length_fwrite_at. unfold q. lia. }
  assert (Hlook : forall i,
    fwrite_at (fwrite_at g p L) (p + Z.of_nat (length L)) MARKER !! i =
    if (i <? Z.to_nat p)%nat then g !! i
    else if (i <? q)%nat then L !! (i - Z.to_nat p)%nat
    else if (i <? q + 20)%nat then MARKER !! (i - q)%nat
    else g !! i).
  { intros i. rewrite lookup_fwrite_at by (rewrite Hq; exact Hlen1).
    rewrite Hq, marker_length.
    destruct (Nat.ltb_spec i q) as [H1|H1].
    - rewrite lookup_fwrite_at by exact Hp. fold q.
      destruct (Nat.ltb_spec i (Z.to_nat p)); [reflexivity|].
      destruct (Nat.ltb_spec i q); [reflexivity|lia].
    - destruct (Nat.ltb_spec i (q + 20)) as [H2|H2].
      + destruct (Nat.ltb_spec i (Z.to_nat p)); [unfold q in H1; lia|reflexivity].
      + rewrite lookup_fwrite_at by exact Hp. fold q.
        destruct (Nat.ltb_spec i (Z.to_nat p)); [reflexivity|].
        destruct (Nat.ltb_spec i q); [lia|reflexivity]. }
  rewrite occurs_at_lookup, marker_length. split.
  - intros H.
    destruct (decide (o + 20 <= Z.to_nat p)%nat) as [C1|C1].
    { exfalso. assert (Hocc : occurs_at MARKER g o).
      { apply occurs_at_lookup. rewrite marker_length. intros j Hj.
        rewrite <- (H j Hj), Hlook.
        destruct (Nat.ltb_spec (o + j) (Z.to_nat p)); [reflexivity|lia]. }
      apply Hg in Hocc. lia. }
    destruct (decide (o < Z.to_nat p)%nat) as [C2|C2].
    { exfalso. specialize (H (Z.to_nat p - o)%nat ltac:(lia)).
      rewrite Hlook in H.
      replace (o + (Z.to_nat p - o))%nat with (Z.to_nat p) in H by lia.
      destruct (Nat.ltb_spec (Z.to_nat p) (Z.to_nat p)); [lia|].
      assert (HL : (0 < length L)%nat).
      { apply lookup_lt_Some in HL0. exact HL0. }
      destruct (Nat.ltb_spec (Z.to_nat p) q); [|unfold q in *; lia].
      rewrite Nat.sub_diag, HL0 in H. symmetry in H.
      apply marker_chars in H. tauto. }
    destruct (decide (o + 20 <= q)%nat) as [C3|C3].
    { exfalso. apply (HLfree (o - Z.to_nat p)%nat).
      apply occurs_at_lookup. rewrite marker_length. intros j Hj.
      rewrite <- (H j Hj), Hlook.
      destruct (Nat.ltb_spec (o + j) (Z.to_nat p)); [lia|].
      destruct (Nat.ltb_spec (o + j) q); [|lia]. f_equal. lia. }
    destruct (decide (o < q)%nat) as [C4|C4].
    { exfalso. specialize (H 19%nat ltac:(lia)). rewrite Hlook in H.
      destruct (Nat.ltb_spec (o + 19) (Z.to_nat p)); [lia|].
      destruct (Nat.ltb_spec (o + 19) q); [lia|].
      destruct (Nat.ltb_spec (o + 19) (q + 20)); [|lia].
      rewrite marker_last in H. apply marker_chars in H.
      destruct H as (_ & _ & H). specialize (H eq_refl). lia. }
    destruct (decide (o = q)) as [C5|C5]; [exact C5|].
    destruct (decide (o < q + 20)%nat) as [C6|C6].
    { exfalso. specialize (H (q + 19 - o)%nat ltac:(lia)). rewrite Hlook in H.
      replace (o + (q + 19 - o))%nat with (q + 19)%nat in H by lia.
      destruct (Nat.ltb_spec (q + 19) (Z.to_nat p)); [unfold q in *; lia|].
      destruct (Nat.ltb_spec (q + 19) q); [lia|].
      destruct (Nat.ltb_spec (q + 19) (q + 20)); [|lia].
      replace (q + 19 - q)%nat with 19%nat in H by lia.
      rewrite marker_last in H. symmetry in H. apply marker_chars in H.
      destruct H as (_ & _ & H). specialize (H eq_refl). lia. }
    exfalso. assert (Hocc : occurs_at MARKER g o).
    { apply occurs_at_lookup. rewrite marker_length. intros j Hj.
      rewrite <- (H j Hj), Hlook.
      destruct (Nat.ltb_spec (o + j) (Z.to_nat p)); [unfold q in *; lia|].
      destruct (Nat.ltb_spec (o + j) q); [lia|].
      destruct (Nat.ltb_spec (o + j) (q + 20)); [lia|reflexivity]. }
    apply Hg in Hocc. unfold q in *. lia.
  - intros -> j Hj. rewrite Hlook.
    destruct (Nat.ltb_spec (q + j) (Z.to_nat p)); [unfold q in *; lia|].
    destruct (Nat.ltb_spec (q + j) q); [lia|].
    destruct (Nat.ltb_spec (q + j) (q + 20)); [|lia]. f_equal. lia.
Qed.

(** A line appended to a file without marker leaves it without marker. *)
Lemma marker_free_append g L :
  marker_free g -> L !! 0%nat = Some "["%char -> marker_free L ->
  marker_free (fwrite_at g (Z.of_nat (length g)) L).
Proof.
  intros Hg HL0 HL o H. rewrite occurs_at_lookup, marker_length in H.
  assert (Hlook : forall i,
    fwrite_at g (Z.of_nat (length g)) L !! i =
    if (i <? length g)%nat then g !! i else L !! (i - length g)%nat).
  { intros i. rewrite lookup_fwrite_at by lia. rewrite Nat2Z.id.
    destruct (Nat.ltb_spec i (length g)); [reflexivity|].
    destruct (Nat.ltb_spec i (length g + length L)); [reflexivity|].
    rewrite !(proj2 (lookup_ge_None _ _)) by lia. reflexivity. }
  destruct (decide (o + 20 <= length g)%nat) as [C1|C1].
  { apply (Hg o). apply occurs_at_lookup. rewrite marker_length. intros j Hj.
    rewrite <- (H j Hj), Hlook.
    destruct (Nat.ltb_spec (o + j) (length g)); [reflexivity|lia]. }
  destruct (decide (o < length g)%nat) as [C2|C2].
  { specialize (H (length g - o)%nat ltac:(lia)). rewrite Hlook in H.
    replace (o + (length g - o))%nat with (length g) in H by lia.
    destruct (Nat.ltb_spec (length g) (length g)); [lia|].
    rewrite Nat.sub_diag, HL0 in H. symmetry in H.
    apply marker_chars in H. tauto. }
  apply (HL (o - length g)%nat).
  apply occurs_at_lookup. rewrite marker_length. intros j Hj.
  rewrite <- (H j Hj), Hlook.
  destruct (Nat.ltb_spec (o + j) (length g)); [lia|]. f_equal. lia.
Qed.

(** Blanking the only marker of a file leaves it without marker. *)
Lemma marker_free_blank g p :
  0 <= p -> (Z.to_nat p + 20 <= length g)%nat ->
  (forall o, occurs_at MARKER g o -> o = Z.to_nat p) ->
  marker_free (fwrite_at g p blanks).
Proof.
  intros Hp0 Hp Huniq o H. rewrite occurs_at_lookup, marker_length in H.
  assert (Hlook : forall i,
    fwrite_at g p blanks !! i =
    if (i <? Z.to_nat p)%nat then g !! i
    else if (i <? Z.to_nat p + 20)%nat then blanks !! (i - Z.to_nat p)%nat
    else g !! i).
  { intros i. rewrite lookup_fwrite_at by lia. reflexivity. }
  assert (Hblank : forall k, (k < 19)%nat -> blanks !! k = Some " "%char).
  { intros k Hk. do 19 (destruct k as [|k]; [reflexivity|]). lia. }
  assert (Hb19 : blanks !! 19%nat = Some NL) by reflexivity.
  destruct (decide (o + 20 <= Z.to_nat p \/ Z.to_nat p + 20 <= o)%nat) as [C1|C1].
  { assert (Hocc : occurs_at MARKER g o).
    { apply occurs_at_lookup. rewrite marker_length. intros j Hj.
      rewrite <- (H j Hj), Hlook.
      destruct (Nat.ltb_spec (o + j) (Z.to_nat p)); [reflexivity|].
      destruct (Nat.ltb_spec (o + j) (Z.to_nat p + 20)); [lia|reflexivity]. }
    apply Huniq in Hocc. lia. }
  destruct (decide (o <= Z.to_nat p)%nat) as [C2|C2].
  - specialize (H (Z.to_nat p - o)%nat ltac:(lia)). rewrite Hlook in H.
    replace (o + (Z.to_nat p - o))%nat with (Z.to_nat p) in H by lia.
    destruct (Nat.ltb_spec (Z.to_nat p) (Z.to_nat p)); [lia|].
    destruct (Nat.ltb_spec (Z.to_nat p) (Z.to_nat p + 20)); [|lia].
    rewrite Nat.sub_diag, (Hblank 0%nat) in H by lia. symmetry in H.
    apply marker_chars in H. tauto.
  - specialize (H 0%nat ltac:(lia)). rewrite Hlook in H.
    rewrite Nat.add_0_r in H.
    destruct (Nat.ltb_spec o (Z.to_nat p)); [lia|].
    destruct (Nat.ltb_spec o (Z.to_nat p + 20)); [|lia].
    destruct (decide (o - Z.to_nat p < 19)%nat) as [C3|C3].
    + rewrite (Hblank _ C3) in H. symmetry in H. apply marker_chars in H. tauto.
    + replace (o - Z.to_nat p)%nat with 19%nat in H by lia.
      rewrite Hb19 in H. discriminate H.
Qed.

(** *** The formatted line *)

(** The 19 bytes of the marker before its newline. *)
Definition BODY : list ascii := lit "---^-OVERWRITE-^---".

(** Whether the text holds the marker's 19 bytes somewhere. *)
Definition mentions_marker (msg : list ascii) : bool :=
  existsb (fun o => bool_decide (take 19 (drop o msg) = BODY))
          (seq 0 (length msg)).

(** The ranges [gmtime_r] keeps the fields in. *)
Definition tm_valid (t : tm) : Prop :=
  0 <= tm_mon t <= 11 /\ 1 <= tm_mday t <= 31 /\ 0 <= tm_hour t <= 23 /\
  0 <= tm_min t <= 59 /\ 0 <= tm_sec t <= 60.

Lemma mentions_marker_false msg o :
  mentions_marker msg = false -> ~ occurs_at BODY msg o.
Proof.
  intros H Hocc. unfold mentions_marker in H.
  assert (Ho : (o < length msg)%nat).
  { rewrite occurs_at_lookup in Hocc. specialize (Hocc 0%nat ltac:(simpl; lia)).
    rewrite Nat.add_0_r in Hocc. apply lookup_lt_Some in Hocc. exact Hocc. }
  assert (Ht : existsb (fun o => bool_decide (take 19 (drop o msg) = BODY))
                       (seq 0 (length msg)) = true); [|congruence].
  apply existsb_exists. exists o. split.
  - apply in_seq. lia.
  - apply bool_decide_eq_true. exact Hocc.
Qed.

Lemma print_digits_width k : forall f n,
  0 <= n < 10 ^ Z.of_nat (S k) ->
  (length (Whitelist.print_digits f n []) <= S k)%nat.
Proof.
  induction k as [|k IH]; intros f n Hn.
  - destruct f as [|f]; [simpl; lia|]. rewrite Whitelist.print_digits_step.
    change (10 ^ Z.of_nat 1) with 10 in Hn.
    destruct (Z.ltb_spec n 10); [simpl; lia|lia].
  - destruct f as [|f]; [simpl; lia|]. rewrite Whitelist.print_digits_step.
    destruct (Z.ltb_spec n 10); [simpl; lia|].
    rewrite length_app. simpl length.
    assert (Hdiv : 0 <= n / 10 < 10 ^ Z.of_nat (S k)).
    { replace (Z.of_nat (S (S k))) with (Z.of_nat (S k) + 1) in Hn by lia.
      rewrite Z.pow_add_r, Z.pow_1_r in Hn by lia. split.
      - apply Z.div_pos; lia.
      - apply Z.div_lt_upper_bound; lia. }
    specialize (IH f (n / 10) Hdiv). lia.
Qed.

(** A value that fits its field is printed with the width of the field. *)
Lemma fmt_0d_length k v :
  0 <= v < 10 ^ Z.of_nat (S k) -> length (fmt_0d (S k) v) = S k.
Proof.
  intros Hv. unfold fmt_0d. destruct (Z.ltb_spec v 0); [lia|].
  pose proof (print_digits_width k 20 v Hv).
  rewrite length_app, length_replicate. lia.
Qed.

Lemma fmt_0d_2_length v : 0 <= v <= 99 -> length (fmt_0d 2 v) = 2%nat.
Proof.
  intros Hv. apply fmt_0d_length. change (10 ^ Z.of_nat 2) with 100. lia.
Qed.

Lemma fmt_0d_4_length v : 0 <= v <= 9999 -> length (fmt_0d 4 v) = 4%nat.
Proof.
  intros Hv. apply fmt_0d_length. change (10 ^ Z.of_nat 4) with 10000. lia.
Qed.

Lemma rem_100_range v : 0 <= v -> 0 <= Z.rem v 100 <= 99.
Proof.
  intros Hv. pose proof (Z.rem_bound_pos v 100 Hv ltac:(lia)). lia.
Qed.

(** With the fields in range the timestamp has its 22 bytes, and a line
    starts with 30 bytes in which bytes 0, 11 and 29 are fixed. *)
Lemma line_prefix_shape level t :
  tm_valid t ->
  let prefix := fmt_timestamp t TIMESTAMP_BUF ++ lit "[" ++
                fmt_left 5 (g_level_tags level) ++ lit "] " in
  length prefix = 30%nat /\
  prefix !! 0%nat = Some "["%char /\
  prefix !! 11%nat = Some " "%char /\
  prefix !! 29%nat = Some " "%char.
Proof.
  intros (Hmon & Hday & Hhour & Hmin & Hsec). cbn zeta. unfold fmt_timestamp.
  set (year := if 9999 <? (if tm_year t + 1900 <? 0 then 0 else tm_year t + 1900)
               then 9999
               else if tm_year t + 1900 <? 0 then 0 else tm_year t + 1900).
  assert (Hy : 0 <= year <= 9999).
  { unfold year. destruct (Z.ltb_spec (tm_year t + 1900) 0);
      [simpl; lia|]. destruct (Z.ltb_spec 9999 (tm_year t + 1900)); lia. }
  pose proof (fmt_0d_4_length year Hy) as L1.
  pose proof (fmt_0d_2_length _ (rem_100_range (tm_mon t + 1) ltac:(lia))) as L2.
  pose proof (fmt_0d_2_length _ (rem_100_range (tm_mday t) ltac:(lia))) as L3.
  pose proof (fmt_0d_2_length _ (rem_100_range (tm_hour t) ltac:(lia))) as L4.
  pose proof (fmt_0d_2_length _ (rem_100_range (tm_min t) ltac:(lia))) as L5.
  pose proof (fmt_0d_2_length _ (rem_100_range (tm_sec t) ltac:(lia))) as L6.
  destruct (fmt_0d 4 year) as [|y1 [|y2 [|y3 [|y4 [|]]]]]; try discriminate L1.
  destruct (fmt_0d 2 (Z.rem (tm_mon t + 1) 100)) as [|a1 [|a2 [|]]];
    try discriminate L2.
  destruct (fmt_0d 2 (Z.rem (tm_mday t) 100)) as [|b1 [|b2 [|]]];
    try discriminate L3.
  destruct (fmt_0d 2 (Z.rem (tm_hour t) 100)) as [|c1 [|c2 [|]]];
    try discriminate L4.
  destruct (fmt_0d 2 (Z.rem (tm_min t) 100)) as [|d1 [|d2 [|]]];
    try discriminate L5.
  destruct (fmt_0d 2 (Z.rem (tm_sec t) 100)) as [|e1 [|e2 [|]]];
    try discriminate L6.
  destruct level; repeat split; reflexivity.
Qed.

Lemma occurs_at_take pat f k o :
  pat <> [] -> occurs_at pat (take k f) o -> occurs_at pat f o.
Proof.
  intros Hne H. rewrite occurs_at_lookup in *. intros j Hj.
  specialize (H j Hj). destruct (pat !! j) as [c|] eqn:E.
  - apply lookup_take_Some in H. tauto.
  - apply lookup_ge_None in E. lia.
Qed.

Lemma occurs_marker_body f o :
  occurs_at MARKER f o -> occurs_at BODY f o.
Proof.
  rewrite !occurs_at_lookup. intros H j Hj. change (length BODY) with 19%nat in Hj.
  rewrite (H j) by (rewrite marker_length; lia).
  unfold MARKER. now rewrite lookup_app_l.
Qed.

(** The body of the marker occurs in no line whose text does not hold it. *)
Lemma body_free_prefix_msg level t msg o :
  tm_valid t -> mentions_marker msg = false ->
  ~ occurs_at BODY
      ((fmt_timestamp t TIMESTAMP_BUF ++ lit "[" ++
        fmt_left 5 (g_level_tags level) ++ lit "] ") ++ msg) o.
Proof.
  intros Ht Hmsg Hocc.
  destruct (line_prefix_shape level t Ht) as (Hlen & _ & H11 & H29).
  set (prefix := fmt_timestamp t TIMESTAMP_BUF ++ lit "[" ++
                 fmt_left 5 (g_level_tags level) ++ lit "] ") in *.
  rewrite occurs_at_lookup in Hocc. change (length BODY) with 19%nat in Hocc.
  assert (Hbody : forall j c, BODY !! j = Some c -> c <> " "%char).
  { intros j c Hj. apply (marker_chars j c). unfold MARKER.
    rewrite lookup_app_l; [exact Hj|]. apply lookup_lt_Some in Hj. exact Hj. }
  destruct (decide (o <= 11)%nat) as [C1|C1].
  { specialize (Hocc (11 - o)%nat ltac:(lia)).
    replace (o + (11 - o))%nat with 11%nat in Hocc by lia.
    rewrite lookup_app_l in Hocc by lia. rewrite H11 in Hocc.
    symmetry in Hocc. now apply Hbody in Hocc. }
  destruct (decide (o <= 29)%nat) as [C2|C2].
  { specialize (Hocc (29 - o)%nat ltac:(lia)).
    replace (o + (29 - o))%nat with 29%nat in Hocc by lia.
    rewrite lookup_app_l in Hocc by lia. rewrite H29 in Hocc.
    symmetry in Hocc. now apply Hbody in Hocc. }
  apply (mentions_marker_false msg (o - 30)%nat Hmsg).
  rewrite occurs_at_lookup. change (length BODY) with 19%nat. intros j Hj.
  rewrite <- (Hocc j Hj). rewrite lookup_app_r by lia. f_equal. lia.
Qed.

(** What [log_write] needs of a line: it starts with [[], has from 30 to 4095
    bytes, and no part cut from its front holds the marker. *)
Lemma format_line_ok level t msg :
  tm_valid t -> mentions_marker msg = false ->
  let line := format_line level t msg in
  (30 <= length line <= 4095)%nat /\
  line !! 0%nat = Some "["%char /\
  forall k, marker_free (take k line).
Proof.
  intros Ht Hmsg. cbn zeta. unfold format_line.
  destruct (line_prefix_shape level t Ht) as (Hlen & H0 & _ & _).
  pose proof (fun o => body_free_prefix_msg level t msg o Ht Hmsg) as Hfree.
  set (prefix := fmt_timestamp t TIMESTAMP_BUF ++ lit "[" ++
                 fmt_left 5 (g_level_tags level) ++ lit "] ") in *.
  set (buf := take (Z.to_nat (LINE_BUF_MAX - 1)) (prefix ++ msg)).
  set (total := if LINE_BUF_MAX - 1 <=?
                   Z.of_nat (length prefix) + Z.of_nat (length msg)
                then LINE_BUF_MAX - 2
                else Z.of_nat (length prefix) + Z.of_nat (length msg)).
  assert (Htot : 30 <= total <= 4094).
  { unfold total, LINE_BUF_MAX. rewrite Hlen.
    destruct (Z.leb_spec (4096 - 1) (Z.of_nat 30 + Z.of_nat (length msg))); lia. }
  assert (Hbuf : (Z.to_nat total <= length buf)%nat).
  { unfold buf. rewrite length_take, length_app, Hlen.
    unfold total, LINE_BUF_MAX in *. rewrite Hlen in *.
    destruct (Z.leb_spec (4096 - 1) (Z.of_nat 30 + Z.of_nat (length msg))); lia. }
  set (x := take (Z.to_nat total) buf).
  assert (Hx : length x = Z.to_nat total).
  { unfold x. rewrite length_take. lia. }
  assert (Hx0 : x !! 0%nat = Some "["%char).
  { unfold x, buf. rewrite !lookup_take_lt by (unfold LINE_BUF_MAX; lia).
    rewrite lookup_app_l by lia. exact H0. }
  assert (Hxfree : forall o, ~ occurs_at BODY x o).
  { intros o Hocc. apply (Hfree o). unfold x, buf in Hocc.
    apply occurs_at_take in Hocc; [|discriminate].
    apply occurs_at_take in Hocc; [|discriminate]. exact Hocc. }
  assert (Hline : forall y, (y = x ++ [NL] \/ y = x) ->
            (30 <= length y <= 4095)%nat /\ y !! 0%nat = Some "["%char /\
            forall k, marker_free (take k y)).
  2:{ destruct (_ || _); apply Hline; auto. }
  intros y Hy.
  assert (Hfree_y : marker_free y).
  { intros o Hocc. apply (Hxfree o). apply occurs_marker_body in Hocc.
    destruct Hy as [-> | ->]; [|exact Hocc].
    pose proof Hocc as Hocc'. rewrite occurs_at_lookup in Hocc.
    change (length BODY) with 19%nat in Hocc.
    apply occurs_at_lookup. change (length BODY) with 19%nat. intros j Hj.
    rewrite <- (Hocc j Hj).
    assert (Hin : (o + j < length x)%nat).
    { destruct (decide (o + j < length x)%nat) as [|Hge]; [assumption|].
      exfalso. specialize (Hocc 18%nat ltac:(lia)).
      assert (Hl : (o + 18 < length (x ++ [NL]))%nat).
      { apply lookup_lt_is_Some. rewrite Hocc. eauto. }
      rewrite length_app in Hl. simpl in Hl.
      assert (j = 18%nat /\ (o + 18)%nat = length x) as [-> Heq] by lia.
      rewrite lookup_app_r in Hocc by lia.
      replace (o + 18 - length x)%nat with 0%nat in Hocc by lia.
      discriminate Hocc. }
    now rewrite lookup_app_l. }
  split; [|split].
  - destruct Hy as [-> | ->].
    + rewrite length_app, Hx. simpl. lia.
    + rewrite Hx. lia.
  - destruct Hy as [-> | ->]; [|exact Hx0].
    rewrite lookup_app_l by lia. exact Hx0.
  - intros k o Hocc. apply (Hfree_y o).
    apply occurs_at_take in Hocc; [exact Hocc|discriminate].
Qed.

(** *** The invariant of the circular file *)

(** While the stream is open the file is within the cap; once the writer
    has wrapped the marker stands at the write position and nowhere else;
    before, the write position is the end of the file and the file holds
    no marker. *)
Definition log_inv (st : Logger) : Prop :=
  g_fp st = true /\
  exists f, disk st = Some f /\
    MIN_FILE_CAP <= g_max_bytes st /\ 0 <= g_write_pos st /\
    Z.of_nat (length f) <= g_max_bytes st /\
    if g_overwriting st
    then g_write_pos st + MARKER_LEN <= Z.of_nat (length f) /\
         forall o, occurs_at MARKER f o <-> o = Z.to_nat (g_write_pos st)
    else g_write_pos st = Z.of_nat (length f) /\ marker_free f.

Lemma write_line_marker_inv st g L :
  g_fp st = true -> disk st = Some g -> g_overwriting st = true ->
  MIN_FILE_CAP <= g_max_bytes st ->
  0 <= g_write_pos st <= Z.of_nat (length g) ->
  Z.of_nat (length g) <= g_max_bytes st ->
  g_write_pos st + Z.of_nat (length L) + MARKER_LEN <= g_max_bytes st ->
  L !! 0%nat = Some "["%char -> marker_free L ->
  (forall o, occurs_at MARKER g o ->
     (Z.to_nat (g_write_pos st) <= o <
      Z.to_nat (g_write_pos st) + length L + 20)%nat) ->
  log_inv (write_marker (raw_write L st)).
Proof.
  intros Hfp Hdisk How Hmin Hpos Hsize Hroom HL0 HLfree Hocc.
  assert (HLpos : (0 < length L)%nat) by (apply lookup_lt_Some in HL0; exact HL0).
  unfold raw_write. rewrite Hfp.
  destruct (Nat.eqb_spec (length L) 0) as [E|_]; [lia|]. simpl orb. cbv iota.
  unfold write_marker, set_file, file_of. cbn [g_overwriting g_fp disk g_write_pos
    g_max_bytes g_initialised g_min_level stderr]. rewrite How, Hfp, Hdisk.
  simpl. unfold log_inv. cbn [g_overwriting g_fp disk g_write_pos g_max_bytes].
  split; [reflexivity|]. eexists. split; [reflexivity|].
  split; [exact Hmin|]. split; [lia|].
  rewrite !length_fwrite_at, marker_length. unfold MARKER_LEN in *.
  split; [lia|]. split; [lia|].
  intros o. rewrite occurs_after_line_marker; [lia|lia|lia|assumption..].
Qed.

(** [log_write] keeps the invariant for a text that does not hold the
    marker's 19 bytes. *)
Lemma log_write_inv level t msg st :
  log_inv st -> tm_valid t -> mentions_marker msg = false ->
  log_inv (log_write level t msg st).
Proof.
  intros Hinv Ht Hmsg. unfold log_write.
  destruct (level_val level <? level_val (g_min_level st)); [exact Hinv|].
  destruct Hinv as (Hfp & f & Hdisk & Hmin & Hpos & Hsize & Hmode).
  destruct (format_line_ok level t msg Ht Hmsg) as (Hlen & HL0 & HLfree).
  set (line := format_line level t msg) in *.
  cbn [to_stderr g_fp g_max_bytes g_overwriting g_write_pos]. rewrite Hfp.
  simpl negb. cbv iota.
  set (line_len := if g_max_bytes st - MARKER_LEN <? Z.of_nat (length line)
                   then g_max_bytes st - MARKER_LEN
                   else Z.of_nat (length line)).
  assert (Hll : 30 <= line_len <= g_max_bytes st - MARKER_LEN /\
                line_len <= Z.of_nat (length line)).
  { unfold line_len, MARKER_LEN, MIN_FILE_CAP in *.
    destruct (Z.ltb_spec (g_max_bytes st - 20) (Z.of_nat (length line))); lia. }
  set (L := take (Z.to_nat line_len) line).
  assert (HLlen : Z.of_nat (length L) = line_len).
  { unfold L. rewrite length_take. lia. }
  assert (HL0' : L !! 0%nat = Some "["%char).
  { unfold L. rewrite lookup_take_lt by lia. exact HL0. }
  assert (HLfree' : marker_free L) by apply HLfree.
  unfold MARKER_LEN, MIN_FILE_CAP in *.
  destruct (g_overwriting st) eqn:How.
  - destruct Hmode as [Hfit Huniq].
    destruct (Z.ltb_spec (g_max_bytes st) (g_write_pos st + (line_len + 20)))
      as [Hwrap|Hstay].
    + assert (Hb : (g_write_pos st + 20 <=? g_max_bytes st) = true)
        by (apply Z.leb_le; lia).
      rewrite Hb. simpl andb. cbv iota.
      unfold file_of. cbn [to_stderr disk]. rewrite Hdisk. simpl default.
      assert (Hblen : length (fwrite_at f (g_write_pos st) blanks) = length f).
      { rewrite length_fwrite_at. change (length blanks) with 20%nat. lia. }
      apply write_line_marker_inv with
        (g := fwrite_at f (g_write_pos st) blanks).
      * exact Hfp.
      * reflexivity.
      * reflexivity.
      * exact Hmin.
      * simpl. lia.
      * simpl. rewrite Hblen. exact Hsize.
      * simpl. unfold MARKER_LEN. lia.
      * exact HL0'.
      * exact HLfree'.
      * intros o Hocc. exfalso. revert Hocc.
        apply marker_free_blank; [lia|lia|]. intros o' Ho'. now apply Huniq.
    + apply write_line_marker_inv with (g := f).
      * exact Hfp.
      * exact Hdisk.
      * exact How.
      * exact Hmin.
      * simpl. lia.
      * exact Hsize.
      * simpl. unfold MARKER_LEN. lia.
      * exact HL0'.
      * exact HLfree'.
      * intros o Hocc. apply Huniq in Hocc. simpl. lia.
  - destruct Hmode as [Hend Hfree]. rewrite Z.add_0_r.
    destruct (Z.ltb_spec (g_max_bytes st) (g_write_pos st + line_len))
      as [Hwrap|Hstay].
    + simpl andb. cbv iota.
      unfold file_of. cbn [to_stderr disk]. rewrite Hdisk. simpl default.
      apply write_line_marker_inv with (g := f).
      * exact Hfp.
      * reflexivity.
      * reflexivity.
      * exact Hmin.
      * simpl. lia.
      * exact Hsize.
      * simpl. unfold MARKER_LEN. lia.
      * exact HL0'.
      * exact HLfree'.
      * intros o Hocc. exfalso. exact (Hfree o Hocc).
    + unfold write_marker, raw_write.
      cbn [to_stderr g_fp disk g_overwriting g_max_bytes g_write_pos].
      rewrite Hfp. destruct (Nat.eqb_spec (length L) 0) as [E|_]; [lia|].
      simpl orb. cbv iota. cbn [set_file g_overwriting]. rewrite How.
      simpl negb. simpl orb. cbv iota.
      unfold log_inv, file_of.
      cbn [set_file to_stderr g_fp disk g_overwriting g_max_bytes g_write_pos].
      rewrite Hdisk. simpl default.
      split; [exact Hfp|]. eexists. split; [reflexivity|].
      unfold MIN_FILE_CAP. split; [lia|]. split; [lia|].
      rewrite length_fwrite_at. split; [lia|]. split; [lia|].
      rewrite Hend. now apply marker_free_append.
Qed.

Lemma filter_unique (P : nat -> Prop) `{forall x, Decision (P x)} p l :
  NoDup l -> (forall x, P x <-> x = p) ->
  length (filter P l) = if bool_decide (p ∈ l) then 1%nat else 0%nat.
Proof.
  intros Hnd HP. induction Hnd as [|x l Hx Hnd IH].
  - reflexivity.
  - destruct (decide (x = p)) as [->|Hne].
    + rewrite filter_cons_True by (now apply HP). simpl.
      rewrite IH. rewrite (bool_decide_eq_false_2 _ Hx).
      rewrite bool_decide_eq_true_2 by constructor. reflexivity.
    + rewrite filter_cons_False by (rewrite HP; exact Hne). rewrite IH.
      destruct (decide (p ∈ l)) as [Hin|Hnin].
      * rewrite !bool_decide_eq_true_2; [reflexivity|now constructor|assumption].
      * rewrite !bool_decide_eq_false_2; [reflexivity| |assumption].
        intros Hin. apply elem_of_cons in Hin. destruct Hin; congruence.
Qed.

Lemma filter_none (P : nat -> Prop) `{forall x, Decision (P x)} l :
  (forall x, ~ P x) -> filter P l = [].
Proof.
  intros HP. induction l as [|x l IH]; [reflexivity|].
  rewrite filter_cons_False by apply HP. exact IH.
Qed.

(** The invariant in terms of the count of occurrences. *)
Lemma log_inv_count st :
  log_inv st ->
  Z.of_nat (length (file_of st)) <= g_max_bytes st /\
  count_marker (file_of st) = if g_overwriting st then 1%nat else 0%nat.
Proof.
  intros (Hfp & f & Hdisk & Hmin & Hpos & Hsize & Hmode).
  unfold file_of. rewrite Hdisk. simpl default. split; [exact Hsize|].
  unfold count_marker. change (Z.to_nat MARKER_LEN) with (length MARKER).
  destruct (g_overwriting st).
  - destruct Hmode as [Hfit Huniq].
    rewrite (filter_unique (occurs_at MARKER f) (Z.to_nat (g_write_pos st)));
      [|apply NoDup_seq|exact Huniq].
    rewrite bool_decide_eq_true_2; [reflexivity|].
    apply elem_of_seq. unfold MARKER_LEN in *. lia.
  - destruct Hmode as [_ Hfree].
    now rewrite (filter_none (occurs_at MARKER f)).
Qed.

Lemma log_init_fresh_inv cap d :
  d = None \/ d = Some [] -> MIN_FILE_CAP <= cap ->
  fst (log_init cap (logger_start d)) = 0 /\
  log_inv (snd (log_init cap (logger_start d))).
Proof.
  intros Hd Hcap. unfold log_init.
  destruct (Z.ltb_spec cap MIN_FILE_CAP); [lia|].
  assert (Hf : default [] (disk (logger_start d)) = []).
  { destruct Hd as [-> | ->]; reflexivity. }
  rewrite Hf. simpl. split; [reflexivity|].
  unfold log_inv. simpl. split; [reflexivity|].
  exists []. split; [reflexivity|]. split; [exact Hcap|]. split; [lia|].
  split; [unfold MIN_FILE_CAP in *; simpl; lia|]. split; [reflexivity|].
  intros o Hocc. unfold occurs_at in Hocc.
  rewrite drop_nil, take_nil in Hocc. discriminate Hocc.
Qed.

Lemma log_init_max cap st :
  MIN_FILE_CAP <= cap -> g_max_bytes (snd (log_init cap st)) = cap.
Proof.
  intros Hcap. unfold log_init.
  destruct (Z.ltb_spec cap MIN_FILE_CAP); [lia|].
  destruct (0 <? _); [destruct (0 <=? _); [|destruct (cap <=? _)]|];
    reflexivity.
Qed.

Lemma log_write_max level t msg st :
  g_max_bytes (log_write level t msg st) = g_max_bytes st.
Proof.
  unfold log_write, write_marker, raw_write, set_file, to_stderr.
  repeat match goal with
         | |- context [if ?c then _ else _] => destruct c
         end; reflexivity.
Qed.

(** A call on the logger between its start and its end. *)
Inductive log_call :=
| Write (level : LogLevel) (t : tm) (msg : list ascii)
| SetLevel (level : LogLevel).

Definition run_call (st : Logger) (c : log_call) : Logger :=
  match c with
  | Write level t msg => log_write level t msg st
  | SetLevel level => log_set_level level st
  end.

(** The texts a call may log for the invariant to hold. *)
Definition call_ok (c : log_call) : Prop :=
  match c with
  | Write _ t msg => tm_valid t /\ mentions_marker msg = false
  | SetLevel _ => True
  end.

Lemma run_calls_inv calls : forall st,
  log_inv st -> Forall call_ok calls -> log_inv (fold_left run_call calls st).
Proof.
  induction calls as [|c calls IH]; intros st Hinv Hok; [exact Hinv|].
  apply Forall_cons in Hok. destruct Hok as [Hc Hok]. simpl. apply IH; [|exact Hok].
  destruct c as [level t msg|level].
  - destruct Hc. now apply log_write_inv.
  - exact Hinv.
Qed.

(** Within one run the invariant holds: for a logger initialised with a
    capacity of at least 256 bytes on a missing or empty log file, after
    every [log_write] whose text does not hold the 19 bytes of the marker
    body, the log file is at most the capacity long, and the 20-byte
    marker occurs exactly once in it when the overwriting flag is set and
    not at all before the first wrap.  It is lost by a text that holds the
    marker and by a restart behind a line that was cut, as shown below. *)
Theorem circular_log_invariant cap d calls :
  d = None \/ d = Some [] -> MIN_FILE_CAP <= cap -> Forall call_ok calls ->
  let st := fold_left run_call calls (snd (log_init cap (logger_start d))) in
  Z.of_nat (length (file_of st)) <= cap /\
  count_marker (file_of st) = (if g_overwriting st then 1 else 0)%nat.
Proof.
  intros Hd Hcap Hok st.
  destruct (log_init_fresh_inv cap d Hd Hcap) as [_ Hinv].
  pose proof (run_calls_inv calls _ Hinv Hok) as Hst. fold st in Hst.
  destruct (log_inv_count st Hst) as [Hsize Hcount]. split; [|exact Hcount].
  assert (Hmax : forall cs s, g_max_bytes (fold_left run_call cs s) = g_max_bytes s).
  { clear. induction cs as [|c cs IH]; intros s; [reflexivity|]. simpl.
    rewrite IH. destruct c as [level t msg|level]; [|reflexivity].
    apply log_write_max. }
  unfold st in Hsize. rewrite Hmax, log_init_max in Hsize by exact Hcap.
  exact Hsize.
Qed.

Definition example_time : tm :=
  {| tm_year := 126; tm_mon := 1; tm_mday := 7;
     tm_hour := 12; tm_min := 34; tm_sec := 56 |}.

Lemma circular_log_invariant_witness :
  let st := fold_left run_call
              (replicate 6 (Write LOG_INFO example_time (lit "hello world msg")))
              (snd (log_init 256 (logger_start None))) in
  Z.of_nat (length (file_of st)) <= 256 /\
  count_marker (file_of st) = (if g_overwriting st then 1 else 0)%nat.
Proof.
  apply (circular_log_invariant 256 None
           (replicate 6 (Write LOG_INFO example_time (lit "hello world msg")))).
  - left. reflexivity.
  - unfold MIN_FILE_CAP. lia.
  - apply Forall_replicate. split.
    + unfold tm_valid. simpl. lia.
    + vm_compute. reflexivity.
Defined.

(** A text that is the marker body is written into a fresh log with the
    newline [log_write] appends: the marker occurs in the file although the
    writer has not wrapped. *)
Lemma marker_text_counterexample :
  let st := log_write LOG_WARN example_time (lit "---^-OVERWRITE-^---")
              (snd (log_init 256 (logger_start None))) in
  g_overwriting st = false /\ count_marker (file_of st) = 1%nat.
Proof.
  vm_compute. split; reflexivity.
Qed.
(** *** The line written *)

Definition line_prefix (level : LogLevel) (t : tm) : list ascii :=
  fmt_timestamp t TIMESTAMP_BUF ++ lit "[" ++
  fmt_left 5 (g_level_tags level) ++ lit "] ".

Lemma format_line_cases level t msg :
  tm_valid t ->
  let total := Z.to_nat (if LINE_BUF_MAX - 1 <=?
                              Z.of_nat (length (line_prefix level t)) +
                              Z.of_nat (length msg)
                         then LINE_BUF_MAX - 2
                         else Z.of_nat (length (line_prefix level t)) +
                              Z.of_nat (length msg)) in
  let x := take total (line_prefix level t ++ msg) in
  length x = total /\ (30 <= total <= 4094)%nat /\
  ((format_line level t msg = x ++ [NL] /\ last x <> Some NL) \/
   (format_line level t msg = x /\ last x = Some NL /\ (31 <= total)%nat)).
Proof.
  intros Ht. destruct (line_prefix_shape level t Ht) as (Hlen & _ & _ & H29).
  fold (line_prefix level t) in Hlen, H29. cbn zeta. unfold format_line.
  fold (line_prefix level t). rewrite Hlen. unfold LINE_BUF_MAX.
  set (tz := if 4096 - 1 <=? Z.of_nat 30 + Z.of_nat (length msg)
             then 4096 - 2 else Z.of_nat 30 + Z.of_nat (length msg)).
  assert (Htz : 30 <= tz <= 4094 /\ tz <= 30 + Z.of_nat (length msg)).
  { unfold tz. destruct (Z.leb_spec (4096 - 1) (Z.of_nat 30 + Z.of_nat (length msg)));
      lia. }
  set (buf := take (Z.to_nat (4096 - 1)) (line_prefix level t ++ msg)).
  assert (Hx : take (Z.to_nat tz) buf =
               take (Z.to_nat tz) (line_prefix level t ++ msg)).
  { unfold buf. rewrite take_take. f_equal. lia. }
  rewrite Hx.
  set (x := take (Z.to_nat tz) (line_prefix level t ++ msg)).
  assert (Hxl : length x = Z.to_nat tz).
  { unfold x. rewrite length_take, length_app, Hlen. lia. }
  assert (Hchk : buf !! Z.to_nat (tz - 1) = last x).
  { rewrite last_lookup, Hxl. unfold x, buf.
    replace (Init.Nat.pred (Z.to_nat tz)) with (Z.to_nat (tz - 1)) by lia.
    rewrite !lookup_take_lt by lia. reflexivity. }
  rewrite Hchk. split; [exact Hxl|]. split; [lia|].
  destruct (Z.eqb_spec tz 0) as [E|_]; [lia|]. cbn [orb].
  destruct (last x) as [c|] eqn:Hlast.
  2:{ apply last_None in Hlast. rewrite Hlast in Hxl. simpl in Hxl. lia. }
  cbn [default from_option id].
  destruct (Ascii.eqb c NL) eqn:Ec; cbn [negb].
  - apply Ascii.eqb_eq in Ec. subst c. right.
    split; [reflexivity|]. split; [reflexivity|].
    destruct (decide (tz = 30)) as [E30|]; [|lia]. exfalso.
    rewrite last_lookup, Hxl in Hlast. unfold x in Hlast.
    rewrite E30 in Hlast. change (Init.Nat.pred (Z.to_nat 30)) with 29%nat in Hlast.
    rewrite lookup_take_lt in Hlast by lia.
    rewrite lookup_app_l in Hlast by lia. rewrite H29 in Hlast. discriminate Hlast.
  - apply Ascii.eqb_neq in Ec. left. split; [reflexivity|]. congruence.
Qed.

(** The layout of a formatted line. *)
Lemma format_line_layout level t msg :
  tm_valid t ->
  let line := format_line level t msg in
  length (fmt_timestamp t TIMESTAMP_BUF) = 22%nat /\
  length (line_prefix level t) = 30%nat /\
  (31 <= length line <= 4095)%nat /\
  take 30 line = line_prefix level t /\
  last line = Some NL /\
  ((length msg <= 4064)%nat ->
   line = line_prefix level t ++ msg ++
          (if bool_decide (last msg = Some NL) then [] else [NL])).
Proof.
  intros Ht. cbn zeta.
  destruct (line_prefix_shape level t Ht) as (Hlen & _ & _ & H29).
  fold (line_prefix level t) in Hlen, H29.
  pose proof (format_line_cases level t msg Ht) as Hc. cbn zeta in Hc.
  rewrite Hlen in Hc. unfold LINE_BUF_MAX in Hc.
  set (tz := if 4096 - 1 <=? Z.of_nat 30 + Z.of_nat (length msg)
             then 4096 - 2 else Z.of_nat 30 + Z.of_nat (length msg)) in *.
  set (x := take (Z.to_nat tz) (line_prefix level t ++ msg)) in *.
  destruct Hc as (Hxl & Htot & Hcases).
  assert (Hts : length (fmt_timestamp t TIMESTAMP_BUF) = 22%nat).
  { unfold line_prefix in Hlen. rewrite !length_app in Hlen.
    assert (length (fmt_left 5 (g_level_tags level)) = 5%nat)
      by (destruct level; reflexivity).
    change (length (lit "[")) with 1%nat in Hlen.
    change (length (lit "] ")) with 2%nat in Hlen. lia. }
  assert (Hx30 : take 30 x = line_prefix level t).
  { unfold x. rewrite take_take. replace (30 `min` Z.to_nat tz)%nat with 30%nat by lia.
    rewrite take_app_le by lia. apply take_ge. lia. }
  assert (Hshort : (length msg <= 4064)%nat -> x = line_prefix level t ++ msg).
  { intros Hm. unfold x. apply take_ge. rewrite length_app, Hlen. unfold tz.
    destruct (Z.leb_spec (4096 - 1) (Z.of_nat 30 + Z.of_nat (length msg))); lia. }
  assert (Hlastx : (length msg <= 4064)%nat -> msg <> [] -> last x = last msg).
  { intros Hm Hne. rewrite (Hshort Hm).
    destruct (exists_last Hne) as (m' & c & ->).
    rewrite app_assoc, !last_snoc. reflexivity. }
  split; [exact Hts|]. split; [exact Hlen|].
  destruct Hcases as [(Hline & Hlast)|(Hline & Hlast & H31)]; rewrite Hline.
  - split; [rewrite length_app, Hxl; simpl; lia|].
    split; [rewrite take_app_le by lia; exact Hx30|].
    split; [apply last_snoc|]. intros Hm. rewrite (Hshort Hm).
    rewrite <- app_assoc. do 2 f_equal.
    rewrite bool_decide_eq_false_2; [reflexivity|].
    intros Hl. apply Hlast. rewrite Hlastx; [exact Hl|exact Hm|].
    intros ->. discriminate Hl.
  - split; [lia|]. split; [exact Hx30|]. split; [exact Hlast|].
    intros Hm. rewrite (Hshort Hm).
    assert (Hne : msg <> []).
    { intros ->. rewrite app_nil_r in Hshort.
      assert (length x = 30%nat) by (rewrite Hshort, Hlen by (simpl; lia); reflexivity).
      lia. }
    rewrite bool_decide_eq_true_2 by (rewrite <- Hlastx; assumption).
    now rewrite app_nil_r.
Qed.

(** X26. With the time fields in range a line starts with the 22 bytes
    of the timestamp and the 8 bytes of the level tag, has from 31 to 4095
    bytes and always ends with a newline; a text of at most 4064 bytes is
    written in full, with a newline added unless it ends with one. *)
Theorem format_line_shape level t msg :
  tm_valid t ->
  let line := format_line level t msg in
  length (fmt_timestamp t TIMESTAMP_BUF) = 22%nat /\
  length (line_prefix level t) = 30%nat /\
  (31 <= length line <= 4095)%nat /\
  take 30 line = line_prefix level t /\
  last line = Some NL /\
  ((length msg <= 4064)%nat ->
   line = line_prefix level t ++ msg ++
          (if bool_decide (last msg = Some NL) then [] else [NL])).
Proof. exact (format_line_layout level t msg). Qed.

Lemma format_line_shape_witness :
  let line := format_line LOG_WARN example_time (lit "disk almost full") in
  length (fmt_timestamp example_time TIMESTAMP_BUF) = 22%nat /\
  length (line_prefix LOG_WARN example_time) = 30%nat /\
  (31 <= length line <= 4095)%nat /\
  take 30 line = line_prefix LOG_WARN example_time /\
  last line = Some NL /\
  ((length (lit "disk almost full") <= 4064)%nat ->
   line = line_prefix LOG_WARN example_time ++ lit "disk almost full" ++
          (if bool_decide (last (lit "disk almost full") = Some NL)
           then [] else [NL])).
Proof.
  apply (format_line_shape LOG_WARN example_time (lit "disk almost full")).
  unfold tm_valid. simpl. lia.
Defined.

Lemma fwrite_at_end f data :
  fwrite_at f (Z.of_nat (length f)) data = f ++ data.
Proof.
  unfold fwrite_at. rewrite Nat2Z.id, take_ge by lia.
  rewrite Nat.sub_diag, drop_ge by lia. simpl. now rewrite app_nil_r.
Qed.

Lemma file_of_set_file st f pos ow : file_of (set_file st f pos ow) = f.
Proof. reflexivity. Qed.

Lemma raw_write_grows data st :
  (length (file_of st) <= length (file_of (raw_write data st)))%nat /\
  stderr (raw_write data st) = stderr st /\
  g_min_level (raw_write data st) = g_min_level st.
Proof.
  unfold raw_write. destruct (_ || _); [auto|].
  rewrite file_of_set_file, length_fwrite_at. cbn [set_file stderr g_min_level].
  split; [lia|auto].
Qed.

Lemma write_marker_grows st :
  (length (file_of st) <= length (file_of (write_marker st)))%nat /\
  stderr (write_marker st) = stderr st /\
  g_min_level (write_marker st) = g_min_level st.
Proof.
  unfold write_marker. destruct (_ || _); [auto|].
  rewrite file_of_set_file, length_fwrite_at. cbn [set_file stderr g_min_level].
  split; [lia|auto].
Qed.

(** X27. What one [log_write] does: below the minimum level nothing at
    all; otherwise the line goes to stderr whether or not the file is
    open, a closed logger leaves the file alone, and an open logger that
    has not wrapped and has room appends exactly the line.  The file never
    gets shorter and the minimum level is not changed. *)
Theorem log_write_effects level t msg st :
  let st' := log_write level t msg st in
  let line := format_line level t msg in
  (level_val level < level_val (g_min_level st) -> st' = st) /\
  (level_val (g_min_level st) <= level_val level ->
   stderr st' = stderr st ++ c_str line /\
   (g_fp st = false ->
    disk st' = disk st /\ g_write_pos st' = g_write_pos st /\
    g_overwriting st' = g_overwriting st) /\
   (forall f,
      g_fp st = true -> g_overwriting st = false -> disk st = Some f ->
      g_write_pos st = Z.of_nat (length f) ->
      Z.of_nat (length line) <= g_max_bytes st - MARKER_LEN ->
      Z.of_nat (length f) + Z.of_nat (length line) <= g_max_bytes st ->
      disk st' = Some (f ++ line) /\
      g_write_pos st' = g_write_pos st + Z.of_nat (length line) /\
      g_overwriting st' = false)) /\
  (length (file_of st) <= length (file_of st'))%nat /\
  g_min_level st' = g_min_level st.
Proof.
  cbn zeta. unfold log_write.
  destruct (Z.ltb_spec (level_val level) (level_val (g_min_level st))) as [Hlt|Hge].
  { split; [auto|]. split; [lia|]. split; [lia|reflexivity]. }
  split; [lia|].
  set (line := format_line level t msg).
  cbn [to_stderr g_fp g_max_bytes g_overwriting g_write_pos].
  destruct (g_fp st) eqn:Hfp; cbn [negb].
  2:{ split; [|split; [unfold file_of; cbn [to_stderr disk]; lia|reflexivity]].
      intros _. split; [reflexivity|]. split; [auto|]. intros f Hf. discriminate. }
  set (line_len := if g_max_bytes st - MARKER_LEN <? Z.of_nat (length line)
                   then g_max_bytes st - MARKER_LEN
                   else Z.of_nat (length line)).
  set (st1 := if g_max_bytes st <?
                 g_write_pos st + (line_len + (if g_overwriting st then MARKER_LEN else 0))
              then set_file (to_stderr st line)
                     (if g_overwriting st &&
                         (g_write_pos st + MARKER_LEN <=? g_max_bytes st)
                      then fwrite_at (file_of (to_stderr st line)) (g_write_pos st) blanks
                      else file_of (to_stderr st line)) 0 true
              else to_stderr st line).
  assert (H1 : (length (file_of st) <= length (file_of st1))%nat /\
               stderr st1 = stderr st ++ c_str line /\
               g_min_level st1 = g_min_level st).
  { unfold st1.
    match goal with
    | |- context [if ?c then set_file _ _ _ _ else _] => destruct c
    end; [|split; [reflexivity|split; reflexivity]].
    rewrite file_of_set_file. cbn [set_file to_stderr stderr g_min_level].
    split; [|split; reflexivity].
    match goal with
    | |- context [if ?c then fwrite_at _ _ _ else _] => destruct c
    end; [|reflexivity]. rewrite length_fwrite_at.
    unfold file_of. cbn [to_stderr disk]. lia. }
  destruct H1 as (Hg1 & He1 & Hm1).
  destruct (raw_write_grows (take (Z.to_nat line_len) line) st1) as (Hg2 & He2 & Hm2).
  destruct (write_marker_grows (raw_write (take (Z.to_nat line_len) line) st1))
    as (Hg3 & He3 & Hm3).
  split; [|split; [lia|congruence]].
  intros _. split; [congruence|]. split; [discriminate|].
  intros f _ How Hdisk Hpos Hfit Hroom.
  unfold st1, line_len. rewrite How, Z.add_0_r.
  destruct (Z.ltb_spec (g_max_bytes st - MARKER_LEN) (Z.of_nat (length line)));
    [lia|].
  destruct (Z.ltb_spec (g_max_bytes st) (g_write_pos st + Z.of_nat (length line)));
    [lia|].
  rewrite Nat2Z.id, take_ge by lia.
  unfold write_marker, raw_write. cbn [to_stderr g_fp]. rewrite Hfp. cbn [negb orb].
  destruct (Nat.eqb_spec (length line) 0) as [E|E].
  - cbn [to_stderr g_overwriting g_fp disk g_write_pos]. rewrite How. cbn [negb orb].
    cbn [to_stderr g_overwriting g_fp disk g_write_pos].
    destruct line; [|discriminate E]. rewrite app_nil_r. simpl. split; [exact Hdisk|].
    split; [lia|exact How].
  - cbn [set_file to_stderr g_overwriting g_fp disk g_write_pos]. rewrite How.
    cbn [negb orb]. cbn [set_file to_stderr g_overwriting g_fp disk g_write_pos].
    unfold file_of. cbn [to_stderr disk]. rewrite Hdisk. cbn [default from_option id].
    rewrite Hpos, fwrite_at_end. auto.
Qed.

(** *** Finding the marker again *)

(** Offsets where a line starts: the start of the file and the byte after
    each newline. *)
Definition line_start (buf : list ascii) (o : nat) : Prop :=
  match o with
  | O => True
  | S o' => buf !! o' = Some NL
  end.

Lemma memchr_nl_some l k :
  memchr_nl l = Some k -> l !! k = Some NL.
Proof.
  revert k. induction l as [|c l IH]; intros k H; [discriminate|].
  cbn [memchr_nl] in H. destruct (Ascii.eqb c NL) eqn:E.
  - injection H as <-. apply Ascii.eqb_eq in E. now subst c.
  - destruct (memchr_nl l) as [k'|]; [|discriminate]. injection H as <-.
    now apply IH.
Qed.

Lemma memchr_nl_first l j :
  l !! j = Some NL -> exists k, memchr_nl l = Some k /\ (k <= j)%nat.
Proof.
  revert j. induction l as [|c l IH]; intros j H; [discriminate|].
  cbn [memchr_nl]. destruct (Ascii.eqb c NL) eqn:E.
  - exists 0%nat. split; [reflexivity|lia].
  - destruct j as [|j].
    + injection H as ->. rewrite Ascii.eqb_refl in E. discriminate.
    + destruct (IH j H) as (k & -> & Hk). exists (S k). split; [reflexivity|lia].
Qed.

Lemma marker_test buf p :
  take (Z.to_nat MARKER_LEN) (drop p buf) = MARKER <-> occurs_at MARKER buf p.
Proof. reflexivity. Qed.

Lemma find_loop_sound fuel : forall buf p e r,
  line_start buf p -> find_loop fuel buf p e = r ->
  r = -1 \/ exists o, r = Z.of_nat o /\ (p <= o)%nat /\
                      occurs_at MARKER buf o /\ line_start buf o.
Proof.
  induction fuel as [|f IH]; intros buf p e r Hp H; [left; now rewrite <- H|].
  cbn [find_loop] in H. destruct (Z.of_nat p <=? e); [|left; now rewrite <- H].
  destruct (decide (take (Z.to_nat MARKER_LEN) (drop p buf) = MARKER)) as [Hm|Hm].
  - rewrite bool_decide_eq_true_2 in H by exact Hm. right. exists p.
    split; [now rewrite <- H|]. split; [lia|]. split; assumption.
  - rewrite bool_decide_eq_false_2 in H by exact Hm.
    destruct (memchr_nl (drop p buf)) as [k|] eqn:Hk; [|left; now rewrite <- H].
    apply memchr_nl_some in Hk. rewrite lookup_drop in Hk.
    apply IH in H.
    + destruct H as [H|(o & Ho & Hle & Hocc & Hls)]; [left; exact H|].
      right. exists o. split; [exact Ho|]. split; [lia|]. split; assumption.
    + replace (p + k + 1)%nat with (S (p + k)) by lia. exact Hk.
Qed.

Lemma find_loop_complete fuel : forall buf p e o,
  (p <= o)%nat -> (o - p < fuel)%nat -> Z.of_nat o <= e ->
  occurs_at MARKER buf o -> line_start buf o ->
  (forall o', (p <= o' < o)%nat -> ~ occurs_at MARKER buf o') ->
  find_loop fuel buf p e = Z.of_nat o.
Proof.
  induction fuel as [|f IH]; intros buf p e o Hpo Hf He Hocc Hls Hbefore; [lia|].
  cbn [find_loop]. destruct (Z.leb_spec (Z.of_nat p) e); [|lia].
  destruct (decide (p = o)) as [->|Hne].
  - rewrite bool_decide_eq_true_2 by exact Hocc. reflexivity.
  - rewrite bool_decide_eq_false_2 by (apply Hbefore; lia).
    destruct o as [|o']; [lia|]. cbn [line_start] in Hls.
    assert (Hnl : drop p buf !! (o' - p)%nat = Some NL).
    { rewrite lookup_drop. rewrite <- Hls. f_equal. lia. }
    destruct (memchr_nl_first _ _ Hnl) as (k & -> & Hk).
    apply IH; try assumption; try lia.
    intros o'' Ho''. apply Hbefore. lia.
Qed.

Lemma occurs_at_fits pat f o :
  pat <> [] -> occurs_at pat f o -> (o + length pat <= length f)%nat.
Proof.
  intros Hne H. unfold occurs_at in H. apply (f_equal (@length _)) in H.
  rewrite length_take, length_drop in H.
  destruct pat as [|c pat]; [congruence|]. cbn [length] in *. lia.
Qed.

Lemma find_marker_sound buf r :
  find_marker buf = r ->
  r = -1 \/ exists o, r = Z.of_nat o /\ occurs_at MARKER buf o /\ line_start buf o.
Proof.
  unfold find_marker. destruct (_ <? _); [left; now subst|].
  intros H. apply find_loop_sound in H; [|exact I].
  destruct H as [H|(o & Ho & _ & Hocc & Hls)]; [left; exact H|].
  right. exists o. auto.
Qed.

Lemma find_marker_complete buf o :
  occurs_at MARKER buf o -> line_start buf o ->
  (forall o', (o' < o)%nat -> ~ occurs_at MARKER buf o') ->
  find_marker buf = Z.of_nat o.
Proof.
  intros Hocc Hls Hbefore.
  assert (Hne : MARKER <> []) by discriminate.
  pose proof (occurs_at_fits _ _ _ Hne Hocc) as Hfit.
  rewrite marker_length in Hfit. unfold find_marker, MARKER_LEN.
  destruct (Z.ltb_spec (Z.of_nat (length buf)) 20); [lia|].
  apply find_loop_complete; try assumption; try lia.
  intros o' Ho'. apply Hbefore. lia.
Qed.

(** X28. [find_marker] returns -1 or the offset of an occurrence of the
    marker at the start of a line; it returns the first occurrence when
    that one starts a line, and it cannot see a marker that follows a line
    without a newline. *)
Theorem find_marker_line_starts buf :
  (find_marker buf = -1 \/
   exists o, find_marker buf = Z.of_nat o /\ occurs_at MARKER buf o /\
             line_start buf o) /\
  (forall o, occurs_at MARKER buf o -> line_start buf o ->
             (forall o', (o' < o)%nat -> ~ occurs_at MARKER buf o') ->
             find_marker buf = Z.of_nat o) /\
  (forall o, find_marker buf = Z.of_nat o -> line_start buf o).
Proof.
  split; [apply find_marker_sound; reflexivity|].
  split; [apply find_marker_complete|].
  intros o Ho. destruct (find_marker_sound buf _ Ho) as [H|(o' & H & _ & Hls)];
    [lia|]. apply Nat2Z.inj in H. now subst o'.
Qed.

(** *** Closing and opening again *)

Lemma write_line_marker_file st g L :
  g_fp st = true -> disk st = Some g -> g_overwriting st = true -> L <> [] ->
  let st' := write_marker (raw_write L st) in
  file_of st' =
    fwrite_at (fwrite_at g (g_write_pos st) L)
              (g_write_pos st + Z.of_nat (length L)) MARKER /\
  g_write_pos st' = g_write_pos st + Z.of_nat (length L) /\
  g_overwriting st' = true.
Proof.
  intros Hfp Hdisk How Hne. cbn zeta. unfold raw_write. rewrite Hfp.
  destruct (Nat.eqb_spec (length L) 0) as [E|_].
  { destruct L; [congruence|discriminate E]. }
  cbn [negb orb]. unfold write_marker, set_file, file_of.
  cbn [g_overwriting g_fp disk g_write_pos]. rewrite How, Hfp, Hdisk.
  cbn [negb orb default from_option id disk g_write_pos g_overwriting]. auto.
Qed.

(** The byte before the marker after a line that ends in a newline. *)
Lemma line_start_after_line g p L :
  0 <= p -> (Z.to_nat p <= length g)%nat -> last L = Some NL ->
  line_start (fwrite_at (fwrite_at g p L) (p + Z.of_nat (length L)) MARKER)
             (Z.to_nat (p + Z.of_nat (length L))).
Proof.
  intros Hp Hpg Hlast.
  assert (HL : (0 < length L)%nat).
  { destruct L; [discriminate Hlast|simpl; lia]. }
  replace (Z.to_nat (p + Z.of_nat (length L)))
    with (S (Z.to_nat p + Init.Nat.pred (length L))) by lia.
  cbn [line_start].
  rewrite lookup_fwrite_at by (rewrite length_fwrite_at; lia).
  destruct (Nat.ltb_spec (Z.to_nat p + Init.Nat.pred (length L))
                         (Z.to_nat (p + Z.of_nat (length L)))); [|lia].
  rewrite lookup_fwrite_at by exact Hpg.
  destruct (Nat.ltb_spec (Z.to_nat p + Init.Nat.pred (length L)) (Z.to_nat p)); [lia|].
  destruct (Nat.ltb_spec (Z.to_nat p + Init.Nat.pred (length L))
                         (Z.to_nat p + length L)); [|lia].
  rewrite last_lookup in Hlast. rewrite <- Hlast. f_equal. lia.
Qed.

(** [log_write] keeps the marker at the start of a line as long as no
    line is cut to fit the file. *)
Lemma log_write_line_start level t msg st :
  log_inv st -> tm_valid t ->
  Z.of_nat (length (format_line level t msg)) <= g_max_bytes st - MARKER_LEN ->
  (g_overwriting st = true ->
   line_start (file_of st) (Z.to_nat (g_write_pos st))) ->
  g_overwriting (log_write level t msg st) = true ->
  line_start (file_of (log_write level t msg st))
             (Z.to_nat (g_write_pos (log_write level t msg st))).
Proof.
  intros Hinv Ht Hshort Hls. unfold log_write.
  destruct (level_val level <? level_val (g_min_level st)); [exact Hls|].
  destruct Hinv as (Hfp & f & Hdisk & Hmin & Hpos & Hsize & Hmode).
  destruct (format_line_layout level t msg Ht) as (_ & _ & Hlen & _ & Hlast & _).
  set (line := format_line level t msg) in *.
  cbn [to_stderr g_fp g_max_bytes g_overwriting g_write_pos]. rewrite Hfp.
  cbn [negb].
  destruct (Z.ltb_spec (g_max_bytes st - MARKER_LEN) (Z.of_nat (length line)));
    [lia|].
  rewrite Nat2Z.id, take_ge by lia.
  assert (Hne : line <> []) by (intros E; rewrite E in Hlen; simpl in Hlen; lia).
  unfold MARKER_LEN, MIN_FILE_CAP in *.
  destruct (g_overwriting st) eqn:How.
  - destruct Hmode as [Hfit Huniq].
    match goal with
    | |- context [if ?c then set_file ?a ?b ?c1 ?d else ?e] =>
        set (st1 := if c then set_file a b c1 d else e)
    end.
    assert (Hst1 : g_fp st1 = true /\ g_overwriting st1 = true /\
                   exists g, disk st1 = Some g /\ 0 <= g_write_pos st1 /\
                             (Z.to_nat (g_write_pos st1) <= length g)%nat).
    { unfold st1.
      destruct (g_max_bytes st <? g_write_pos st + (Z.of_nat (length line) + 20)).
      - cbn [set_file g_fp g_overwriting disk g_write_pos to_stderr].
        split; [exact Hfp|]. split; [reflexivity|]. eexists.
        split; [reflexivity|]. split; [lia|]. simpl. lia.
      - cbn [to_stderr g_fp g_overwriting disk g_write_pos].
        split; [exact Hfp|]. split; [exact How|]. exists f.
        split; [exact Hdisk|]. split; [exact Hpos|]. lia. }
    destruct Hst1 as (Hfp1 & How1 & g & Hd1 & Hp1 & Hpg1).
    destruct (write_line_marker_file st1 g line Hfp1 Hd1 How1 Hne)
      as (Hfile & Hpos' & _).
    intros _. rewrite Hfile, Hpos'. now apply line_start_after_line.
  - destruct Hmode as [Hend Hfree]. rewrite Z.add_0_r. cbn [andb].
    destruct (Z.ltb_spec (g_max_bytes st) (g_write_pos st + Z.of_nat (length line)))
      as [Hwrap|Hstay].
    + set (st1 := set_file (to_stderr st line) (file_of (to_stderr st line)) 0 true).
      assert (Hfp1 : g_fp st1 = true) by exact Hfp.
      assert (How1 : g_overwriting st1 = true) by reflexivity.
      assert (Hd1 : disk st1 = Some f).
      { unfold st1. cbn [set_file disk]. unfold file_of.
        cbn [to_stderr disk]. now rewrite Hdisk. }
      destruct (write_line_marker_file st1 f line Hfp1 Hd1 How1 Hne)
        as (Hfile & Hpos' & _).
      intros _. rewrite Hfile, Hpos'.
      apply line_start_after_line; [reflexivity|simpl; lia|exact Hlast].
    + unfold write_marker, raw_write.
      cbn [to_stderr g_fp g_overwriting]. rewrite Hfp.
      destruct (Nat.eqb_spec (length line) 0) as [E|_]; [lia|].
      cbn [negb orb set_file g_overwriting]. rewrite How. cbn [negb orb].
      cbn [set_file g_overwriting]. discriminate.
Qed.

(** Calls whose lines are written without being cut. *)
Definition call_short (cap : Z) (c : log_call) : Prop :=
  match c with
  | Write level t msg =>
      tm_valid t /\ mentions_marker msg = false /\
      Z.of_nat (length (format_line level t msg)) <= cap - MARKER_LEN
  | SetLevel _ => True
  end.

Lemma run_calls_line_start calls : forall st,
  log_inv st -> Forall (call_short (g_max_bytes st)) calls ->
  (g_overwriting st = true -> line_start (file_of st) (Z.to_nat (g_write_pos st))) ->
  let st' := fold_left run_call calls st in
  log_inv st' /\ g_max_bytes st' = g_max_bytes st /\
  (g_overwriting st' = true ->
   line_start (file_of st') (Z.to_nat (g_write_pos st'))).
Proof.
  induction calls as [|c calls IH]; intros st Hinv Hok Hls; [cbn; auto|].
  apply Forall_cons in Hok as [Hc Hok]. cbn zeta. cbn [fold_left].
  destruct c as [level t msg|level].
  - destruct Hc as (Ht & Hm & Hshort). cbn [run_call].
    pose proof (log_write_inv level t msg st Hinv Ht Hm) as Hinv'.
    pose proof (log_write_line_start level t msg st Hinv Ht Hshort Hls) as Hls'.
    pose proof (log_write_max level t msg st) as Hmax.
    destruct (IH (log_write level t msg st) Hinv') as (H1 & H2 & H3);
      [now rewrite Hmax|exact Hls'|].
    split; [exact H1|]. split; [congruence|exact H3].
  - cbn [run_call]. destruct (IH (log_set_level level st)) as (H1 & H2 & H3);
      [exact Hinv|exact Hok|exact Hls|]. auto.
Qed.

(** X29. The marker is how the writer finds its place again: for a logger
    started on a missing or empty file, after any writes whose lines fit
    the file uncut and whose texts hold no marker, [log_close] followed by
    [log_init] with the same capacity leaves the file as it is and, when
    the writer had wrapped or the file is not yet full, recovers the write
    position and the overwriting flag, with the invariant in place. *)
Theorem reopen_recovers_position cap d calls :
  d = None \/ d = Some [] -> MIN_FILE_CAP <= cap ->
  Forall (call_short cap) calls ->
  let st := fold_left run_call calls (snd (log_init cap (logger_start d))) in
  let st' := snd (log_init cap (log_close st)) in
  fst (log_init cap (log_close st)) = 0 /\ file_of st' = file_of st /\
  (g_overwriting st = true \/ Z.of_nat (length (file_of st)) < cap ->
   g_write_pos st' = g_write_pos st /\ g_overwriting st' = g_overwriting st /\
   log_inv st').
Proof.
  intros Hd Hcap Hok. cbn zeta.
  destruct (log_init_fresh_inv cap d Hd Hcap) as [_ Hinv0].
  pose proof (log_init_max cap (logger_start d) Hcap) as Hmax0.
  assert (Hls0 : g_overwriting (snd (log_init cap (logger_start d))) = true ->
                 line_start (file_of (snd (log_init cap (logger_start d))))
                   (Z.to_nat (g_write_pos (snd (log_init cap (logger_start d)))))).
  { unfold log_init. destruct (Z.ltb_spec cap MIN_FILE_CAP); [lia|].
    assert (Hf : default [] (disk (logger_start d)) = []).
    { destruct Hd as [-> | ->]; reflexivity. }
    rewrite Hf. simpl. discriminate. }
  destruct (run_calls_line_start calls _ Hinv0) as (Hinv & Hmax & Hls);
    [now rewrite Hmax0|exact Hls0|].
  set (st := fold_left run_call calls (snd (log_init cap (logger_start d)))) in *.
  rewrite Hmax0 in Hmax.
  destruct Hinv as (Hfp & f & Hdisk & Hmin & Hpos & Hsize & Hmode).
  unfold log_init. destruct (Z.ltb_spec cap MIN_FILE_CAP); [lia|].
  cbn [log_close disk]. rewrite Hdisk. cbn [default from_option id].
  assert (Hfile : file_of st = f) by (unfold file_of; now rewrite Hdisk).
  rewrite Hfile in *.
  set (r := if 0 <? Z.of_nat (length f)
            then (if 0 <=? find_marker f then (find_marker f, true)
                  else if cap <=? Z.of_nat (length f) then (0, true)
                       else (Z.of_nat (length f), false))
            else (0, false)).
  assert (Hr : g_overwriting st = true \/ Z.of_nat (length f) < cap ->
               r = (g_write_pos st, g_overwriting st)).
  { intros Hcase. unfold r. destruct (g_overwriting st) eqn:How.
    - destruct Hmode as [Hfit Huniq]. unfold MARKER_LEN in Hfit.
      destruct (Z.ltb_spec 0 (Z.of_nat (length f))); [|lia].
      rewrite (find_marker_complete f (Z.to_nat (g_write_pos st))).
      + rewrite Z2Nat.id by lia.
        destruct (Z.leb_spec 0 (g_write_pos st)); [reflexivity|lia].
      + now apply Huniq.
      + now apply Hls.
      + intros o' Ho' Hocc. apply Huniq in Hocc. lia.
    - destruct Hmode as [Hend Hfree]. destruct Hcase as [Hc|Hc]; [discriminate|].
      destruct (Z.ltb_spec 0 (Z.of_nat (length f))); [|f_equal; lia].
      destruct (find_marker_sound f _ eq_refl) as [Hm|(o & _ & Hocc & _)].
      + rewrite Hm. cbn [Z.leb]. destruct (Z.leb_spec cap (Z.of_nat (length f)));
          [lia|]. f_equal. lia.
      + exfalso. exact (Hfree o Hocc). }
  fold r. destruct r as [pos ow] eqn:Er. cbn [fst snd].
  split; [reflexivity|]. split; [reflexivity|]. intros Hcase.
  specialize (Hr Hcase). injection Hr as -> ->. cbn [g_write_pos g_overwriting].
  split; [reflexivity|]. split; [reflexivity|].
  unfold log_inv. cbn [g_fp disk g_max_bytes g_write_pos g_overwriting].
  split; [reflexivity|]. exists f. rewrite Hmax in *. auto.
Qed.

Lemma reopen_recovers_position_witness :
  let calls := replicate 6 (Write LOG_INFO example_time (lit "hello world msg")) in
  let st := fold_left run_call calls (snd (log_init 256 (logger_start None))) in
  let st' := snd (log_init 256 (log_close st)) in
  fst (log_init 256 (log_close st)) = 0 /\ file_of st' = file_of st /\
  (g_overwriting st = true \/ Z.of_nat (length (file_of st)) < 256 ->
   g_write_pos st' = g_write_pos st /\ g_overwriting st' = g_overwriting st /\
   log_inv st').
Proof.
  apply (reopen_recovers_position 256 None
           (replicate 6 (Write LOG_INFO example_time (lit "hello world msg")))).
  - left. reflexivity.
  - unfold MIN_FILE_CAP. lia.
  - apply Forall_replicate. split; [|split].
    + unfold tm_valid. simpl. lia.
    + vm_compute. reflexivity.
    + vm_compute. discriminate.
Defined.

(** C7 (code defect). The invariant of the circular log does not survive
    a restart behind a line that was cut.  A logger is initialised with
    capacity 256 on a missing file and writes a short line and then a text
    of 300 bytes: the line is cut to the 236 bytes that fit, without a
    newline, the writer wraps and puts the cut line at the top with the
    marker behind it, at offset 236; so far one marker, as the invariant
    says.  After [log_close] and [log_init] on this file [find_marker],
    which tests the starts of lines only, does not find the marker: the
    writer starts at the top again, and its next [log_write] puts a second
    marker behind the new line.  After that write on an initialised logger
    the file is within the capacity and the overwriting flag is set, but
    the marker occurs twice.  No text written holds the marker. *)
Theorem reopen_after_cut_line_leaves_two_markers :
  let m1 := lit "hello world msg" in
  let m2 := replicate 300 "x"%char in
  let st := log_write LOG_ERROR example_time m2
              (log_write LOG_INFO example_time m1
                 (snd (log_init 256 (logger_start None)))) in
  let st1 := snd (log_init 256 (log_close st)) in
  let st' := log_write LOG_INFO example_time m1 st1 in
  (tm_valid example_time /\
   mentions_marker m1 = false /\ mentions_marker m2 = false /\
   fst (log_init 256 (logger_start None)) = 0 /\
   fst (log_init 256 (log_close st)) = 0) /\
  (g_overwriting st = true /\ count_marker (file_of st) = 1%nat /\
   g_write_pos st = 236 /\ occurs_at MARKER (file_of st) 236 /\
   file_of st !! 235%nat = Some "x"%char) /\
  (find_marker (file_of st) = -1 /\ file_of st1 = file_of st /\
   g_write_pos st1 = 0 /\ g_overwriting st1 = true) /\
  (g_initialised st' = true /\ g_fp st' = true /\ g_overwriting st' = true /\
   Z.of_nat (length (file_of st')) <= 256 /\
   occurs_at MARKER (file_of st') 46 /\ occurs_at MARKER (file_of st') 236 /\
   count_marker (file_of st') = 2%nat).
Proof.
  cbv zeta. split; [|split; [|split]].
  - split; [unfold tm_valid; simpl; lia|]. vm_compute. repeat split; reflexivity.
  - vm_compute. repeat split; reflexivity.
  - vm_compute. repeat split; reflexivity.
  - split; [reflexivity|]. split; [reflexivity|]. split; [reflexivity|].
    split; [vm_compute; discriminate|]. vm_compute. repeat split; reflexivity.
Qed.

(** *** Reading the log back *)

(** The loop of [log_read_last_n] that collects the line starts: each line
    stands for the pointer to its first byte, the text from there to the
    end of the buffer.  A byte is passed in every iteration. *)
Fixpoint collect_lines (fuel : nat) (lp : list ascii) : list (list ascii) :=
  match fuel with
  | O => []
  | S f =>
      match lp with
      | [] => []
      | c :: rest =>
          if is_nul c then collect_lines f rest
          else lp :: match memchr_nl lp with
                     | Some k => collect_lines f (drop (S k) lp)
                     | None => []
                     end
      end
  end.

(** What the printing loop writes for one line: up to and including its
    newline, or up to the terminator when there is none. *)
Definition print_line (line : list ascii) : list ascii :=
  match memchr_nl line with
  | Some k => take (S k) line
  | None => c_str line
  end.

(** [log_read_last_n(path, n)] with the file at [path]: the value
    returned and the bytes written to stdout; allocation is taken to
    succeed. *)
Definition log_read_last_n (f : option (list ascii)) (n : Z) : Z * list ascii :=
  if n <=? 0 then (-1, [])
  else
    match f with
    | None => (-1, [])
    | Some buf =>
        if (length buf =? 0)%nat then (-1, [])
        else
          let got := Z.of_nat (length buf) in
          let marker_pos := find_loop (S (length buf)) buf 0 (got - MARKER_LEN) in
          let logical :=
            if 0 <=? marker_pos
            then drop (Z.to_nat (marker_pos + MARKER_LEN)) buf ++
                 take (Z.to_nat marker_pos) buf
            else buf in
          let lines := collect_lines (S (length logical)) logical in
          let start := Z.of_nat (length lines) - n in
          let start := if start <? 0 then 0 else start in
          (0, concat (map print_line (drop (Z.to_nat start) lines)))
    end.

(** A file of whole lines. *)
Definition lines_text (ls : list (list ascii)) : list ascii :=
  concat (map (fun l => l ++ [NL]) ls).

(** A line as the writer leaves it before the first wrap: no newline
    inside, no NUL as first byte, and not the marker itself. *)
Definition line_ok (l : list ascii) : Prop :=
  Forall (fun c => c <> NL) l /\ (l = [] \/ peek l <> NUL) /\ l <> BODY.

Lemma memchr_nl_line l rest :
  Forall (fun c => c <> NL) l -> memchr_nl (l ++ NL :: rest) = Some (length l).
Proof.
  induction 1 as [|c l Hc _ IH].
  - reflexivity.
  - cbn [app memchr_nl length]. apply Ascii.eqb_neq in Hc. rewrite Hc, IH.
    reflexivity.
Qed.

Lemma lines_text_cons l ls :
  lines_text (l :: ls) = l ++ NL :: lines_text ls.
Proof. unfold lines_text. cbn [map concat]. now rewrite <- app_assoc. Qed.

Lemma line_not_marker l rest :
  Forall (fun c => c <> NL) l -> l <> BODY ->
  take 20 (l ++ NL :: rest) <> MARKER.
Proof.
  intros Hl Hne Heq. apply Hne.
  assert (Hnl : memchr_nl (take 20 (l ++ NL :: rest)) = Some 19%nat)
    by (rewrite Heq; reflexivity).
  destruct (decide (length l < 20)%nat) as [Hlt|Hge].
  - assert (Hsplit : take 20 (l ++ NL :: rest) =
                     l ++ NL :: take (19 - length l) rest).
    { rewrite take_app_ge by lia.
      replace (20 - length l)%nat with (S (19 - length l)) by lia. reflexivity. }
    rewrite Hsplit, memchr_nl_line in Hnl by exact Hl. injection Hnl as Hlen.
    rewrite Hsplit in Heq. unfold MARKER in Heq.
    apply app_inj_1 in Heq; [tauto|]. rewrite Hlen. reflexivity.
  - exfalso. rewrite take_app_le in Heq by lia.
    assert (Hin : take 20 l !! 19%nat = Some NL) by (rewrite Heq; reflexivity).
    rewrite lookup_take_lt in Hin by lia.
    rewrite Forall_forall in Hl. apply (Hl NL); [|reflexivity].
    apply list_elem_of_lookup. eauto.
Qed.

Lemma find_loop_whole_lines ls : forall fuel pre e,
  Forall line_ok ls ->
  find_loop fuel (pre ++ lines_text ls) (length pre) e = -1.
Proof.
  induction ls as [|l ls IH]; intros fuel pre e Hok.
  - destruct fuel as [|f]; [reflexivity|]. cbn [find_loop].
    destruct (_ <=? _); [|reflexivity].
    rewrite drop_app_length. change (lines_text []) with (@nil ascii).
    rewrite bool_decide_eq_false_2 by discriminate. reflexivity.
  - apply Forall_cons in Hok as [(Hl & _ & Hne) Hok].
    destruct fuel as [|f]; [reflexivity|]. cbn [find_loop].
    destruct (_ <=? _); [|reflexivity].
    rewrite drop_app_length, lines_text_cons.
    rewrite bool_decide_eq_false_2 by (now apply line_not_marker).
    rewrite memchr_nl_line by exact Hl.
    specialize (IH f (pre ++ l ++ [NL]) e Hok).
    rewrite !length_app in IH. cbn [length] in IH.
    replace (length pre + length l + 1)%nat with (length pre + (length l + 1))%nat
      by lia.
    rewrite <- IH. f_equal. rewrite <- !app_assoc. reflexivity.
Qed.

Lemma collect_whole_lines ls : forall fuel,
  Forall line_ok ls -> (length ls < fuel)%nat ->
  map print_line (collect_lines fuel (lines_text ls)) =
  map (fun l => l ++ [NL]) ls.
Proof.
  induction ls as [|l ls IH]; intros fuel Hok Hf.
  - destruct fuel; reflexivity.
  - apply Forall_cons in Hok as [(Hl & Hz & _) Hok].
    destruct fuel as [|f]; [simpl in Hf; lia|]. rewrite lines_text_cons.
    assert (Hhead : exists c rest, l ++ NL :: lines_text ls = c :: rest /\
                                   is_nul c = false).
    { destruct l as [|c l'].
      - exists NL, (lines_text ls). split; reflexivity.
      - exists c, (l' ++ NL :: lines_text ls). split; [reflexivity|].
        destruct Hz as [Hz|Hz]; [discriminate|]. simpl in Hz.
        destruct (is_nul c) eqn:E; [|reflexivity].
        apply is_nul_spec in E. contradiction. }
    destruct Hhead as (c & rest & Heq & Hc).
    cbn [collect_lines]. rewrite Heq, Hc, <- Heq.
    rewrite memchr_nl_line by exact Hl. cbn [map]. f_equal.
    + unfold print_line. rewrite memchr_nl_line by exact Hl.
      replace (S (length l)) with (length (l ++ [NL]))
        by (rewrite length_app; simpl; lia).
      change (l ++ NL :: lines_text ls) with (l ++ [NL] ++ lines_text ls).
      rewrite app_assoc, take_app_length. reflexivity.
    + replace (S (length l)) with (length (l ++ [NL]))
        by (rewrite length_app; simpl; lia).
      change (l ++ NL :: lines_text ls) with (l ++ [NL] ++ lines_text ls).
      rewrite app_assoc, drop_app_length. apply IH; [exact Hok|simpl in Hf; lia].
Qed.

Lemma lines_text_length ls : (length ls <= length (lines_text ls))%nat.
Proof.
  induction ls as [|l ls IH]; [reflexivity|].
  rewrite lines_text_cons, length_app. simpl. lia.
Qed.

(** X30. [log_read_last_n] on a log that has not wrapped, made of whole
    lines none of which is the marker, prints the last [n] lines, or all
    of them when there are fewer, and returns 0; it returns -1 and prints
    nothing for [n <= 0], for a missing file and for an empty one. *)
Theorem read_last_n_unwrapped ls n :
  0 < n -> ls <> [] -> Forall line_ok ls ->
  log_read_last_n (Some (lines_text ls)) n =
    (0, lines_text (drop (length ls - Z.to_nat n) ls)) /\
  log_read_last_n None n = (-1, []) /\
  log_read_last_n (Some []) n = (-1, []) /\
  (forall f m, m <= 0 -> log_read_last_n f m = (-1, [])).
Proof.
  intros Hn Hne Hok. split; [|split; [|split]].
  - unfold log_read_last_n. destruct (Z.leb_spec n 0); [lia|].
    destruct (Nat.eqb_spec (length (lines_text ls)) 0) as [E|_].
    { destruct ls as [|l ls']; [congruence|].
      rewrite lines_text_cons, length_app in E. simpl in E. lia. }
    pose proof (find_loop_whole_lines ls (S (length (lines_text ls))) []
                  (Z.of_nat (length (lines_text ls)) - MARKER_LEN) Hok) as Hfind.
    cbn [app length] in Hfind. rewrite Hfind. change (0 <=? -1) with false. cbv iota.
    f_equal. rewrite <- skipn_map.
    pose proof (lines_text_length ls) as Hlen.
    pose proof (collect_whole_lines ls (S (length (lines_text ls))) Hok ltac:(lia))
      as Hcol.
    assert (Hcount : length (collect_lines (S (length (lines_text ls)))
                               (lines_text ls)) = length ls).
    { rewrite <- (length_map print_line), Hcol, length_map. reflexivity. }
    rewrite Hcount, Hcol.
    replace (Z.to_nat (if Z.of_nat (length ls) - n <? 0 then 0
                       else Z.of_nat (length ls) - n))
      with (length ls - Z.to_nat n)%nat
      by (destruct (Z.ltb_spec (Z.of_nat (length ls) - n) 0); lia).
    unfold lines_text. now rewrite skipn_map.
  - unfold log_read_last_n. destruct (Z.leb_spec n 0); reflexivity.
  - unfold log_read_last_n. destruct (Z.leb_spec n 0); reflexivity.
  - intros f m Hm. unfold log_read_last_n.
    destruct (Z.leb_spec m 0); [reflexivity|lia].
Qed.

Lemma read_last_n_unwrapped_witness :
  log_read_last_n (Some (lines_text [lit "one"; lit "two"; lit "three"])) 2 =
    (0, lines_text (drop (3 - Z.to_nat 2) [lit "one"; lit "two"; lit "three"])) /\
  log_read_last_n None 2 = (-1, []) /\
  log_read_last_n (Some []) 2 = (-1, []) /\
  (forall f m, m <= 0 -> log_read_last_n f m = (-1, [])).
Proof.
  apply (read_last_n_unwrapped [lit "one"; lit "two"; lit "three"] 2).
  - lia.
  - discriminate.
  - repeat (constructor;
            [split; [repeat (constructor; [discriminate|]); constructor
                    |split; [right; discriminate|discriminate]]|]).
    constructor.
Defined.

End Logger.
